(** * Logbase: a shallow embedding of the storage engine

    The Go package [internal/storage] (membership filter, memory table,
    write-ahead log, sorted tables, engine) and the key handler of
    [cmd/server] are embedded as Rocq functions.

    - A Go [[]byte] or [string] is a Rocq [string]: a sequence of 8-bit
      characters, compared and hashed byte by byte.
    - A Go [map[string][]byte] is a [gmap string string].
    - A Go [int] is a [Z] reduced by [int64]; a [uint64] is a [Z] reduced
      modulo [2^64]; a [uint32] modulo [2^32].
    - A run-time panic (division by zero, index out of range, negative
      [make]) is the result [None].
    - The data directory is an explicit value [Disk.t] passed through every
      operation that touches files.  A file operation fails only when the
      file system state forces it (opening a file that does not exist);
      device faults are not modelled. *)

From Stdlib Require Import ZArith Ascii String.
From stdpp Require Import gmap strings list fin_maps sorting.

Local Open Scope Z_scope.

(** ** Go machine integers *)

Definition uint64 (z : Z) : Z := z mod 2 ^ 64.
Definition uint32 (z : Z) : Z := z mod 2 ^ 32.
Definition uint8 (z : Z) : Z := z mod 2 ^ 8.
(** Two's complement 64-bit [int]. *)
Definition int64 (z : Z) : Z := (z + 2 ^ 63) mod 2 ^ 64 - 2 ^ 63.

(** [len] of a byte string, as a Go [int]. *)
Definition len (s : string) : Z := Z.of_nat (String.length s).

Definition byte_val (c : ascii) : Z := Z.of_N (N_of_ascii c).
Definition byte_chr (z : Z) : ascii := ascii_of_N (Z.to_N (uint8 z)).

(** ** Errors

    The values of Go's [error] that the embedded code can produce; [None]
    of [option error] is Go's [nil]. *)

Inductive error : Type :=
  | EOF                     (* io.EOF *)
  | ErrUnexpectedEOF        (* io.ErrUnexpectedEOF *)
  | ErrNotExist             (* os.Open on a missing file *)
  | ErrGobNoExportedFields  (* gob: type ... has no exported fields *)
  | ErrGobNoFieldsMatched.  (* gob: type mismatch: no fields matched *)

#[global] Instance error_eq_dec : EqDecision error.
Proof. solve_decision. Defined.

(** ** encoding/gob

    [BloomFilter.Save] and [LoadBloomFilter] hand the filter to Go's
    [encoding/gob].  The library is not part of the repository; what is
    embedded here is its documented behaviour on a struct value, with the
    wire bytes abstracted to the messages they carry:
    - only exported fields (name starting with an upper-case letter) are
      transmitted;
    - the encoder first emits the type definition, then compiles the value
      encoder, and that step fails for a struct that has fields but no
      exported one;
    - the decoder skips type definitions, stores the transmitted fields
      into the exported fields of the same name and leaves every other
      field of the destination untouched; a stream that ends before a
      value yields [io.EOF] when it is empty and [io.ErrUnexpectedEOF]
      when type definitions were read. *)

Module Gob.

Inductive value : Type :=
  | Bytes (b : list Z)
  | Int (z : Z).

Definition field : Type := string * value.

Inductive message : Type :=
  | TypeDef (names : list string)
  | Value (fields : list field).

Definition stream : Type := list message.

Definition isExported (name : string) : bool :=
  match name with
  | EmptyString => false
  | String c _ => (65 <=? byte_val c) && (byte_val c <=? 90)
  end.

Definition sent (fields : list field) : list field :=
  List.filter (fun f => isExported (fst f)) fields.

Definition Encode (fields : list field) : stream * option error :=
  let out := sent fields in
  match fields, out with
  | _ :: _, [] => ([TypeDef []], Some ErrGobNoExportedFields)
  | _, _ => ([TypeDef (List.map fst out); Value out], None)
  end.

Fixpoint assoc (name : string) (wire : list field) : option value :=
  match wire with
  | [] => None
  | (n, v) :: wire' => if String.eqb n name then Some v else assoc name wire'
  end.

Definition store (wire : list field) (f : field) : field :=
  if isExported (fst f)
  then match assoc (fst f) wire with
       | Some v => (fst f, v)
       | None => f
       end
  else f.

Definition matches (wire : list field) (f : field) : bool :=
  isExported (fst f) && bool_decide (is_Some (assoc (fst f) wire)).

(** The decoder's loop over the messages; [firstMessage] is false once
    a type definition was read. *)
Fixpoint decode_loop (firstMessage : bool) (s : stream) (dst : list field)
    : list field * option error :=
  match s with
  | [] => (dst, Some (if firstMessage then EOF else ErrUnexpectedEOF))
  | TypeDef _ :: s' => decode_loop false s' dst
  | Value wire :: _ =>
      match dst, wire, List.filter (matches wire) dst with
      | _ :: _, _ :: _, [] => (dst, Some ErrGobNoFieldsMatched)
      | _, _, _ => (List.map (store wire) dst, None)
      end
  end.

Definition Decode (s : stream) (dst : list field) : list field * option error :=
  decode_loop true s dst.

End Gob.

(** ** Membership filter (bloom.go) *)

Module BloomFilter.

(** [type BloomFilter struct { bits []byte; k int }] *)
Record t : Type := mk { bits : list Z; k : Z }.

(** The zero value [BloomFilter{}]. *)
Definition zero : t := {| bits := []; k := 0 |}.

(** [make([]byte, size)] panics on a negative size. *)
Definition NewBloomFilter (size : Z) (k : Z) : option t :=
  if size <? 0 then None
  else Some {| bits := replicate (Z.to_nat size) 0; k := k |}.

(** FNV-1a, 64 bits ([hash/fnv].New64a). *)
Definition fnv_offset64 : Z := 14695981039346656037.
Definition fnv_prime64 : Z := 1099511628211.

Fixpoint fnv_write (h : Z) (data : string) : Z :=
  match data with
  | EmptyString => h
  | String c rest =>
      fnv_write (uint64 (Z.lxor h (byte_val c) * fnv_prime64)) rest
  end.

(** [b.hash(key, seed)]: the seed is truncated to one byte. *)
Definition hash (key : string) (seed : Z) : Z :=
  fnv_write (fnv_write fnv_offset64 (String (byte_chr seed) EmptyString)) key.

(** [idx := b.hash(key, i) % (uint64(len(b.bits)) * 8)], split into
    [(byteIdx, bitIdx)]; the remainder panics when the modulus is 0. *)
Definition probe (nbytes : nat) (key : string) (i : nat) : option (nat * Z) :=
  let m := uint64 (Z.of_nat nbytes * 8) in
  if m =? 0 then None
  else
    let idx := hash key (Z.of_nat i) mod m in
    Some (Z.to_nat (idx / 8), idx mod 8).

(** [1 << bitIdx] at type [byte]. *)
Definition mask (bitIdx : Z) : Z := uint8 (Z.shiftl 1 bitIdx).

(** The loop counter [i] runs over [0 .. k-1]. *)
Definition rounds (b : t) : list nat := seq 0 (Z.to_nat (k b)).

Fixpoint add_loop (key : string) (rs : list nat) (bs : list Z) : option (list Z) :=
  match rs with
  | [] => Some bs
  | i :: rs' =>
      match probe (length bs) key i with
      | None => None
      | Some (byteIdx, bitIdx) =>
          match bs !! byteIdx with
          | None => None
          | Some x => add_loop key rs' (<[byteIdx := Z.lor x (mask bitIdx)]> bs)
          end
      end
  end.

Definition Add (key : string) (b : t) : option t :=
  match add_loop key (rounds b) (bits b) with
  | Some bs => Some {| bits := bs; k := k b |}
  | None => None
  end.

Fixpoint might_loop (key : string) (rs : list nat) (bs : list Z) : option bool :=
  match rs with
  | [] => Some true
  | i :: rs' =>
      match probe (length bs) key i with
      | None => None
      | Some (byteIdx, bitIdx) =>
          match bs !! byteIdx with
          | None => None
          | Some x =>
              if Z.land x (mask bitIdx) =? 0 then Some false
              else might_loop key rs' bs
          end
      end
  end.

Definition MightContain (key : string) (b : t) : option bool :=
  might_loop key (rounds b) (bits b).

(** Bit [snd p] of byte [fst p] is set. *)
Definition bit_on (bs : list Z) (p : nat * Z) : Prop :=
  ∃ x, bs !! fst p = Some x ∧ Z.testbit x (snd p) = true.

(** A sequence of [Add] calls, stopping at the first panic. *)
Fixpoint AddAll (keys : list string) (b : t) : option t :=
  match keys with
  | [] => Some b
  | key :: keys' =>
      match Add key b with
      | Some b' => AddAll keys' b'
      | None => None
      end
  end.

(** The struct as [encoding/gob] sees it through reflection. *)
Definition fields (b : t) : list Gob.field :=
  [("bits"%string, Gob.Bytes (bits b)); ("k"%string, Gob.Int (k b))].

Definition of_fields (fs : list Gob.field) (dflt : t) : t :=
  {| bits := match Gob.assoc "bits" fs with
             | Some (Gob.Bytes bs) => bs
             | _ => bits dflt
             end;
     k := match Gob.assoc "k" fs with
          | Some (Gob.Int z) => z
          | _ => k dflt
          end |}.

(** [Save]: [os.Create] truncates the file, then the encoder writes. *)
Definition Save {P} `{Countable P} (path : P) (b : t) (dir : gmap P Gob.stream)
    : gmap P Gob.stream * option error :=
  let (msgs, err) := Gob.Encode (fields b) in
  (<[path := msgs]> dir, err).

(** [LoadBloomFilter]: a nil pointer when the file cannot be opened,
    otherwise [&bf] together with whatever [Decode] returned. *)
Definition LoadBloomFilter {P} `{Countable P} (path : P) (dir : gmap P Gob.stream)
    : option t * option error :=
  match dir !! path with
  | None => (None, Some ErrNotExist)
  | Some s =>
      let (fs, err) := Gob.Decode s (fields zero) in
      (Some (of_fields fs zero), err)
  end.

End BloomFilter.

(** ** Memory table (memtable.go)

    The reader/writer lock is not modelled: the engine calls the table
    from one goroutine at a time. *)

Module MemTable.

(** [type MemTable struct { mu; data map[string][]byte; bytes int }] *)
Record t : Type := mk { data : gmap string string; bytes : Z }.

Definition NewMemTable : t := {| data := ∅; bytes := 0 |}.

Definition Put (key value : string) (m : t) : t :=
  let bytes1 :=
    match data m !! key with
    | Some old => int64 (bytes m - len old)
    | None => bytes m
    end in
  {| data := <[key := value]> (data m);
     bytes := int64 (bytes1 + int64 (len key + len value)) |}.

(** [val, ok := m.data[string(key)]]: the zero value with [false] on a
    miss. *)
Definition Get (key : string) (m : t) : string * bool :=
  match data m !! key with
  | Some val => (val, true)
  | None => (EmptyString, false)
  end.

Definition Delete (key : string) (m : t) : t :=
  match data m !! key with
  | Some old =>
      {| data := delete key (data m); bytes := int64 (bytes m - len old) |}
  | None => m
  end.

Definition Size (m : t) : Z := bytes m.

Definition Snapshot (m : t) : gmap string string := data m.

(** [k >= s && k <= e], byte-wise. *)
Definition in_range (s e k : string) : bool := String.leb s k && String.leb k e.

Definition Range (s e : string) (m : t) : gmap string string :=
  filter (fun kv => in_range s e (fst kv) = true) (data m).

(** A history of mutations, the way a client issues them. *)
Inductive op : Type :=
  | OpPut (key value : string)
  | OpDelete (key : string).

Definition apply (m : t) (o : op) : t :=
  match o with
  | OpPut key value => Put key value m
  | OpDelete key => Delete key m
  end.

Definition run (ops : list op) : t := fold_left apply ops NewMemTable.

(** Σ (len key + len value) over the entries present in the table. *)
Definition footprint (m : t) : Z :=
  map_fold (fun key value acc => acc + (len key + len value)) 0 (data m).

End MemTable.

(** ** Length-prefixed framing shared by the WAL and the sorted tables

    [binary.Write(w, binary.BigEndian, uint32(n))] followed by the bytes,
    and the matching [binary.Read] / [io.ReadFull] over what is left of the
    file. *)

Module Wire.

Definition put_u8 (z : Z) : string := String (byte_chr z) EmptyString.

Definition put_u32 (z : Z) : string :=
  let u := uint32 z in
  String (byte_chr (u / 2 ^ 24))
    (String (byte_chr (u / 2 ^ 16))
      (String (byte_chr (u / 2 ^ 8))
        (String (byte_chr u) EmptyString))).

(** [uint32(len(b))] then [b]. *)
Definition frame (b : string) : string := put_u32 (len b) +:+ b.

Fixpoint split_at (n : nat) (input : string) : string * string :=
  match n, input with
  | S n', String c rest =>
      let (a, b) := split_at n' rest in (String c a, b)
  | _, _ => (EmptyString, input)
  end.

(** [io.ReadFull] into a buffer of [n] bytes: nothing to do for an empty
    buffer, [io.EOF] when no byte is left, [io.ErrUnexpectedEOF] when
    fewer than [n] are. *)
Definition ReadFull (n : Z) (input : string) : (string * string) + error :=
  if n <=? 0 then inl (EmptyString, input)
  else if len input =? 0 then inr EOF
  else if len input <? n then inr ErrUnexpectedEOF
  else inl (split_at (Z.to_nat n) input).

Fixpoint be_val (acc : Z) (b : string) : Z :=
  match b with
  | EmptyString => acc
  | String c rest => be_val (acc * 256 + byte_val c) rest
  end.

Definition read_u32 (input : string) : (Z * string) + error :=
  match ReadFull 4 input with
  | inl (b, rest) => inl (be_val 0 b, rest)
  | inr e => inr e
  end.

Definition read_u8 (input : string) : (Z * string) + error :=
  match ReadFull 1 input with
  | inl (b, rest) => inl (be_val 0 b, rest)
  | inr e => inr e
  end.

(** One step of a decoding loop. *)
Inductive step (A : Type) : Type :=
  | AtEOF                        (* clean end of file: the loop breaks *)
  | Failed (e : error)           (* the loop returns the error *)
  | Got (a : A) (rest : string).
Arguments AtEOF {A}.
Arguments Failed {A} e.
Arguments Got {A} a rest.

(** [key], [valLen], [value] once [keyLen] is known; every failure here
    is returned as an error, [io.EOF] included. *)
Definition read_body (keyLen : Z) (input : string) : step (string * string) :=
  match ReadFull keyLen input with
  | inr e => Failed e
  | inl (k, r1) =>
      match read_u32 r1 with
      | inr e => Failed e
      | inl (valLen, r2) =>
          match ReadFull valLen r2 with
          | inr e => Failed e
          | inl (v, r3) => Got (k, v) r3
          end
      end
  end.

(** A sorted-table entry: only [io.EOF] on the key length ends the loop
    cleanly. *)
Definition read_entry (input : string) : step (string * string) :=
  match read_u32 input with
  | inr EOF => AtEOF
  | inr e => Failed e
  | inl (keyLen, r) => read_body keyLen r
  end.

End Wire.

(** ** File names (wal.go, engine.go)

    [strings.Index], [strconv.Atoi] and the verb [%06d] of [fmt.Sprintf]
    are library code, embedded by their documented behaviour. *)

Module Names.

Definition digit (d : Z) : ascii := byte_chr (48 + d).

(** The decimal digits of a number that is not negative, most
    significant first; twenty rounds cover every 64-bit [int]. *)
Fixpoint digits_loop (fuel : nat) (n : Z) (acc : string) : string :=
  match fuel with
  | O => acc
  | S fuel' =>
      if n <? 10 then String (digit n) acc
      else digits_loop fuel' (n / 10) (String (digit (n mod 10)) acc)
  end.

Definition digits (n : Z) : string := digits_loop 20 n EmptyString.

Fixpoint zeros (n : nat) : string :=
  match n with
  | O => EmptyString
  | S n' => String (digit 0) (zeros n')
  end.

(** [fmt.Sprintf("%06d", n)]: the sign counts in the width and the
    zeros follow it. *)
Definition Sprintf_06d (n : Z) : string :=
  if n <? 0
  then String "-" (zeros (5 - String.length (digits (- n))) +:+ digits (- n))
  else zeros (6 - String.length (digits n)) +:+ digits n.

(** [fmt.Sprintf("wal_%06d.log", id)], the file name [openSegment]
    joins to the directory. *)
Definition segment_name (id : Z) : string :=
  "wal_" +:+ Sprintf_06d id +:+ ".log".

Definition digit_val (c : ascii) : option Z :=
  let v := byte_val c in
  if (48 <=? v) && (v <=? 57) then Some (v - 48) else None.

Fixpoint parse_digits (s : string) (acc : Z) : option Z :=
  match s with
  | EmptyString => Some acc
  | String c rest =>
      match digit_val c with
      | None => None
      | Some d => parse_digits rest (acc * 10 + d)
      end
  end.

(** [strconv.Atoi]: an optional sign, then one digit or more, and a
    value that fits a 64-bit [int]; [None] is a non-nil error. *)
Definition Atoi (s : string) : option Z :=
  let '(neg, ds) :=
    match s with
    | String c rest =>
        if Ascii.eqb c "-" then (true, rest)
        else if Ascii.eqb c "+" then (false, rest)
        else (false, s)
    | EmptyString => (false, s)
    end in
  match ds with
  | EmptyString => None
  | _ =>
      match parse_digits ds 0 with
      | None => None
      | Some n =>
          let v := if neg then - n else n in
          if (- 2 ^ 63 <=? v) && (v <? 2 ^ 63) then Some v else None
      end
  end.

Fixpoint HasPrefix (s prefix : string) {struct prefix} : bool :=
  match prefix, s with
  | EmptyString, _ => true
  | String a prefix', String b s' => if Ascii.eqb a b then HasPrefix s' prefix' else false
  | String _ _, EmptyString => false
  end.

(** [strings.Index(s, substr)]: the index of the first instance, or -1. *)
Fixpoint Index (s substr : string) {struct s} : Z :=
  if HasPrefix s substr then 0
  else
    match s with
    | EmptyString => -1
    | String _ s' => let i := Index s' substr in if i <? 0 then -1 else i + 1
    end.

(** [s[lo:hi]]; [None] is the panic on bounds out of range. *)
Definition slice (lo hi : Z) (s : string) : option string :=
  if (0 <=? lo) && (lo <=? hi) && (hi <=? len s)
  then Some (fst (Wire.split_at (Z.to_nat (hi - lo)) (snd (Wire.split_at (Z.to_nat lo) s))))
  else None.

(** [extractID] on the last element of the path, which is what
    [filepath.Base] hands it; [None] is a panic. *)
Definition extractID (base : string) : option Z :=
  let start := Index base "_" in
  let end_ := Index base ".log" in
  if (start =? -1) || (end_ =? -1) then Some 0
  else
    match slice (start + 1) end_ base with
    | None => None
    | Some idStr =>
        match Atoi idStr with
        | Some id => Some id
        | None => Some 0
        end
    end.

End Names.

(** ** The data directory

    Files are identified by what their names encode rather than by the
    names themselves:
    - [wal.log/wal_NNNNNN.log] by the segment id [extractID] reads back
      from the name;
    - [sst_NNNNNN.dat] and [sst_compacted_NNNNNN.dat] by [SstFlushed n] and
      [SstCompacted n];
    - the sidecar [<path>.bloom] by the path of its table, in a map of its
      own whose contents are gob streams. *)

Inductive SstPath : Type :=
  | SstFlushed (n : Z)      (* fmt.Sprintf("%s/sst_%06d.dat", dataDir, n) *)
  | SstCompacted (n : Z).   (* fmt.Sprintf("%s/sst_compacted_%06d.dat", dataDir, n) *)

#[global] Instance SstPath_eq_dec : EqDecision SstPath.
Proof. solve_decision. Defined.

#[global] Instance SstPath_countable : Countable SstPath :=
  inj_countable'
    (fun p => match p with SstFlushed n => inl n | SstCompacted n => inr n end)
    (fun s => match s with inl n => SstFlushed n | inr n => SstCompacted n end)
    (fun p => match p with SstFlushed _ => eq_refl | SstCompacted _ => eq_refl end).

Module Disk.

Record t : Type := mk {
  wal : gmap Z string;
  sst : gmap SstPath string;
  bloom : gmap SstPath Gob.stream
}.

Definition empty : t := {| wal := ∅; sst := ∅; bloom := ∅ |}.

Definition set_wal (w : gmap Z string) (d : t) : t :=
  {| wal := w; sst := sst d; bloom := bloom d |}.
Definition set_sst (s : gmap SstPath string) (d : t) : t :=
  {| wal := wal d; sst := s; bloom := bloom d |}.
Definition set_bloom (b : gmap SstPath Gob.stream) (d : t) : t :=
  {| wal := wal d; sst := sst d; bloom := b |}.

End Disk.

(** ** Write-ahead log (wal.go)

    [w.file] and [w.writer] always belong to the segment [w.segment]
    ([openSegment] sets the three together), and every append ends with
    [w.writer.Flush()], so the open segment is read and extended directly
    in the directory.  [w.dir] is the [wal] component of the disk. *)

Module WAL.

Definition PutRecord : Z := 1.
Definition DeleteRecord : Z := 2.

(** [type WALRecord struct { Type RecordType; Key, Value []byte }] *)
Record WALRecord : Type := mkRecord { Type_ : Z; Key : string; Value : string }.

Record t : Type := mk { segment : Z }.

Definition content (id : Z) (files : gmap Z string) : string :=
  default EmptyString (files !! id).

(** [maxID := 0; for ... if id > maxID { maxID = id }; return maxID + 1],
    and 0 for an empty directory. *)
Definition nextSegmentID (files : gmap Z string) : Z :=
  match List.map fst (map_to_list files) with
  | [] => 0
  | ids =>
      int64 (fold_left (fun maxID id => if maxID <? id then id else maxID) ids 0 + 1)
  end.

(** [os.OpenFile(path, O_CREATE|O_RDWR|O_APPEND)]: an existing file keeps
    its contents. *)
Definition openSegment (id : Z) (files : gmap Z string)
    : t * gmap Z string * option error :=
  ({| segment := id |},
   match files !! id with
   | Some _ => files
   | None => <[id := EmptyString]> files
   end,
   None).

Definition OpenWAL (files : gmap Z string) : t * gmap Z string * option error :=
  openSegment (nextSegmentID files) files.

(** The bytes [appendRecord] writes. *)
Definition encode (rt : Z) (key value : string) : string :=
  Wire.put_u8 rt +:+ Wire.frame key +:+ Wire.frame value.

Definition append (b : string) (w : t) (files : gmap Z string) : gmap Z string :=
  <[segment w := content (segment w) files +:+ b]> files.

Definition AppendPut (key value : string) (w : t) (files : gmap Z string)
    : gmap Z string * option error :=
  (append (encode PutRecord key value) w files, None).

Definition AppendDelete (key : string) (w : t) (files : gmap Z string)
    : gmap Z string * option error :=
  (append (encode DeleteRecord key EmptyString) w files, None).

(** One iteration of the loop of [Replay]: the type byte, where [io.EOF]
    ends the loop, then the framed key and value, where every failure is
    returned. *)
Definition read_record (input : string) : Wire.step WALRecord :=
  match Wire.read_u8 input with
  | inr EOF => Wire.AtEOF
  | inr e => Wire.Failed e
  | inl (rt, r0) =>
      match Wire.read_u32 r0 with
      | inr e => Wire.Failed e
      | inl (keyLen, r1) =>
          match Wire.read_body keyLen r1 with
          | Wire.Got (k, v) rest =>
              Wire.Got {| Type_ := rt; Key := k; Value := v |} rest
          | Wire.Failed e => Wire.Failed e
          | Wire.AtEOF => Wire.AtEOF
          end
      end
  end.

(** The loop runs on fuel; [None] is fuel exhausted, which does not occur
    with more fuel than bytes ([replay_loop_fuel]). *)
Fixpoint replay_loop (fuel : nat) (input : string) (records : list WALRecord)
    : option (list WALRecord * option error) :=
  match fuel with
  | O => None
  | S fuel' =>
      match read_record input with
      | Wire.AtEOF => Some (records, None)
      | Wire.Failed e => Some ([], Some e)
      | Wire.Got r rest => replay_loop fuel' rest (records ++ [r])
      end
  end.

(** [Replay] reads the open segment from its start. *)
Definition Replay (w : t) (files : gmap Z string) : list WALRecord * option error :=
  let input := content (segment w) files in
  default ([], None) (replay_loop (S (String.length input)) input []).

Definition Rotate (w : t) (files : gmap Z string) : t * gmap Z string * option error :=
  openSegment (int64 (segment w + 1)) files.

(** [if id < before { os.Remove(f) }] over every segment file. *)
Definition Truncate (before : Z) (files : gmap Z string) : gmap Z string * option error :=
  (filter (fun kv => ¬ (fst kv < before)) files, None).

End WAL.

(** ** Sorted tables (sstable.go)

    The sparse index ([Index], [LoadIndex]) is left out: [Get] and [Range]
    scan the file from its first byte and never consult it. *)

Module SSTable.

(** [type SSTable struct { Path string; Index []IndexEntry; Bloom *BloomFilter }] *)
Record t : Type := mk { Path : SstPath; Bloom : option BloomFilter.t }.

(** [sort.Strings] over the keys of the map. *)
Definition sorted_keys (data : gmap string string) : list string :=
  merge_sort (fun a b => Is_true (String.leb a b)) (List.map fst (map_to_list data)).

(** [NewBloomFilter(1024, 3)]. *)
Definition newFilter : BloomFilter.t :=
  default BloomFilter.zero (BloomFilter.NewBloomFilter 1024 3).

(** [bf.Add([]byte(k))]; on this filter [Add] never panics
    ([add_key_defined]). *)
Definition add_key (bf : BloomFilter.t) (key : string) : BloomFilter.t :=
  default bf (BloomFilter.Add key bf).

Definition encode_entry (key value : string) : string :=
  Wire.frame key +:+ Wire.frame value.

Definition encode_all (keys : list string) (data : gmap string string) : string :=
  fold_left
    (fun acc key => acc +:+ encode_entry key (default EmptyString (data !! key)))
    keys EmptyString.

(** [WriteSSTable]: the data file is created and written, then the
    filter is saved next to it; a failing [Save] returns [(nil, err)] and
    leaves both files behind. *)
Definition WriteSSTable (path : SstPath) (data : gmap string string) (d : Disk.t)
    : Disk.t * (t + error) :=
  let keys := sorted_keys data in
  let bf := fold_left add_key keys newFilter in
  let d1 := Disk.set_sst (<[path := encode_all keys data]> (Disk.sst d)) d in
  let (sidecars, err) := BloomFilter.Save path bf (Disk.bloom d1) in
  let d2 := Disk.set_bloom sidecars d1 in
  match err with
  | Some e => (d2, inr e)
  | None => (d2, inl {| Path := path; Bloom := Some bf |})
  end.

(** The linear scan of [Get]; [None] is fuel exhausted
    ([get_loop_fuel]). *)
Fixpoint get_loop (fuel : nat) (target input : string)
    : option (string * bool * option error) :=
  match fuel with
  | O => None
  | S fuel' =>
      match Wire.read_entry input with
      | Wire.AtEOF => Some (EmptyString, false, None)
      | Wire.Failed e => Some (EmptyString, false, Some e)
      | Wire.Got (k, v) rest =>
          if String.eqb k target then Some (v, true, None)
          else get_loop fuel' target rest
      end
  end.

Definition Get (key : string) (s : t) (d : Disk.t) : string * bool * option error :=
  match Disk.sst d !! Path s with
  | None => (EmptyString, false, Some ErrNotExist)
  | Some input =>
      default (EmptyString, false, None)
        (get_loop (S (String.length input)) key input)
  end.

Fixpoint range_loop (fuel : nat) (sKey eKey input : string)
    (result : gmap string string) : option (gmap string string * option error) :=
  match fuel with
  | O => None
  | S fuel' =>
      match Wire.read_entry input with
      | Wire.AtEOF => Some (result, None)
      | Wire.Failed e => Some (∅, Some e)
      | Wire.Got (k, v) rest =>
          if String.ltb k sKey then range_loop fuel' sKey eKey rest result
          else if String.ltb eKey k then Some (result, None)
          else range_loop fuel' sKey eKey rest (<[k := v]> result)
      end
  end.

Definition Range (start end_ : string) (s : t) (d : Disk.t)
    : gmap string string * option error :=
  match Disk.sst d !! Path s with
  | None => (∅, Some ErrNotExist)
  | Some input =>
      default (∅, None)
        (range_loop (S (String.length input)) start end_ input ∅)
  end.

End SSTable.

(** ** Configuration (config.go) *)

Module Config.

Record t : Type := mk {
  HTTPPort : string;
  DataDir : string;
  MemTableFlushSize : Z;
  MaxSSTablesBeforeComp : Z
}.

(** What [Load] returns when no [LOGBASE_*] variable is set. *)
Definition defaults : t :=
  {| HTTPPort := "8080"; DataDir := "data";
     MemTableFlushSize := 1024 * 1024; MaxSSTablesBeforeComp := 4 |}.

End Config.

(** ** Engine (engine.go, and [compactAll] of sstable.go) *)

Module Engine.

(** The package-level variables [MemTableFlushThreshold] and
    [maxSSTables]; both are 0 until [NewEngineWithConfig] assigns them. *)
Record globals : Type := mkGlobals {
  MemTableFlushThreshold : Z;
  maxSSTables : Z
}.

(** [const MaxSSTables = 4] *)
Definition MaxSSTables : Z := 4.

(** [type Engine struct { wal; memtable; sstables; dataDir; nextTable }];
    [dataDir] is the disk the operations are run on. *)
Record t : Type := mk {
  wal : WAL.t;
  memtable : MemTable.t;
  sstables : list SSTable.t;
  nextTable : Z
}.

(** What an operation can read and change: the package variables, the
    data directory and the engine value itself. *)
Record world : Type := mkWorld {
  vars : globals;
  disk : Disk.t;
  eng : t
}.

Definition set_disk (d : Disk.t) (w : world) : world :=
  {| vars := vars w; disk := d; eng := eng w |}.
Definition set_eng (e : t) (w : world) : world :=
  {| vars := vars w; disk := disk w; eng := e |}.
Definition set_memtable (m : MemTable.t) (e : t) : t :=
  {| wal := wal e; memtable := m; sstables := sstables e; nextTable := nextTable e |}.
Definition set_wal (l : WAL.t) (e : t) : t :=
  {| wal := l; memtable := memtable e; sstables := sstables e; nextTable := nextTable e |}.
Definition set_sstables (ts : list SSTable.t) (e : t) : t :=
  {| wal := wal e; memtable := memtable e; sstables := ts; nextTable := nextTable e |}.
Definition set_vars (g : globals) (w : world) : world :=
  {| vars := g; disk := disk w; eng := eng w |}.

(** The first loop of [compactAll]: newest to oldest, a key is taken
    from the first table that has it. *)
Fixpoint merge_tables (newest_first : list SSTable.t) (d : Disk.t)
    (merged : gmap string string) : gmap string string * option error :=
  match newest_first with
  | [] => (merged, None)
  | table :: older =>
      match SSTable.Range EmptyString (String (byte_chr 255) EmptyString) table d with
      | (_, Some err) => (∅, Some err)
      | (data, None) => merge_tables older d (merged ∪ data)
      end
  end.

(** [if len(v) == 0 { delete(m, k) }] over a map. *)
Definition strip_tombstones (m : gmap string string) : gmap string string :=
  filter (fun kv => len (snd kv) ≠ 0) m.

Definition compactAll (w : world) : world * option error :=
  let e := eng w in
  match merge_tables (rev (sstables e)) (disk w) ∅ with
  | (_, Some err) => (w, Some err)
  | (merged, None) =>
      match SSTable.WriteSSTable (SstCompacted (nextTable e)) (strip_tombstones merged) (disk w) with
      | (d1, inr err) => (set_disk d1 w, Some err)
      | (d1, inl table) =>
          let d2 :=
            fold_left
              (fun d old => Disk.set_sst (delete (SSTable.Path old) (Disk.sst d)) d)
              (sstables e) d1 in
          ({| vars := vars w; disk := d2;
              eng := {| wal := wal e; memtable := memtable e;
                        sstables := [table];
                        nextTable := int64 (nextTable e + 1) |} |},
           None)
      end
  end.

Definition maybeCompact (w : world) : world * option error :=
  if Z.of_nat (length (sstables (eng w))) <? MaxSSTables then (w, None)
  else compactAll w.

(** [e.wal.Rotate()] then [e.wal.Truncate(e.wal.segment - 1)], the two
    WAL steps of [flushMemTable]. *)
Definition rotate_and_truncate (l : WAL.t) (files : gmap Z string)
    : WAL.t * gmap Z string * option error :=
  match WAL.Rotate l files with
  | (l1, files1, Some err) => (l1, files1, Some err)
  | (l1, files1, None) =>
      (l1, fst (WAL.Truncate (int64 (WAL.segment l1 - 1)) files1), None)
  end.

Definition flushMemTable (w : world) : world * option error :=
  let e := eng w in
  let snapshot := MemTable.Snapshot (memtable e) in
  if decide (size snapshot = 0%nat) then (w, None)
  else
    match SSTable.WriteSSTable (SstFlushed (nextTable e)) snapshot (disk w) with
    | (d1, inr err) => (set_disk d1 w, Some err)
    | (d1, inl table) =>
        let e1 := {| wal := wal e; memtable := MemTable.NewMemTable;
                     sstables := sstables e ++ [table];
                     nextTable := int64 (nextTable e + 1) |} in
        match rotate_and_truncate (wal e1) (Disk.wal d1) with
        | (l1, files1, Some err) =>
            ({| vars := vars w; disk := Disk.set_wal files1 d1;
                eng := set_wal l1 e1 |}, Some err)
        | (l1, files1, None) =>
            maybeCompact {| vars := vars w; disk := Disk.set_wal files1 d1;
                            eng := set_wal l1 e1 |}
        end
    end.

Definition flush_if_needed (w : world) : world * option error :=
  if MemTableFlushThreshold (vars w) <=? MemTable.Size (memtable (eng w))
  then flushMemTable w
  else (w, None).

Definition Put (key value : string) (w : world) : world * option error :=
  match WAL.AppendPut key value (wal (eng w)) (Disk.wal (disk w)) with
  | (_, Some err) => (w, Some err)
  | (files, None) =>
      flush_if_needed
        {| vars := vars w; disk := Disk.set_wal files (disk w);
           eng := set_memtable (MemTable.Put key value (memtable (eng w))) (eng w) |}
  end.

Definition Delete (key : string) (w : world) : world * option error :=
  match WAL.AppendDelete key (wal (eng w)) (Disk.wal (disk w)) with
  | (_, Some err) => (w, Some err)
  | (files, None) =>
      flush_if_needed
        {| vars := vars w; disk := Disk.set_wal files (disk w);
           eng := set_memtable (MemTable.Delete key (memtable (eng w))) (eng w) |}
  end.

(** The loop of [Get] over the tables, newest first.  [None] is the
    panic of [MightContain] on a filter without bits. *)
Fixpoint get_tables (key : string) (d : Disk.t) (newest_first : list SSTable.t)
    : option (string * bool) :=
  match newest_first with
  | [] => Some (EmptyString, false)
  | table :: older =>
      match
        match SSTable.Bloom table with
        | None => Some true
        | Some bf => BloomFilter.MightContain key bf
        end
      with
      | None => None
      | Some false => get_tables key d older
      | Some true =>
          match SSTable.Get key table d with
          | (val, true, _) => Some (val, true)
          | (_, false, _) => get_tables key d older
          end
      end
  end.

(** [table.Bloom] is nil or answers without a panic. *)
Definition filter_defined (key : string) (table : SSTable.t) : Prop :=
  ∀ bf, SSTable.Bloom table = Some bf → is_Some (BloomFilter.MightContain key bf).

Definition Get (key : string) (w : world) : option (string * bool) :=
  match MemTable.Get key (memtable (eng w)) with
  | (val, true) => Some (val, true)
  | (_, false) => get_tables key (disk w) (rev (sstables (eng w)))
  end.

(** The second loop of [ReadKeyRange]. *)
Fixpoint range_tables (start end_ : string) (d : Disk.t)
    (newest_first : list SSTable.t) (result : gmap string string)
    : gmap string string * option error :=
  match newest_first with
  | [] => (result, None)
  | table :: older =>
      match SSTable.Range start end_ table d with
      | (_, Some err) => (∅, Some err)
      | (data, None) => range_tables start end_ d older (result ∪ data)
      end
  end.

Definition ReadKeyRange (start end_ : string) (w : world)
    : gmap string string * option error :=
  match
    range_tables start end_ (disk w) (rev (sstables (eng w)))
      (MemTable.Range start end_ (memtable (eng w)))
  with
  | (_, Some err) => (∅, Some err)
  | (result, None) => (strip_tombstones result, None)
  end.

(** [fmt.Sprintf("%s/sst_%06d.dat", ...)] of [flushMemTable] and
    [fmt.Sprintf("%s/sst_compacted_%06d.dat", ...)] of [compactAll],
    without the directory. *)
Definition file_name (p : SstPath) : string :=
  match p with
  | SstFlushed n => "sst_" +:+ Names.Sprintf_06d n +:+ ".dat"
  | SstCompacted n => "sst_compacted_" +:+ Names.Sprintf_06d n +:+ ".dat"
  end.

(** [filepath.Glob("sst_*.dat")] then [sort.Strings]: the paths share
    the directory, so they are ordered as their file names are, byte by
    byte. *)
Definition path_le (p q : SstPath) : bool := String.leb (file_name p) (file_name q).

Definition glob_sorted (d : Disk.t) : list SstPath :=
  merge_sort (fun p q => Is_true (path_le p q)) (List.map fst (map_to_list (Disk.sst d))).

(** [bf, _ := LoadBloomFilter(f + ".bloom")]: the error is dropped and
    the pointer kept. *)
Definition load_table (d : Disk.t) (e : t) (f : SstPath) : t :=
  let table := {| SSTable.Path := f;
                  SSTable.Bloom := fst (BloomFilter.LoadBloomFilter f (Disk.bloom d)) |} in
  {| wal := wal e; memtable := memtable e;
     sstables := sstables e ++ [table];
     nextTable := int64 (nextTable e + 1) |}.

Definition loadSSTables (d : Disk.t) (e : t) : t :=
  fold_left (load_table d) (glob_sorted d) e.

(** [memtable.Put] for a PUT record, [memtable.Delete] for any other. *)
Definition apply_record (m : MemTable.t) (r : WAL.WALRecord) : MemTable.t :=
  if WAL.Type_ r =? WAL.PutRecord
  then MemTable.Put (WAL.Key r) (WAL.Value r) m
  else MemTable.Delete (WAL.Key r) m.

(** [NewEngine]: the files it creates stay on disk when it fails. *)
Definition NewEngine (d : Disk.t) : Disk.t * (t + error) :=
  match WAL.OpenWAL (Disk.wal d) with
  | (_, files, Some err) => (Disk.set_wal files d, inr err)
  | (l, files, None) =>
      let d1 := Disk.set_wal files d in
      let e0 := {| wal := l; memtable := MemTable.NewMemTable; sstables := []; nextTable := 0 |} in
      let e1 := loadSSTables d1 e0 in
      match WAL.Replay l files with
      | (_, Some err) => (d1, inr err)
      | (records, None) =>
          (d1, inl (set_memtable (fold_left apply_record records (memtable e1)) e1))
      end
  end.

Definition NewEngineWithConfig (cfg : Config.t) (d : Disk.t) : option world * Disk.t * option error :=
  let g := {| MemTableFlushThreshold := Config.MemTableFlushSize cfg;
              maxSSTables := Config.MaxSSTablesBeforeComp cfg |} in
  match NewEngine d with
  | (d1, inl e) => (Some {| vars := g; disk := d1; eng := e |}, d1, None)
  | (d1, inr err) => (None, d1, Some err)
  end.

(** What is left of a world when the process dies without [Close]: the
    data directory. *)
Definition crash (w : world) : Disk.t := disk w.

(** The world after a start that returned no error. *)
Definition start (cfg : Config.t) (d : Disk.t) : option world :=
  fst (fst (NewEngineWithConfig cfg d)).

(** A new process over the directory a dead one left behind. *)
Definition reopen (cfg : Config.t) (w : world) : option world :=
  start cfg (crash w).

End Engine.

(** ** The key handler of the HTTP front end (cmd/server/main.go) *)

Module Server.

Inductive body : Type :=
  | Text (s : string)
  | ErrorText (e : error).   (* err.Error() *)

Record response : Type := mkResponse { status : Z; payload : body }.

(** [kvHandler(engine)] on a request for [/kv/<key>]; [None] is a panic
    of the handler. *)
Definition kvHandler (method key reqBody : string) (w : Engine.world)
    : option (Engine.world * response) :=
  if String.eqb key EmptyString
  then Some (w, {| status := 400; payload := Text "missing key" |})
  else if String.eqb method "GET" then
    match Engine.Get key w with
    | None => None
    | Some (_, false) => Some (w, {| status := 404; payload := Text "404 page not found" |})
    | Some (val, true) => Some (w, {| status := 200; payload := Text val |})
    end
  else if String.eqb method "PUT" then
    match Engine.Put key reqBody w with
    | (w', Some err) => Some (w', {| status := 500; payload := ErrorText err |})
    | (w', None) => Some (w', {| status := 204; payload := Text EmptyString |})
    end
  else if String.eqb method "DELETE" then
    match Engine.Delete key w with
    | (w', Some err) => Some (w', {| status := 500; payload := ErrorText err |})
    | (w', None) => Some (w', {| status := 204; payload := Text EmptyString |})
    end
  else Some (w, {| status := 405; payload := Text "method not allowed" |}).

End Server.

(** ** Configurations and states used in the examples *)

Module Scenario.

(** Flush as soon as the memory table holds [flush] bytes; [compact] is
    the configured table count. *)
Definition config (flush compact : Z) : Config.t :=
  {| Config.HTTPPort := "8080"; Config.DataDir := "data";
     Config.MemTableFlushSize := flush; Config.MaxSSTablesBeforeComp := compact |}.

(** A directory with two tables for the key [k]: [sst_000000.dat] holds
    [k = old]; [sst_000001.dat] was cut short inside the value of its
    only entry. *)
Definition torn_disk : Disk.t :=
  {| Disk.wal := {[ 0 := EmptyString ]};
     Disk.sst := {[ SstFlushed 0 := SSTable.encode_entry "k" "old";
                    SstFlushed 1 := Wire.frame "k" +:+ Wire.put_u32 3 +:+ "ne" ]};
     Disk.bloom := ∅ |}.

Definition table0 : SSTable.t := {| SSTable.Path := SstFlushed 0; SSTable.Bloom := None |}.
Definition table1 : SSTable.t := {| SSTable.Path := SstFlushed 1; SSTable.Bloom := None |}.

(** The world [NewEngineWithConfig] builds over [torn_disk]. *)
Definition torn_world : Engine.world :=
  {| Engine.vars := {| Engine.MemTableFlushThreshold := 1024 * 1024;
                       Engine.maxSSTables := 4 |};
     Engine.disk := Disk.set_wal {[ 0 := EmptyString; 1 := EmptyString ]} torn_disk;
     Engine.eng := {| Engine.wal := {| WAL.segment := 1 |};
                      Engine.memtable := MemTable.NewMemTable;
                      Engine.sstables := [table0; table1];
                      Engine.nextTable := 2 |} |}.

End Scenario.

(** ** Vocabulary for the further properties *)

Module Layout.

(** A record or entry whose fields fit their frame: the type is one byte
    and the lengths fit the 32-bit prefixes. *)
Definition fits (b : string) : Prop := len b < 2 ^ 32.

Definition record_ok (r : WAL.WALRecord) : Prop :=
  0 <= WAL.Type_ r < 256 ∧ fits (WAL.Key r) ∧ fits (WAL.Value r).

(** The bytes of a segment that received the records [rs], in order. *)
Definition wal_bytes (rs : list WAL.WALRecord) : string :=
  fold_right
    (fun r rest => WAL.encode (WAL.Type_ r) (WAL.Key r) (WAL.Value r) +:+ rest)
    EmptyString rs.

(** The bytes of a table file holding the entries [es], in order. *)
Definition sst_bytes (es : list (string * string)) : string :=
  fold_right (fun e rest => SSTable.encode_entry (fst e) (snd e) +:+ rest)
    EmptyString es.

(** The entries [WriteSSTable] writes for the map [data], in file order. *)
Definition entries (data : gmap string string) : list (string * string) :=
  List.map (fun key => (key, default EmptyString (data !! key))) (SSTable.sorted_keys data).

(** Every key and value of the map fits its length prefix. *)
Definition data_ok (data : gmap string string) : Prop :=
  map_Forall (fun key value => fits key ∧ fits value) data.

(** What is left of a file after its first [n] bytes ([file.Seek]). *)
Definition skip (n : nat) (input : string) : string := snd (Wire.split_at n input).

End Layout.

(** ** Histories of engine calls *)

Module History.

(** A [Put] or [Delete] as a client issues it. *)
Definition call (w : Engine.world) (o : MemTable.op) : Engine.world :=
  match o with
  | MemTable.OpPut key value => fst (Engine.Put key value w)
  | MemTable.OpDelete key => fst (Engine.Delete key w)
  end.

Definition calls (ops : list MemTable.op) (w : Engine.world) : Engine.world :=
  fold_left call ops w.

(** The record [AppendPut] or [AppendDelete] writes for the call. *)
Definition record_of (o : MemTable.op) : WAL.WALRecord :=
  match o with
  | MemTable.OpPut key value =>
      {| WAL.Type_ := WAL.PutRecord; WAL.Key := key; WAL.Value := value |}
  | MemTable.OpDelete key =>
      {| WAL.Type_ := WAL.DeleteRecord; WAL.Key := key; WAL.Value := EmptyString |}
  end.

Definition op_ok (o : MemTable.op) : Prop := Layout.record_ok (record_of o).

Definition op_key (o : MemTable.op) : string := WAL.Key (record_of o).

(** The open segment holds exactly the records [rs], and the memory table
    is what applying them to an empty table gives. *)
Definition in_step (rs : list WAL.WALRecord) (w : Engine.world) : Prop :=
  Forall Layout.record_ok rs
  ∧ Disk.wal (Engine.disk w) !! WAL.segment (Engine.wal (Engine.eng w))
    = Some (Layout.wal_bytes rs)
  ∧ Engine.memtable (Engine.eng w)
    = fold_left Engine.apply_record rs MemTable.NewMemTable.

(** The world [NewEngineWithConfig] returns on an empty directory. *)
Definition fresh (cfg : Config.t) : Engine.world :=
  {| Engine.vars := {| Engine.MemTableFlushThreshold := Config.MemTableFlushSize cfg;
                       Engine.maxSSTables := Config.MaxSSTablesBeforeComp cfg |};
     Engine.disk := Disk.set_wal {[ 0 := EmptyString ]} Disk.empty;
     Engine.eng := {| Engine.wal := {| WAL.segment := 0 |};
                      Engine.memtable := MemTable.NewMemTable;
                      Engine.sstables := [];
                      Engine.nextTable := 0 |} |}.

End History.

(** ** A state with data in both tiers *)

Module Tiers.

(** [sst_000000.dat] holds [a = 1], [c = 3], [x = 9]; the memory table
    holds [b = 2] and an empty value for [c]. *)
Definition disk : Disk.t :=
  {| Disk.wal := {[ 1 := EmptyString ]};
     Disk.sst := {[ SstFlushed 0 :=
                      Layout.sst_bytes [("a", "1"); ("c", "3"); ("x", "9")]%string ]};
     Disk.bloom := ∅ |}.

Definition world : Engine.world :=
  {| Engine.vars := {| Engine.MemTableFlushThreshold := 1024 * 1024;
                       Engine.maxSSTables := 4 |};
     Engine.disk := disk;
     Engine.eng := {| Engine.wal := {| WAL.segment := 1 |};
                      Engine.memtable :=
                        MemTable.run [MemTable.OpPut "b" "2"; MemTable.OpPut "c" ""];
                      Engine.sstables := [Scenario.table0];
                      Engine.nextTable := 1 |} |}.

End Tiers.

(** ** Batch writes and shutdown (wal.go, engine.go)

    [AppendBatch] and [BatchPut] each run [for k, v := range entries]; the
    order in which a Go map is visited is chosen by the runtime, so both
    take the visiting order as a parameter, a listing of the entries of
    the map. *)

Module Batch.

Definition listing (entries : gmap string string) (order : list (string * string)) : Prop :=
  order ≡ₚ map_to_list entries.

(** [walPut], [uint32(len(k))], [k], [uint32(len(v))], [v] for each entry. *)
Definition batch_bytes (order : list (string * string)) : string :=
  fold_left (fun acc kv => acc +:+ WAL.encode WAL.PutRecord (fst kv) (snd kv))
    order EmptyString.

(** One [Flush] at the end. *)
Definition AppendBatch (order : list (string * string)) (l : WAL.t) (files : gmap Z string)
    : gmap Z string * option error :=
  (WAL.append (batch_bytes order) l files, None).

Definition put_all (order : list (string * string)) (m : MemTable.t) : MemTable.t :=
  fold_left (fun m kv => MemTable.Put (fst kv) (snd kv) m) order m.

Definition BatchPut (walOrder memOrder : list (string * string)) (w : Engine.world)
    : Engine.world * option error :=
  match AppendBatch walOrder (Engine.wal (Engine.eng w)) (Disk.wal (Engine.disk w)) with
  | (_, Some err) => (w, Some err)
  | (files, None) =>
      Engine.flush_if_needed
        {| Engine.vars := Engine.vars w;
           Engine.disk := Disk.set_wal files (Engine.disk w);
           Engine.eng :=
             Engine.set_memtable (put_all memOrder (Engine.memtable (Engine.eng w)))
               (Engine.eng w) |}
  end.

(** [Engine.Close]: the flush when [Size() > 0], then [e.wal.Close()],
    which flushes the writer and closes the file.  The boolean tells
    whether the WAL was closed. *)
Definition Close (w : Engine.world) : Engine.world * option error * bool :=
  match
    if 0 <? MemTable.Size (Engine.memtable (Engine.eng w))
    then Engine.flushMemTable w
    else (w, None)
  with
  | (w1, Some err) => (w1, Some err, false)
  | (w1, None) => (w1, None, true)
  end.

End Batch.

(** ** The sparse index (sstable.go, [LoadIndex])

    [LoadIndex] drops the errors of every read but the first of an
    iteration: a short key keeps the bytes that were there, zero-filled; a
    value length that cannot be read stays 0; [Discard] skips what is
    left when less is left. *)

Module SparseIndex.

(** [const IndexInterval = 128] *)
Definition IndexInterval : Z := 128.

(** [type IndexEntry struct { Key string; Offset int64 }] *)
Record IndexEntry : Type := mkEntry { Key : string; Offset : Z }.

Fixpoint zeros (n : nat) : string :=
  match n with
  | O => EmptyString
  | S n' => String (byte_chr 0) (zeros n')
  end.

(** [k := make([]byte, keyLen); io.ReadFull(reader, k)], error dropped. *)
Definition read_key (keyLen : Z) (input : string) : string * string :=
  if keyLen <=? 0 then (EmptyString, input)
  else if len input <? keyLen
       then (input +:+ zeros (Z.to_nat (keyLen - len input)), EmptyString)
       else Wire.split_at (Z.to_nat keyLen) input.

(** [var valLen uint32; binary.Read(reader, binary.BigEndian, &valLen)],
    error dropped. *)
Definition read_valLen (input : string) : Z * string :=
  match Wire.read_u32 input with
  | inl (valLen, rest) => (valLen, rest)
  | inr _ => (0, EmptyString)
  end.

(** [reader.Discard(int(valLen))] *)
Definition discard (n : Z) (input : string) : string :=
  snd (Wire.split_at (Z.to_nat n) input).

(** The loop of [LoadIndex]; [None] is fuel exhausted
    ([index_loop_fuel]). *)
Fixpoint index_loop (fuel : nat) (input : string) (offset count : Z)
    (index : list IndexEntry) : option (list IndexEntry) :=
  match fuel with
  | O => None
  | S fuel' =>
      match Wire.read_u32 input with
      | inr _ => Some index
      | inl (keyLen, r1) =>
          let (k, r2) := read_key keyLen r1 in
          let (valLen, r3) := read_valLen r2 in
          let r4 := discard valLen r3 in
          let index' :=
            if Z.rem count IndexInterval =? 0
            then index ++ [{| Key := k; Offset := offset |}]
            else index in
          index_loop fuel' r4 (int64 (offset + 4 + keyLen + 4 + valLen))
            (int64 (count + 1)) index'
      end
  end.

(** [LoadIndex] on a table whose [Index] is still nil: the index it
    builds and the error it returns. *)
Definition LoadIndex (s : SSTable.t) (d : Disk.t) : list IndexEntry * option error :=
  match Disk.sst d !! SSTable.Path s with
  | None => ([], Some ErrNotExist)
  | Some input =>
      (default [] (index_loop (S (String.length input)) input 0 0 []), None)
  end.

(** The entries of a file in positions [0, 128, 256, ...] counted from
    [count], with the byte offsets of their first bytes counted from
    [offset]. *)
Fixpoint sample (count offset : Z) (es : list (string * string)) : list IndexEntry :=
  match es with
  | [] => []
  | (k, v) :: es' =>
      (if Z.rem count IndexInterval =? 0 then [{| Key := k; Offset := offset |}] else [])
      ++ sample (count + 1) (offset + 4 + len k + 4 + len v) es'
  end.

(** A table file of 130 entries with one-byte keys in ascending order. *)
Definition numbered : list (string * string) :=
  List.map (fun n => (String (byte_chr (Z.of_nat n)) EmptyString, "v"%string))
    (seq 0 130).

Definition numbered_disk : Disk.t :=
  Disk.set_sst {[ SstFlushed 0 := Layout.sst_bytes numbered ]} Disk.empty.

End SparseIndex.

(** ** The environment (config.go) *)

Module Environment.

(** The process environment, as [os.LookupEnv] sees it. *)
Definition t : Type := gmap string string.

Definition getEnv (env : t) (key defaultVal : string) : string :=
  match env !! key with
  | Some val => val
  | None => defaultVal
  end.

Definition getEnvAsInt (env : t) (key : string) (defaultVal : Z) : Z :=
  match env !! key with
  | Some val =>
      match Names.Atoi val with
      | Some parsed => parsed
      | None => defaultVal
      end
  | None => defaultVal
  end.

Definition Load (env : t) : Config.t :=
  {| Config.HTTPPort := getEnv env "LOGBASE_HTTP_PORT" "8080";
     Config.DataDir := getEnv env "LOGBASE_DATA_DIR" "data";
     Config.MemTableFlushSize := getEnvAsInt env "LOGBASE_MEMTABLE_FLUSH_BYTES" (1024 * 1024);
     Config.MaxSSTablesBeforeComp := getEnvAsInt env "LOGBASE_MAX_SSTABLES" 4 |}.

End Environment.

(** * Properties *)

(** ** Membership filter *)

Section bloom_facts.
Import BloomFilter.

Lemma mask_pow2 (b : Z) : 0 <= b < 8 → mask b = 2 ^ b.
Proof.
  intros Hb. unfold mask, uint8.
  assert (Hc : b = 0 ∨ b = 1 ∨ b = 2 ∨ b = 3 ∨ b = 4 ∨ b = 5 ∨ b = 6 ∨ b = 7) by lia.
  destruct Hc as [->|[->|[->|[->|[->|[->|[->| ->]]]]]]]; reflexivity.
Qed.

Lemma land_pow2_testbit (x b : Z) :
  0 <= b → (Z.land x (2 ^ b) =? 0) = negb (Z.testbit x b).
Proof.
  intros Hb. destruct (Z.testbit x b) eqn:Hx; simpl.
  - apply Z.eqb_neq. intros H0.
    assert (Z.testbit (Z.land x (2 ^ b)) b = false) as Hf
      by (rewrite H0; apply Z.bits_0).
    rewrite Z.land_spec, Hx, Z.pow2_bits_true in Hf by lia. discriminate.
  - apply Z.eqb_eq. apply Z.bits_inj'. intros n Hn.
    rewrite Z.land_spec, Z.bits_0, Z.pow2_bits_eqb by lia.
    destruct (Z.eqb_spec b n) as [->|]; [by rewrite Hx | apply andb_false_r].
Qed.

Lemma probe_range (n : nat) (key : string) (i : nat) (p : nat * Z) :
  probe n key i = Some p → (fst p < n)%nat ∧ 0 <= snd p < 8.
Proof.
  unfold probe, uint64. destruct (Z.eqb_spec ((Z.of_nat n * 8) mod 2 ^ 64) 0) as [|Hm];
    [discriminate|].
  intros [= <-]. simpl.
  set (m := (Z.of_nat n * 8) mod 2 ^ 64) in *.
  assert (0 < m <= Z.of_nat n * 8) as Hm'.
  { split.
    - pose proof (Z.mod_pos_bound (Z.of_nat n * 8) (2 ^ 64)). lia.
    - apply Z.mod_le; lia. }
  pose proof (Z.mod_pos_bound (hash key (Z.of_nat i)) m) as Hidx.
  set (idx := hash key (Z.of_nat i) mod m) in *.
  split; [|apply Z.mod_pos_bound; lia].
  assert (0 <= idx / 8 < Z.of_nat n); [|lia].
  split; [apply Z.div_pos; lia | apply Z.div_lt_upper_bound; lia].
Qed.

Lemma probe_defined (n : nat) (key : string) (i : nat) :
  uint64 (Z.of_nat n * 8) ≠ 0 → is_Some (probe n key i).
Proof.
  intros Hm. unfold probe. destruct (Z.eqb_spec (uint64 (Z.of_nat n * 8)) 0); [done|eauto].
Qed.

Lemma bit_on_set (bs : list Z) (byteIdx : nat) (bitIdx x : Z) :
  bs !! byteIdx = Some x → 0 <= bitIdx < 8 →
  bit_on (<[byteIdx := Z.lor x (mask bitIdx)]> bs) (byteIdx, bitIdx).
Proof.
  intros Hx Hb. exists (Z.lor x (mask bitIdx)). simpl. split.
  - apply list_lookup_insert_eq. by eapply lookup_lt_Some.
  - rewrite Z.lor_spec, mask_pow2, Z.pow2_bits_true by lia. apply orb_true_r.
Qed.

Lemma bit_on_keep (bs : list Z) (byteIdx : nat) (y : Z) (q : nat * Z) :
  (∀ x, bs !! byteIdx = Some x → ∃ m, y = Z.lor x m) →
  bit_on bs q → bit_on (<[byteIdx := y]> bs) q.
Proof.
  intros Hy [x [Hx Hbit]]. destruct (decide (byteIdx = fst q)) as [->|Hne].
  - destruct (Hy x Hx) as [m ->]. exists (Z.lor x m). split.
    + apply list_lookup_insert_eq. by eapply lookup_lt_Some.
    + by rewrite Z.lor_spec, Hbit.
  - exists x. split; [|done]. by rewrite list_lookup_insert_ne.
Qed.

Lemma add_loop_spec (key : string) (rs : list nat) :
  ∀ bs bs', add_loop key rs bs = Some bs' →
    length bs' = length bs
    ∧ (∀ q, bit_on bs q → bit_on bs' q)
    ∧ (∀ i, i ∈ rs → ∃ p, probe (length bs) key i = Some p ∧ bit_on bs' p).
Proof.
  induction rs as [|i rs IH]; intros bs bs'; simpl.
  - intros [= <-]. split; [done|]. split; [done|]. intros i Hi. by apply elem_of_nil in Hi.
  - destruct (probe (length bs) key i) as [[byteIdx bitIdx]|] eqn:Hp; [|discriminate].
    destruct (bs !! byteIdx) as [x|] eqn:Hx; [|discriminate].
    intros Hloop. apply IH in Hloop as (Hlen & Hkeep & Hset).
    rewrite length_insert in Hlen, Hset.
    apply probe_range in Hp as Hr. simpl in Hr.
    assert (∀ q, bit_on bs q → bit_on (<[byteIdx:=Z.lor x (mask bitIdx)]> bs) q) as Hstep.
    { intros q. apply bit_on_keep. intros x' Hx'. exists (mask bitIdx). congruence. }
    split; [done|]. split; [auto|].
    intros j [->|Hj]%elem_of_cons; [|auto].
    exists (byteIdx, bitIdx). split; [done|].
    apply Hkeep, bit_on_set; [done|lia].
Qed.

Lemma might_loop_true (key : string) (bs : list Z) (rs : list nat) :
  might_loop key rs bs = Some true
  ↔ ∀ i, i ∈ rs → ∃ p, probe (length bs) key i = Some p ∧ bit_on bs p.
Proof.
  induction rs as [|i rs IH]; simpl.
  - split; [|done]. intros _ i Hi. by apply elem_of_nil in Hi.
  - destruct (probe (length bs) key i) as [[byteIdx bitIdx]|] eqn:Hp.
    2:{ split; [discriminate|]. intros H. destruct (H i) as [p [? _]]; [left|congruence]. }
    apply probe_range in Hp as Hr. simpl in Hr.
    destruct (bs !! byteIdx) as [x|] eqn:Hx.
    2:{ split; [discriminate|]. intros H. destruct (H i) as [p [Hp' [y [Hy _]]]]; [left|].
        rewrite Hp in Hp'. injection Hp' as <-. simpl in Hy. congruence. }
    rewrite mask_pow2, land_pow2_testbit by lia.
    destruct (Z.testbit x bitIdx) eqn:Hbit; simpl.
    + rewrite IH. split.
      * intros H j [->|Hj]%elem_of_cons; [|auto].
        exists (byteIdx, bitIdx). split; [done|]. by exists x.
      * intros H j Hj. apply H. by right.
    + split; [discriminate|]. intros H.
      destruct (H i) as [p [Hp' [y [Hy Hy']]]]; [left|].
      rewrite Hp in Hp'. injection Hp' as <-. simpl in *. congruence.
Qed.

Lemma BloomFilter_Add_rounds (key : string) (b b' : t) :
  Add key b = Some b' → rounds b' = rounds b.
Proof.
  unfold Add. destruct (add_loop key (rounds b) (bits b)); [|discriminate].
  by intros [= <-].
Qed.

(** A key answers true right after it was added. *)
Lemma BloomFilter_Add_MightContain (key : string) (b b' : t) :
  Add key b = Some b' → MightContain key b' = Some true.
Proof.
  intros HA. pose proof (BloomFilter_Add_rounds _ _ _ HA) as Hr. revert HA.
  unfold Add, MightContain. rewrite Hr.
  destruct (add_loop key (rounds b) (bits b)) as [bs|] eqn:Hl; [|discriminate].
  intros [= <-]. simpl. apply add_loop_spec in Hl as (Hlen & _ & Hset).
  apply might_loop_true. intros i Hi. rewrite Hlen. auto.
Qed.

(** A later [Add] never clears a bit. *)
Lemma BloomFilter_Add_keeps_MightContain (key key' : string) (b b' : t) :
  MightContain key b = Some true → Add key' b = Some b' →
  MightContain key b' = Some true.
Proof.
  intros HM HA. pose proof (BloomFilter_Add_rounds _ _ _ HA) as Hr. revert HA HM.
  unfold Add, MightContain. rewrite Hr.
  destruct (add_loop key' (rounds b) (bits b)) as [bs|] eqn:Hl; [|discriminate].
  intros [= <-]. simpl. apply add_loop_spec in Hl as (Hlen & Hkeep & _).
  rewrite !might_loop_true. intros H i Hi. rewrite Hlen.
  destruct (H i Hi) as [p [? ?]]. eauto.
Qed.

(** [Add] does not panic on a filter whose bit count is not 0. *)
Lemma BloomFilter_Add_defined (key : string) (b : t) :
  uint64 (Z.of_nat (length (bits b)) * 8) ≠ 0 → is_Some (Add key b).
Proof.
  intros Hm. unfold Add.
  enough (∀ rs bs, length bs = length (bits b) → is_Some (add_loop key rs bs)) as H.
  { destruct (H (rounds b) (bits b) eq_refl) as [bs ->]. eauto. }
  induction rs as [|i rs IH]; intros bs Hlen; simpl; [eauto|].
  rewrite Hlen. destruct (probe_defined (length (bits b)) key i Hm) as [[byteIdx bitIdx] Hp].
  rewrite Hp. apply probe_range in Hp as [Hlt _]. simpl in Hlt.
  destruct (lookup_lt_is_Some_2 bs byteIdx) as [x ->]; [lia|].
  apply IH. by rewrite length_insert.
Qed.

Lemma BloomFilter_Add_length (key : string) (b b' : t) :
  Add key b = Some b' → length (bits b') = length (bits b).
Proof.
  unfold Add. destruct (add_loop key (rounds b) (bits b)) as [bs|] eqn:Hl; [|discriminate].
  intros [= <-]. simpl. by apply add_loop_spec in Hl as (Hlen & _).
Qed.

(** So does a sequence of them. *)
Lemma BloomFilter_AddAll_defined (keys : list string) (b : t) :
  uint64 (Z.of_nat (length (bits b)) * 8) ≠ 0 → is_Some (AddAll keys b).
Proof.
  revert b. induction keys as [|key keys IH]; intros b Hm; simpl; [eauto|].
  destruct (BloomFilter_Add_defined key b Hm) as [b' HA]. rewrite HA.
  apply IH. by rewrite (BloomFilter_Add_length _ _ _ HA).
Qed.

End bloom_facts.



(** ** Decoding loops terminate *)

Section wire_facts.
Import Wire.

Lemma split_at_length (n : nat) (input a rest : string) :
  split_at n input = (a, rest) →
  String.length input = (String.length a + String.length rest)%nat.
Proof.
  revert input a rest. induction n as [|n IH]; intros [|c input] a rest; simpl;
    try (intros [= <- <-]; reflexivity).
  destruct (split_at n input) as [a' b'] eqn:Hs. intros [= <- <-]. simpl.
  by rewrite (IH _ _ _ Hs).
Qed.

Lemma split_at_prefix (n : nat) (input a rest : string) :
  split_at n input = (a, rest) → (n <= String.length input)%nat →
  String.length a = n.
Proof.
  revert input a rest. induction n as [|n IH]; intros [|c input] a rest; simpl;
    try (intros [= <- <-]; simpl; lia).
  destruct (split_at n input) as [a' b'] eqn:Hs. intros [= <- <-] Hle. simpl.
  rewrite (IH _ _ _ Hs); lia.
Qed.

Lemma ReadFull_length (n : Z) (input a rest : string) :
  ReadFull n input = inl (a, rest) →
  len input = len a + len rest ∧ len a = Z.max 0 n.
Proof.
  unfold ReadFull, len.
  destruct (Z.leb_spec n 0); [intros [= <- <-]; simpl; lia|].
  destruct (Z.eqb_spec (Z.of_nat (String.length input)) 0); [discriminate|].
  destruct (Z.ltb_spec (Z.of_nat (String.length input)) n); [discriminate|].
  intros [= Hs]. pose proof (split_at_length _ _ _ _ Hs).
  pose proof (split_at_prefix _ _ _ _ Hs). lia.
Qed.

Lemma read_u32_length (input rest : string) (z : Z) :
  read_u32 input = inl (z, rest) → len input = 4 + len rest.
Proof.
  unfold read_u32. destruct (ReadFull 4 input) as [[a r]|] eqn:Hr; [|discriminate].
  intros [= <- <-]. apply ReadFull_length in Hr. lia.
Qed.

Lemma read_u8_length (input rest : string) (z : Z) :
  read_u8 input = inl (z, rest) → len input = 1 + len rest.
Proof.
  unfold read_u8. destruct (ReadFull 1 input) as [[a r]|] eqn:Hr; [|discriminate].
  intros [= <- <-]. apply ReadFull_length in Hr. lia.
Qed.

Lemma read_body_length (keyLen : Z) (input rest : string) (kv : string * string) :
  read_body keyLen input = Got kv rest → len rest + 4 <= len input.
Proof.
  unfold read_body.
  destruct (ReadFull keyLen input) as [[k r1]|] eqn:H1; [|discriminate].
  destruct (read_u32 r1) as [[valLen r2]|] eqn:H2; [|discriminate].
  destruct (ReadFull valLen r2) as [[v r3]|] eqn:H3; [|discriminate].
  intros [= <- <-].
  apply ReadFull_length in H1, H3. apply read_u32_length in H2. lia.
Qed.

Lemma read_entry_length (input rest : string) (kv : string * string) :
  read_entry input = Got kv rest → len rest + 8 <= len input.
Proof.
  unfold read_entry. destruct (read_u32 input) as [[keyLen r]|e] eqn:H1.
  - intros H2%read_body_length. apply read_u32_length in H1. lia.
  - by destruct e.
Qed.

End wire_facts.

Lemma read_record_length (input rest : string) (r : WAL.WALRecord) :
  WAL.read_record input = Wire.Got r rest → len rest + 9 <= len input.
Proof.
  unfold WAL.read_record. destruct (Wire.read_u8 input) as [[rt r0]|e] eqn:H0.
  - destruct (Wire.read_u32 r0) as [[keyLen r1]|] eqn:H1; [|discriminate].
    destruct (Wire.read_body keyLen r1) as [| |[k v] rest'] eqn:H2; try discriminate.
    intros [= <- <-]. apply read_u8_length in H0. apply read_u32_length in H1.
    apply read_body_length in H2. lia.
  - by destruct e.
Qed.

(** With more fuel than bytes the three loops return. *)
Lemma replay_loop_fuel (fuel : nat) (input : string) (records : list WAL.WALRecord) :
  (String.length input < fuel)%nat → is_Some (WAL.replay_loop fuel input records).
Proof.
  revert input records. induction fuel as [|fuel IH]; intros input records Hlt; [lia|].
  simpl. destruct (WAL.read_record input) as [| |r rest] eqn:Hr; [eauto..|].
  apply IH. apply read_record_length in Hr. unfold len in Hr. lia.
Qed.

Lemma get_loop_fuel (fuel : nat) (target input : string) :
  (String.length input < fuel)%nat → is_Some (SSTable.get_loop fuel target input).
Proof.
  revert input. induction fuel as [|fuel IH]; intros input Hlt; [lia|].
  simpl. destruct (Wire.read_entry input) as [| |[k v] rest] eqn:Hr; [eauto..|].
  destruct (String.eqb k target); [eauto|].
  apply IH. apply read_entry_length in Hr. unfold len in Hr. lia.
Qed.

Lemma range_loop_fuel (fuel : nat) (sKey eKey input : string) (result : gmap string string) :
  (String.length input < fuel)%nat →
  is_Some (SSTable.range_loop fuel sKey eKey input result).
Proof.
  revert input result. induction fuel as [|fuel IH]; intros input result Hlt; [lia|].
  simpl. destruct (Wire.read_entry input) as [| |[k v] rest] eqn:Hr; [eauto..|].
  apply read_entry_length in Hr. unfold len in Hr.
  destruct (String.ltb k sKey); [apply IH; lia|].
  destruct (String.ltb eKey k); [eauto|apply IH; lia].
Qed.

(** [WriteSSTable] adds its keys to a filter of 1024 bytes, on which [Add]
    does not panic. *)
Lemma add_key_defined (keys : list string) (key : string) :
  is_Some (BloomFilter.Add key (fold_left SSTable.add_key keys SSTable.newFilter)).
Proof.
  apply BloomFilter_Add_defined.
  enough (length (BloomFilter.bits (fold_left SSTable.add_key keys SSTable.newFilter))
          = 1024%nat) as -> by (by vm_compute).
  assert (length (BloomFilter.bits SSTable.newFilter) = 1024%nat) as H0 by (by vm_compute).
  revert H0. generalize SSTable.newFilter.
  induction keys as [|key0 keys IH]; intros bf Hbf; simpl; [done|].
  apply IH. unfold SSTable.add_key.
  destruct (BloomFilter.Add key0 bf) as [bf'|] eqn:HA; [|done].
  simpl. by rewrite (BloomFilter_Add_length _ _ _ HA).
Qed.
Section engine_facts.
Import Engine.

Lemma int64_small (z : Z) : - 2 ^ 63 <= z < 2 ^ 63 → int64 z = z.
Proof. intros H. unfold int64. rewrite Z.mod_small; lia. Qed.

(** ** Memory table *)

(** [Delete] leaves no entry behind, not even an empty one: the next
    lookup in the table is a miss. *)
Lemma MemTable_Delete_then_Get (key : string) (m : MemTable.t) :
  MemTable.Get key (MemTable.Delete key m) = (EmptyString, false).
Proof.
  unfold MemTable.Get, MemTable.Delete.
  destruct (MemTable.data m !! key) as [old|] eqn:Hk; simpl.
  - by rewrite lookup_delete_eq.
  - by rewrite Hk.
Qed.

(** ** encoding/gob on the filter *)

Lemma Save_fails {P} `{Countable P} (path : P) (b : BloomFilter.t) (dir : gmap P Gob.stream) :
  BloomFilter.Save path b dir
  = (<[path := [Gob.TypeDef []]]> dir, Some ErrGobNoExportedFields).
Proof. reflexivity. Qed.

Lemma Decode_keeps_filter (s : Gob.stream) :
  fst (Gob.Decode s (BloomFilter.fields BloomFilter.zero))
  = BloomFilter.fields BloomFilter.zero.
Proof.
  unfold Gob.Decode. generalize true.
  induction s as [|[names|wire] s IH]; intros firstMessage; simpl; [done|apply IH|].
  destruct wire; reflexivity.
Qed.

(** Whatever the sidecar holds, the filter [LoadBloomFilter] hands back is
    the zero value. *)
Lemma LoadBloomFilter_zero {P} `{Countable P} (path : P) (dir : gmap P Gob.stream) (bf : BloomFilter.t) :
  fst (BloomFilter.LoadBloomFilter path dir) = Some bf → bf = BloomFilter.zero.
Proof.
  unfold BloomFilter.LoadBloomFilter. destruct (dir !! path) as [s|]; [|discriminate].
  pose proof (Decode_keeps_filter s) as Hd.
  destruct (Gob.Decode s (BloomFilter.fields BloomFilter.zero)) as [fs err].
  simpl in *. subst fs. by intros [= <-].
Qed.

(** ** Sorted tables *)

Lemma WriteSSTable_fails (path : SstPath) (data : gmap string string) (d : Disk.t) :
  SSTable.WriteSSTable path data d
  = ({| Disk.wal := Disk.wal d;
        Disk.sst := <[path := SSTable.encode_all (SSTable.sorted_keys data) data]> (Disk.sst d);
        Disk.bloom := <[path := [Gob.TypeDef []]]> (Disk.bloom d) |},
     inr ErrGobNoExportedFields).
Proof. reflexivity. Qed.

Lemma get_loop_error (fuel : nat) (target input val : string) (ok : bool) (err : error) :
  SSTable.get_loop fuel target input = Some (val, ok, Some err) → ok = false.
Proof.
  revert input. induction fuel as [|fuel IH]; intros input; simpl; [discriminate|].
  destruct (Wire.read_entry input) as [| |[k v] rest]; try (by intros [= <- <- <-]).
  destruct (String.eqb k target); [by intros [=]|apply IH].
Qed.

(** A lookup that returns an error returns [ok = false] with it. *)
Lemma SSTable_Get_error (key : string) (s : SSTable.t) (d : Disk.t) (err : error) :
  snd (SSTable.Get key s d) = Some err → snd (fst (SSTable.Get key s d)) = false.
Proof.
  unfold SSTable.Get. destruct (Disk.sst d !! SSTable.Path s) as [input|]; [|done].
  destruct (get_loop_fuel (S (String.length input)) key input) as [[[val ok] e] Hl]; [lia|].
  rewrite Hl. simpl. intros ->. by apply get_loop_error in Hl.
Qed.

(** ** Engine: the flush never gets past [WriteSSTable] *)

(** [flushMemTable] returns either at the empty snapshot or at the error of
    [WriteSSTable]; the engine value, the package variables and the WAL
    directory are as before. *)
Lemma flushMemTable_stops (w : world) :
  eng (fst (flushMemTable w)) = eng w
  ∧ vars (fst (flushMemTable w)) = vars w
  ∧ Disk.wal (disk (fst (flushMemTable w))) = Disk.wal (disk w)
  ∧ (snd (flushMemTable w) = None ∨ snd (flushMemTable w) = Some ErrGobNoExportedFields).
Proof.
  unfold flushMemTable.
  destruct (decide (size (MemTable.Snapshot (memtable (eng w))) = 0%nat)); [simpl; tauto|].
  rewrite WriteSSTable_fails. simpl. tauto.
Qed.

Lemma flush_if_needed_stops (w : world) :
  eng (fst (flush_if_needed w)) = eng w
  ∧ vars (fst (flush_if_needed w)) = vars w
  ∧ Disk.wal (disk (fst (flush_if_needed w))) = Disk.wal (disk w).
Proof.
  unfold flush_if_needed.
  destruct (MemTableFlushThreshold (vars w) <=? MemTable.Size (memtable (eng w))); [|done].
  pose proof (flushMemTable_stops w). tauto.
Qed.

(** What [Put] does with any key: the record goes to the open segment and
    the pair into the memory table. *)
Lemma Put_effect (key value : string) (w : world) :
  Disk.wal (disk (fst (Put key value w)))
  = WAL.append (WAL.encode WAL.PutRecord key value) (wal (eng w)) (Disk.wal (disk w))
  ∧ memtable (eng (fst (Put key value w))) = MemTable.Put key value (memtable (eng w)).
Proof.
  unfold Put, WAL.AppendPut.
  match goal with |- context [flush_if_needed ?x] =>
    destruct (flush_if_needed_stops x) as (-> & _ & ->) end.
  done.
Qed.

Lemma Delete_effect (key : string) (w : world) :
  Disk.wal (disk (fst (Delete key w)))
  = WAL.append (WAL.encode WAL.DeleteRecord key EmptyString) (wal (eng w)) (Disk.wal (disk w))
  ∧ memtable (eng (fst (Delete key w))) = MemTable.Delete key (memtable (eng w)).
Proof.
  unfold Delete, WAL.AppendDelete.
  match goal with |- context [flush_if_needed ?x] =>
    destruct (flush_if_needed_stops x) as (-> & _ & ->) end.
  done.
Qed.

(** ** Write-ahead log: the segment opened at start is always new *)

Lemma fold_max_spec (ids : list Z) (acc : Z) :
  let m := fold_left (fun maxID id => if maxID <? id then id else maxID) ids acc in
  acc <= m ∧ (∀ id, id ∈ ids → id <= m) ∧ (m = acc ∨ m ∈ ids).
Proof.
  revert acc. induction ids as [|i ids IH]; intros acc; simpl.
  - split; [lia|]. split; [|by left]. intros id Hid. by apply elem_of_nil in Hid.
  - destruct (IH (if acc <? i then i else acc)) as (Hle & Hall & Hin).
    destruct (Z.ltb_spec acc i).
    + split; [lia|]. split.
      * intros id [->|Hid]%elem_of_cons; [lia|auto].
      * right. destruct Hin as [->|Hin]; [left|by right].
    + split; [lia|]. split.
      * intros id [->|Hid]%elem_of_cons; [lia|auto].
      * destruct Hin as [->|Hin]; [by left|right; by right].
Qed.

Lemma nextSegmentID_fresh (files : gmap Z string) :
  (∀ id, is_Some (files !! id) → id < 2 ^ 63 - 1) →
  files !! WAL.nextSegmentID files = None.
Proof.
  intros Hsmall. unfold WAL.nextSegmentID.
  destruct (List.map fst (map_to_list files)) as [|i ids] eqn:Hids.
  - apply map_eq_nil in Hids. apply map_to_list_empty_iff in Hids. subst.
    apply lookup_empty.
  - assert (∀ id, is_Some (files !! id) ↔ id ∈ i :: ids) as Hkeys.
    { intros id. rewrite <- Hids, list_elem_of_fmap. split.
      - intros [c Hc]. exists (id, c). split; [done|]. by apply elem_of_map_to_list.
      - intros [[id' c] [-> Hc]]. exists c. by apply elem_of_map_to_list. }
    destruct (fold_max_spec (i :: ids) 0) as (H0 & Hall & Hin).
    set (m := fold_left _ (i :: ids) 0) in *.
    assert (m < 2 ^ 63 - 1) as Hm.
    { destruct Hin as [->|Hin]; [lia|]. apply Hsmall, Hkeys, Hin. }
    rewrite int64_small by lia.
    destruct (files !! (m + 1)) as [c|] eqn:Hc; [|done].
    assert (m + 1 <= m); [|lia]. apply Hall, Hkeys. eauto.
Qed.

Lemma loadSSTables_memtable (d : Disk.t) (e : t) :
  memtable (loadSSTables d e) = memtable e.
Proof.
  unfold loadSSTables. revert e.
  induction (glob_sorted d) as [|f fs IH]; intros e; simpl; [done|].
  by rewrite IH.
Qed.

(** Whatever WAL segments the directory holds, [NewEngine] opens a segment
    of its own, replays that one, which is empty, and returns an engine
    with an empty memory table; the old segments stay where they are,
    unread. *)
Lemma NewEngine_ignores_old_segments (d : Disk.t) :
  (∀ id, is_Some (Disk.wal d !! id) → id < 2 ^ 63 - 1) →
  ∃ d1 e, NewEngine d = (d1, inl e)
          ∧ memtable e = MemTable.NewMemTable
          ∧ Disk.wal d1 !! WAL.segment (wal e) = Some EmptyString
          ∧ ∀ id c, Disk.wal d !! id = Some c → Disk.wal d1 !! id = Some c.
Proof.
  intros Hsmall. pose proof (nextSegmentID_fresh _ Hsmall) as Hfresh.
  unfold NewEngine, WAL.OpenWAL, WAL.openSegment. rewrite Hfresh.
  unfold WAL.Replay, WAL.content. simpl. rewrite lookup_insert_eq. simpl.
  eexists _, _. split; [reflexivity|]. simpl.
  split; [apply loadSSTables_memtable|].
  split.
  - assert (∀ e, wal (loadSSTables (Disk.set_wal
        (<[WAL.nextSegmentID (Disk.wal d):=EmptyString]> (Disk.wal d)) d) e) = wal e) as Hw.
    { intros e. unfold loadSSTables.
      revert e. induction (glob_sorted _) as [|f fs IH]; intros e; simpl; [done|].
      by rewrite IH. }
    rewrite Hw. simpl. apply lookup_insert_eq.
  - intros id c Hc. rewrite lookup_insert_ne; [done|]. congruence.
Qed.

(** ** Engine.Get over the tables *)

Lemma get_tables_skip (key : string) (d : Disk.t) (t : SSTable.t) (err : error)
    (newer older : list SSTable.t) :
  filter_defined key t →
  snd (SSTable.Get key t d) = Some err →
  get_tables key d (newer ++ t :: older) = get_tables key d (newer ++ older).
Proof.
  intros Hdef Herr. induction newer as [|t' newer IH]; simpl.
  - apply SSTable_Get_error in Herr.
    destruct (SSTable.Get key t d) as [[val ok] e]. simpl in Herr. subst ok.
    destruct (SSTable.Bloom t) as [bf|] eqn:Hbf; [|done].
    destruct (Hdef bf Hbf) as [[|] ->]; done.
  - by rewrite IH.
Qed.

Lemma get_tables_returns (key : string) (d : Disk.t) (ts : list SSTable.t) :
  (∀ t, t ∈ ts → filter_defined key t) → is_Some (get_tables key d ts).
Proof.
  induction ts as [|t ts IH]; intros Hdef; simpl; [eauto|].
  assert (is_Some (get_tables key d ts)) as Hrest.
  { apply IH. intros t' Ht'. apply Hdef. by right. }
  assert (filter_defined key t) as Ht by (apply Hdef; left).
  destruct (SSTable.Bloom t) as [bf|] eqn:Hbf.
  - destruct (Ht bf Hbf) as [[|] ->]; [|done].
    destruct (SSTable.Get key t d) as [[val [|]] e]; eauto.
  - destruct (SSTable.Get key t d) as [[val [|]] e]; eauto.
Qed.



End engine_facts.

(** ** Memory table: how [bytes] moves against the footprint *)

Lemma footprint_delete (key old : string) (data : gmap string string) :
  data !! key = Some old →
  map_fold (fun key value acc => acc + (len key + len value)) 0 data
  = map_fold (fun key value acc => acc + (len key + len value)) 0 (delete key data)
    + (len key + len old).
Proof.
  intros Hk. rewrite (map_fold_delete_L _ _ key old data); [done| |done].
  intros. lia.
Qed.

Lemma footprint_insert_fresh (key value : string) (data : gmap string string) :
  data !! key = None →
  map_fold (fun key value acc => acc + (len key + len value)) 0 (<[key := value]> data)
  = map_fold (fun key value acc => acc + (len key + len value)) 0 data
    + (len key + len value).
Proof.
  intros Hk. rewrite map_fold_insert_L; [done| |done].
  intros. lia.
Qed.

(** A [Put] on a key that is not in the table keeps [bytes] and the
    footprint in step. *)
Lemma Put_fresh_in_step (key value : string) (m : MemTable.t) :
  MemTable.data m !! key = None →
  - 2 ^ 63 <= MemTable.bytes m + (len key + len value) < 2 ^ 63 →
  0 <= len key + len value < 2 ^ 63 →
  MemTable.Size (MemTable.Put key value m) - MemTable.footprint (MemTable.Put key value m)
  = MemTable.Size m - MemTable.footprint m.
Proof.
  intros Hk Hb Hl. unfold MemTable.Size, MemTable.footprint, MemTable.Put. rewrite Hk. simpl.
  rewrite footprint_insert_fresh by done.
  rewrite (int64_small (len key + len value)) by lia. rewrite int64_small by lia. lia.
Qed.

(** A [Put] on a key that is already in the table counts the key a second
    time: [bytes] moves [len key] ahead of the footprint. *)
Lemma Put_overwrite_drift (key value old : string) (m : MemTable.t) :
  MemTable.data m !! key = Some old →
  - 2 ^ 63 <= MemTable.bytes m - len old < 2 ^ 63 →
  0 <= len key + len value < 2 ^ 63 →
  - 2 ^ 63 <= MemTable.bytes m - len old + (len key + len value) < 2 ^ 63 →
  MemTable.Size (MemTable.Put key value m) - MemTable.footprint (MemTable.Put key value m)
  = MemTable.Size m - MemTable.footprint m + len key.
Proof.
  intros Hk Hb Hl Hs. unfold MemTable.Size, MemTable.footprint, MemTable.Put. rewrite Hk. simpl.
  rewrite <- insert_delete_eq, footprint_insert_fresh by apply lookup_delete_eq.
  rewrite (footprint_delete key old (MemTable.data m)) by done.
  rewrite (int64_small (MemTable.bytes m - len old)) by lia.
  rewrite (int64_small (len key + len value)) by lia. rewrite int64_small by lia. lia.
Qed.

(** A [Delete] of a key that is in the table gives back the value but not
    the key. *)
Lemma Delete_drift (key old : string) (m : MemTable.t) :
  MemTable.data m !! key = Some old →
  - 2 ^ 63 <= MemTable.bytes m - len old < 2 ^ 63 →
  MemTable.Size (MemTable.Delete key m) - MemTable.footprint (MemTable.Delete key m)
  = MemTable.Size m - MemTable.footprint m + len key.
Proof.
  intros Hk Hb. unfold MemTable.Size, MemTable.footprint, MemTable.Delete. rewrite Hk. simpl.
  rewrite (footprint_delete key old (MemTable.data m)) by done.
  rewrite int64_small by lia. lia.
Qed.

(** ** The WAL steps of the flush *)

(** After [Rotate] and [Truncate(segment - 1)] the segment that was open
    before is still in the directory. *)
Lemma rotate_and_truncate_keeps_previous (l : WAL.t) (files : gmap Z string) (c : string) :
  files !! WAL.segment l = Some c →
  - 2 ^ 63 <= WAL.segment l < 2 ^ 63 - 1 →
  ∃ files',
    Engine.rotate_and_truncate l files = ({| WAL.segment := WAL.segment l + 1 |}, files', None)
    ∧ files' !! WAL.segment l = Some c.
Proof.
  intros Hc Hr. unfold Engine.rotate_and_truncate, WAL.Rotate, WAL.openSegment, WAL.Truncate.
  simpl. rewrite (int64_small (WAL.segment l + 1)) by lia.
  replace (WAL.segment l + 1 - 1) with (WAL.segment l) by lia.
  rewrite (int64_small (WAL.segment l)) by lia.
  eexists. split; [reflexivity|]. simpl.
  apply map_lookup_filter_Some. split; [|simpl; lia].
  destruct (files !! (WAL.segment l + 1)); [done|].
  rewrite lookup_insert_ne by lia. done.
Qed.

(** ** The compaction trigger *)

(** Below four tables [maybeCompact] does nothing, whatever
    [maxSSTables] holds. *)
Lemma maybeCompact_below_four (w : Engine.world) :
  (length (Engine.sstables (Engine.eng w)) < 4)%nat →
  Engine.maybeCompact w = (w, None).
Proof.
  intros Hlt. unfold Engine.maybeCompact, Engine.MaxSSTables.
  destruct (Z.ltb_spec (Z.of_nat (length (Engine.sstables (Engine.eng w)))) 4); [done|lia].
Qed.

(** [maybeCompact] never reads [maxSSTables]. *)
Lemma maybeCompact_ignores_maxSSTables (w : Engine.world) (g : Engine.globals) :
  Engine.maybeCompact (Engine.set_vars g w)
  = (Engine.set_vars g (fst (Engine.maybeCompact w)), snd (Engine.maybeCompact w)).
Proof.
  unfold Engine.maybeCompact. simpl.
  destruct (Z.of_nat (length (Engine.sstables (Engine.eng w))) <? Engine.MaxSSTables); [done|].
  unfold Engine.compactAll.
  cbn [Engine.eng Engine.disk Engine.vars Engine.set_vars].
  destruct (Engine.merge_tables _ _ _) as [merged [err|]]; [done|].
  rewrite WriteSSTable_fails. done.
Qed.

(** ** Engine.Get: which table answers *)

(** The tables that do not hold the key are passed over, and the first
    one that holds it answers. *)
Lemma get_tables_first_hit (key : string) (d : Disk.t) (skipped rest : list SSTable.t)
    (t0 : SSTable.t) (val : string) :
  (∀ t', t' ∈ skipped →
     Engine.filter_defined key t' ∧ snd (fst (SSTable.Get key t' d)) = false) →
  (∀ bf, SSTable.Bloom t0 = Some bf → BloomFilter.MightContain key bf = Some true) →
  fst (SSTable.Get key t0 d) = (val, true) →
  Engine.get_tables key d (skipped ++ t0 :: rest) = Some (val, true).
Proof.
  intros Hskip Hpass Hhit. induction skipped as [|t' skipped IH]; cbn [app Engine.get_tables].
  - destruct (SSTable.Get key t0 d) as [[val' ok] e]. simpl in Hhit.
    injection Hhit as -> ->.
    destruct (SSTable.Bloom t0) as [bf|]; [|done]. by rewrite (Hpass bf).
  - destruct (Hskip t') as [Hdef Hmiss]; [by left|].
    assert (Engine.get_tables key d (skipped ++ t0 :: rest) = Some (val, true)) as Hrest.
    { apply IH. intros t'' Ht''. apply Hskip. by right. }
    destruct (SSTable.Get key t' d) as [[val' ok] e]. simpl in Hmiss. subst ok.
    destruct (SSTable.Bloom t') as [bf|] eqn:Hbf; [|done].
    by destruct (Hdef bf Hbf) as [[|] ->].
Qed.

Lemma get_tables_all_miss (key : string) (d : Disk.t) (ts : list SSTable.t) :
  (∀ t', t' ∈ ts →
     Engine.filter_defined key t' ∧ snd (fst (SSTable.Get key t' d)) = false) →
  Engine.get_tables key d ts = Some (EmptyString, false).
Proof.
  induction ts as [|t' ts IH]; intros Hskip; cbn [Engine.get_tables]; [done|].
  destruct (Hskip t') as [Hdef Hmiss]; [by left|].
  assert (Engine.get_tables key d ts = Some (EmptyString, false)) as Hrest.
  { apply IH. intros t'' Ht''. apply Hskip. by right. }
  destruct (SSTable.Get key t' d) as [[val' ok] e]. simpl in Hmiss. subst ok.
  destruct (SSTable.Bloom t') as [bf|] eqn:Hbf; [|done].
  by destruct (Hdef bf Hbf) as [[|] ->].
Qed.

(** * The claims *)

(** C1.  The code at a failing input.  With a flush threshold of 2 bytes:
    [Put("k","v")] makes the engine write [sst_000000.dat] (the flush then
    stops at the error of [Save], which [Put] returns); a new process over
    the same directory loads that table; [Delete("k")] returns nil and
    leaves the memory table without an entry for [k]; [Get("k")] then
    finds [k] in the table on disk and returns [("v", true)], where the
    claim promises absent. *)
Theorem Delete_then_Get_returns_flushed_value :
  (w0 ← Engine.start (Scenario.config 2 4) Disk.empty;
   let p := Engine.Put "k" "v" w0 in
   w1 ← Engine.reopen (Scenario.config 2 4) (fst p);
   let r := Engine.Delete "k" w1 in
   Some (snd p,
         Disk.sst (Engine.disk w1) !! SstFlushed 0,
         List.map SSTable.Path (Engine.sstables (Engine.eng w1)),
         snd r,
         MemTable.Get "k" (Engine.memtable (Engine.eng (fst r))),
         Engine.Get "k" (fst r)))
  = Some (Some ErrGobNoExportedFields,
          Some (SSTable.encode_entry "k" "v"),
          [SstFlushed 0],
          None,
          (EmptyString, false),
          Some ("v"%string, true)).
Proof. vm_compute. reflexivity. Qed.

(** C2.  The code at a failing input.  [Put("a","1")] is acknowledged
    (nil) and readable; the process dies; the next [NewEngineWithConfig]
    over the directory opens segment 1, replays that empty segment, and
    answers absent for [a], while segment 0 still holds the PUT record. *)
Theorem reopen_loses_acknowledged_Put :
  (w0 ← Engine.start Config.defaults Disk.empty;
   let r := Engine.Put "a" "1" w0 in
   w1 ← Engine.reopen Config.defaults (fst r);
   Some (snd r,
         Engine.Get "a" (fst r),
         Disk.wal (Engine.disk w1) !! 0,
         WAL.segment (Engine.wal (Engine.eng w1)),
         WAL.Replay (Engine.wal (Engine.eng w1)) (Disk.wal (Engine.disk w1)),
         Engine.Get "a" w1))
  = Some (None,
          Some ("1"%string, true),
          Some (WAL.encode WAL.PutRecord "a" "1"),
          1,
          ([], None),
          Some (EmptyString, false)).
Proof. vm_compute. reflexivity. Qed.

(** C3.  The code at two failing inputs.  An empty value in the memory
    table, and an empty value in a table on disk (flush threshold 1, then
    a new process), are both first hits; [Get] returns [("", true)] for
    each, where the claim promises absent.  [ReadKeyRange] over the same
    state drops the key. *)
Theorem Get_returns_empty_value_as_present :
  (w0 ← Engine.start Config.defaults Disk.empty;
   let w1 := fst (Engine.Put "k" "" w0) in
   Some (MemTable.Get "k" (Engine.memtable (Engine.eng w1)),
         Engine.Get "k" w1,
         fst (Engine.ReadKeyRange "a" "z" w1) !! "k"%string))
  = Some ((EmptyString, true), Some (EmptyString, true), None)
  ∧
  (w0 ← Engine.start (Scenario.config 1 4) Disk.empty;
   w1 ← Engine.reopen (Scenario.config 1 4) (fst (Engine.Put "k" "" w0));
   Some (MemTable.Get "k" (Engine.memtable (Engine.eng w1)),
         List.map (fun t => SSTable.Get "k" t (Engine.disk w1))
           (Engine.sstables (Engine.eng w1)),
         Engine.Get "k" w1,
         fst (Engine.ReadKeyRange "a" "z" w1) !! "k"%string))
  = Some ((EmptyString, false), [(EmptyString, true, None)],
          Some (EmptyString, true), None).
Proof. split; vm_compute; reflexivity. Qed.

(** C4.  The code at two failing inputs.  Writing the same pair twice
    leaves [Size() = 3] for a table whose only entry weighs 2; deleting
    the only entry leaves [Size() = 1] for an empty table. *)
Theorem Size_differs_from_footprint :
  MemTable.Size (MemTable.run [MemTable.OpPut "k" "v"; MemTable.OpPut "k" "v"]) = 3
  ∧ MemTable.footprint (MemTable.run [MemTable.OpPut "k" "v"; MemTable.OpPut "k" "v"]) = 2
  ∧ MemTable.Size (MemTable.run [MemTable.OpPut "k" "v"; MemTable.OpDelete "k"]) = 1
  ∧ MemTable.footprint (MemTable.run [MemTable.OpPut "k" "v"; MemTable.OpDelete "k"]) = 0.
Proof.
  split; [vm_compute; reflexivity|]. split; [vm_compute; reflexivity|].
  split; vm_compute; reflexivity.
Qed.

(** C5.  The code on every filter.  [Save] returns the gob error for a
    struct without exported fields; [LoadBloomFilter] on the file it left
    returns [io.ErrUnexpectedEOF] with the zero filter, so neither the
    bits nor [k] come back.  On the filter of [WriteSSTable] the answers differ: the
    empty filter says false for [zz], the loaded one true. *)
Theorem Save_then_LoadBloomFilter_loses_filter
    (b : BloomFilter.t) (path : SstPath) (dir : gmap SstPath Gob.stream) :
  snd (BloomFilter.Save path b dir) = Some ErrGobNoExportedFields
  ∧ BloomFilter.LoadBloomFilter path (fst (BloomFilter.Save path b dir))
    = (Some BloomFilter.zero, Some ErrUnexpectedEOF)
  ∧ BloomFilter.MightContain "zz" SSTable.newFilter = Some false
  ∧ BloomFilter.MightContain "zz" BloomFilter.zero = Some true.
Proof.
  split; [reflexivity|]. split.
  - rewrite Save_fails. unfold BloomFilter.LoadBloomFilter. simpl. by rewrite lookup_insert_eq.
  - split; vm_compute; reflexivity.
Qed.

(** C6.  Whatever filter one starts from and whatever keys are added to it,
    in any order and any number of times, if the [Add] calls return then
    [MightContain] answers true for every key that was added: a false
    negative is impossible. *)
Theorem MightContain_no_false_negative
    (b b' : BloomFilter.t) (keys : list string) (key : string) :
  BloomFilter.AddAll keys b = Some b' →
  In key keys →
  BloomFilter.MightContain key b' = Some true.
Proof.
  revert b. induction keys as [|key0 keys IH]; intros b; simpl; [done|].
  destruct (BloomFilter.Add key0 b) as [b1|] eqn:HA; [|discriminate].
  intros Hall [->|Hin]; [|eauto].
  apply BloomFilter_Add_MightContain in HA. clear IH. revert b1 HA Hall.
  induction keys as [|key1 keys IH]; intros b1 HM; simpl.
  - by intros [= <-].
  - destruct (BloomFilter.Add key1 b1) as [b2|] eqn:HA; [|discriminate].
    apply IH. by eapply BloomFilter_Add_keeps_MightContain.
Qed.

(** A filter of four bytes and three probes, with three keys added, one of
    them twice. *)
Lemma MightContain_no_false_negative_witness :
  BloomFilter.AddAll ["a"; "bb"; "a"; "c"]%string
      {| BloomFilter.bits := [0; 0; 0; 0]; BloomFilter.k := 3 |}
    = Some {| BloomFilter.bits := [32; 16; 148; 165]; BloomFilter.k := 3 |}
  ∧ In "bb"%string ["a"; "bb"; "a"; "c"]%string
  ∧ BloomFilter.MightContain "bb"
      {| BloomFilter.bits := [32; 16; 148; 165]; BloomFilter.k := 3 |} = Some true.
Proof.
  assert (Hall : BloomFilter.AddAll ["a"; "bb"; "a"; "c"]%string
                   {| BloomFilter.bits := [0; 0; 0; 0]; BloomFilter.k := 3 |}
                 = Some {| BloomFilter.bits := [32; 16; 148; 165]; BloomFilter.k := 3 |})
    by (vm_compute; reflexivity).
  assert (Hin : In "bb"%string ["a"; "bb"; "a"; "c"]%string) by (simpl; tauto).
  split; [exact Hall|]. split; [exact Hin|].
  exact (MightContain_no_false_negative _ _ _ _ Hall Hin).
Defined.

(** C7.  The code at a failing input.  The engine is configured with a
    table count of 2 and, after two flushes and restarts, holds two
    tables; [maybeCompact] returns nil and leaves both tables and the
    directory as they are, while [compactAll] on the same state would have
    written [sst_compacted_000002.dat]. *)
Theorem maybeCompact_not_triggered_at_configured_count :
  (w0 ← Engine.start (Scenario.config 2 2) Disk.empty;
   w1 ← Engine.reopen (Scenario.config 2 2) (fst (Engine.Put "a" "1" w0));
   w2 ← Engine.reopen (Scenario.config 2 2) (fst (Engine.Put "b" "2" w1));
   let r := Engine.maybeCompact w2 in
   Some (Engine.maxSSTables (Engine.vars w2),
         List.map SSTable.Path (Engine.sstables (Engine.eng w2)),
         snd r,
         List.map SSTable.Path (Engine.sstables (Engine.eng (fst r))),
         Disk.sst (Engine.disk (fst r)) !! SstCompacted 2,
         bool_decide (is_Some (Disk.sst (Engine.disk (fst (Engine.compactAll w2))) !! SstCompacted 2))))
  = Some (2, [SstFlushed 0; SstFlushed 1], None, [SstFlushed 0; SstFlushed 1], None, true).
Proof. vm_compute. reflexivity. Qed.




(** C9, the claim refuted.  On a fresh engine [Put("", "v")] and
    [Delete("")] return nil, not an error; the open WAL segment, empty
    before, holds the record of the empty key afterwards, and after the
    [Put] the memory table maps the empty key to [v]. *)
Lemma empty_key_reaches_wal_and_memtable :
  (w0 ← Engine.start Config.defaults Disk.empty;
   let p := Engine.Put "" "v" w0 in
   let d := Engine.Delete "" w0 in
   Some (Disk.wal (Engine.disk w0) !! 0,
         (snd p, Disk.wal (Engine.disk (fst p)) !! 0,
          MemTable.Get "" (Engine.memtable (Engine.eng (fst p)))),
         (snd d, Disk.wal (Engine.disk (fst d)) !! 0)))
  = Some (Some EmptyString,
          (None, Some (WAL.encode WAL.PutRecord "" "v"), ("v"%string, true)),
          (None, Some (WAL.encode WAL.DeleteRecord "" ""))).
Proof. vm_compute. reflexivity. Qed.

(** C9, as amended.  The empty key is refused by the key handler of the
    HTTP server, which answers 400 for every method and leaves the engine
    alone.  The engine itself does not look at the key: [Put] and [Delete]
    with an empty key append the record to the open WAL segment and apply
    it to the memory table as for any other key, and the only error they
    can return is that of the flush. *)
Theorem empty_key_refused_by_handler_only
    (w : Engine.world) (method reqBody value : string) :
  Server.kvHandler method "" reqBody w
    = Some (w, {| Server.status := 400; Server.payload := Server.Text "missing key" |})
  ∧ Disk.wal (Engine.disk (fst (Engine.Put "" value w)))
    = WAL.append (WAL.encode WAL.PutRecord "" value)
        (Engine.wal (Engine.eng w)) (Disk.wal (Engine.disk w))
  ∧ MemTable.Get "" (Engine.memtable (Engine.eng (fst (Engine.Put "" value w))))
    = (value, true)
  ∧ Disk.wal (Engine.disk (fst (Engine.Delete "" w)))
    = WAL.append (WAL.encode WAL.DeleteRecord "" "")
        (Engine.wal (Engine.eng w)) (Disk.wal (Engine.disk w))
  ∧ Engine.memtable (Engine.eng (fst (Engine.Delete "" w)))
    = MemTable.Delete "" (Engine.memtable (Engine.eng w))
  ∧ (snd (Engine.Put "" value w) = None
     ∨ snd (Engine.Put "" value w) = Some ErrGobNoExportedFields)
  ∧ (snd (Engine.Delete "" w) = None
     ∨ snd (Engine.Delete "" w) = Some ErrGobNoExportedFields).
Proof.
  split; [reflexivity|].
  destruct (Put_effect "" value w) as [HPw HPm].
  destruct (Delete_effect "" w) as [HDw HDm].
  split; [exact HPw|]. split.
  { rewrite HPm. unfold MemTable.Get, MemTable.Put. simpl. by rewrite lookup_insert_eq. }
  split; [exact HDw|]. split; [exact HDm|].
  split.
  - unfold Engine.Put, WAL.AppendPut, Engine.flush_if_needed.
    match goal with |- context [if ?c then _ else _] => destruct c end; [|by left].
    match goal with |- context [Engine.flushMemTable ?x] =>
      destruct (flushMemTable_stops x) as (_ & _ & _ & Hs) end. exact Hs.
  - unfold Engine.Delete, WAL.AppendDelete, Engine.flush_if_needed.
    match goal with |- context [if ?c then _ else _] => destruct c end; [|by left].
    match goal with |- context [Engine.flushMemTable ?x] =>
      destruct (flushMemTable_stops x) as (_ & _ & _ & Hs) end. exact Hs.
Qed.

(** C10.  [Get] has no error result.  When the point lookup in one table
    fails (the file cannot be opened, or its bytes stop in the middle of an
    entry), the failure is dropped: [Get] returns a result, and it is the
    result it returns on the engine without that table.  If moreover the
    memory table and the newer tables do not hold the key, the lookup goes
    on to the older tables: the first of them, newest first, that holds
    the key provides the value, and the key is absent when none of them
    holds it.  The filters are assumed not to panic on the key. *)
Theorem Get_drops_lookup_error
    (key : string) (w : Engine.world) (older newer : list SSTable.t) (t : SSTable.t)
    (err : error) :
  Engine.sstables (Engine.eng w) = older ++ t :: newer →
  (∀ t', t' ∈ Engine.sstables (Engine.eng w) → Engine.filter_defined key t') →
  snd (SSTable.Get key t (Engine.disk w)) = Some err →
  (∃ result : string * bool,
     Engine.Get key w = Some result
     ∧ Engine.Get key (Engine.set_eng (Engine.set_sstables (older ++ newer) (Engine.eng w)) w)
       = Some result)
  ∧ (snd (MemTable.Get key (Engine.memtable (Engine.eng w))) = false →
     (∀ t', t' ∈ newer → snd (fst (SSTable.Get key t' (Engine.disk w))) = false) →
     (∀ (older' between : list SSTable.t) (t0 : SSTable.t) (val : string),
        older = older' ++ t0 :: between →
        (∀ t', t' ∈ between → snd (fst (SSTable.Get key t' (Engine.disk w))) = false) →
        (∀ bf, SSTable.Bloom t0 = Some bf → BloomFilter.MightContain key bf = Some true) →
        fst (SSTable.Get key t0 (Engine.disk w)) = (val, true) →
        Engine.Get key w = Some (val, true))
     ∧ ((∀ t', t' ∈ older → snd (fst (SSTable.Get key t' (Engine.disk w))) = false) →
        Engine.Get key w = Some (EmptyString, false))).
Proof.
  intros Hts Hdef Herr.
  assert (Engine.Get key w = Engine.Get key (Engine.set_eng (Engine.set_sstables (older ++ newer) (Engine.eng w)) w)) as Heq.
  { unfold Engine.Get. simpl. destruct (MemTable.Get key (Engine.memtable (Engine.eng w))) as [val [|]]; [done|].
    rewrite Hts, !rev_app_distr. simpl. rewrite <- app_assoc. simpl.
    apply get_tables_skip with (err := err); [|done].
    apply Hdef. rewrite Hts. apply elem_of_app. right. left. }
  split.
  { rewrite <- Heq.
    enough (is_Some (Engine.Get key w)) as [result Hr] by eauto.
    unfold Engine.Get. destruct (MemTable.Get key (Engine.memtable (Engine.eng w))) as [val [|]]; [eauto|].
    apply get_tables_returns. intros t' Ht'. apply Hdef.
    apply list_elem_of_In, in_rev, list_elem_of_In, Ht'. }
  intros Hmem Hnewer.
  assert (snd (fst (SSTable.Get key t (Engine.disk w))) = false) as Hmiss
    by (by eapply SSTable_Get_error).
  assert (∀ t', t' ∈ t :: newer →
            Engine.filter_defined key t'
            ∧ snd (fst (SSTable.Get key t' (Engine.disk w))) = false) as Hskip.
  { intros t' Ht'. split.
    - apply Hdef. rewrite Hts. apply elem_of_app. by right.
    - apply elem_of_cons in Ht' as [->|Ht']; [done|by apply Hnewer]. }
  assert (Engine.Get key w
          = Engine.get_tables key (Engine.disk w) (rev (Engine.sstables (Engine.eng w))))
    as Hget.
  { unfold Engine.Get.
    destruct (MemTable.Get key (Engine.memtable (Engine.eng w))) as [val [|]]; [done|done]. }
  rewrite Hget, Hts. split.
  - intros older' between t0 val -> Hbetween Hpass Hhit.
    replace (rev ((older' ++ t0 :: between) ++ t :: newer))
      with (rev (between ++ t :: newer) ++ t0 :: rev older').
    2:{ rewrite <- (app_assoc older'). cbn [app].
        rewrite (rev_app_distr older'). cbn [rev]. by rewrite <- app_assoc. }
    apply get_tables_first_hit; [|done|done].
    intros t' Ht'. apply list_elem_of_In, in_rev, list_elem_of_In in Ht'.
    apply elem_of_app in Ht' as [Ht'|Ht']; [|by apply Hskip].
    split; [|by apply Hbetween].
    apply Hdef. rewrite Hts. apply elem_of_app. left. apply elem_of_app. right. by right.
  - intros Holder. apply get_tables_all_miss.
    intros t' Ht'. apply list_elem_of_In, in_rev, list_elem_of_In in Ht'.
    apply elem_of_app in Ht' as [Ht'|Ht']; [|by apply Hskip].
    split; [|by apply Holder].
    apply Hdef. rewrite Hts. apply elem_of_app. by left.
Qed.

(** The newest table is torn inside its only entry; the lookup falls back
    on the older table and returns its value, [old]. *)
Lemma Get_drops_lookup_error_witness :
  Engine.sstables (Engine.eng Scenario.torn_world) = [Scenario.table0] ++ Scenario.table1 :: []
  ∧ snd (SSTable.Get "k" Scenario.table1 (Engine.disk Scenario.torn_world)) = Some ErrUnexpectedEOF
  ∧ snd (MemTable.Get "k" (Engine.memtable (Engine.eng Scenario.torn_world))) = false
  ∧ fst (SSTable.Get "k" Scenario.table0 (Engine.disk Scenario.torn_world))
    = ("old"%string, true)
  ∧ Engine.Get "k" Scenario.torn_world = Some ("old"%string, true)
  ∧ ∃ result : string * bool,
      Engine.Get "k" Scenario.torn_world = Some result
      ∧ Engine.Get "k" (Engine.set_eng (Engine.set_sstables ([Scenario.table0] ++ [])
                            (Engine.eng Scenario.torn_world)) Scenario.torn_world)
        = Some result.
Proof.
  assert (H1 : Engine.sstables (Engine.eng Scenario.torn_world)
               = [Scenario.table0] ++ Scenario.table1 :: []) by reflexivity.
  assert (H2 : ∀ t', t' ∈ Engine.sstables (Engine.eng Scenario.torn_world) → Engine.filter_defined "k" t').
  { intros t' Ht' bf Hbf. simpl in Ht'.
    apply elem_of_cons in Ht' as [->|Ht']; [discriminate|].
    apply elem_of_cons in Ht' as [->|Ht']; [discriminate|].
    by apply elem_of_nil in Ht'. }
  assert (H3 : snd (SSTable.Get "k" Scenario.table1 (Engine.disk Scenario.torn_world))
               = Some ErrUnexpectedEOF) by (vm_compute; reflexivity).
  assert (H4 : snd (MemTable.Get "k" (Engine.memtable (Engine.eng Scenario.torn_world)))
               = false) by (vm_compute; reflexivity).
  assert (H5 : fst (SSTable.Get "k" Scenario.table0 (Engine.disk Scenario.torn_world))
               = ("old"%string, true)) by (vm_compute; reflexivity).
  split; [exact H1|]. split; [exact H3|]. split; [exact H4|]. split; [exact H5|].
  destruct (Get_drops_lookup_error "k" Scenario.torn_world [Scenario.table0] []
              Scenario.table1 ErrUnexpectedEOF H1 H2 H3) as [Hsame Hgoes].
  split; [|exact Hsame].
  destruct (Hgoes H4) as [Hvalue _].
  { intros t' Ht'. by apply elem_of_nil in Ht'. }
  apply (Hvalue [] [] Scenario.table0 "old"%string); [reflexivity| |discriminate|exact H5].
  intros t' Ht'. by apply elem_of_nil in Ht'.
Defined.

(** * Further properties *)

(** ** Framing round trips *)

Lemma append_cons (x : ascii) (a b : string) : String x a +:+ b = String x (a +:+ b).
Proof. reflexivity. Qed.

Lemma append_nil_l (a : string) : EmptyString +:+ a = a.
Proof. reflexivity. Qed.

Lemma append_assoc (a b c : string) : (a +:+ b) +:+ c = a +:+ (b +:+ c).
Proof. induction a as [|x a IH]; [done|]. rewrite !append_cons. by f_equal. Qed.

Lemma append_nil_r (a : string) : a +:+ EmptyString = a.
Proof. induction a as [|x a IH]; [done|]. rewrite append_cons. by f_equal. Qed.

Lemma length_append (a b : string) :
  String.length (a +:+ b) = (String.length a + String.length b)%nat.
Proof. induction a as [|x a IH]; [done|]. rewrite append_cons. simpl. by f_equal. Qed.

Lemma len_append (a b : string) : len (a +:+ b) = len a + len b.
Proof. unfold len. rewrite length_append. lia. Qed.

Lemma len_nonneg (a : string) : 0 <= len a.
Proof. unfold len. lia. Qed.

Lemma split_at_append (a rest : string) :
  Wire.split_at (String.length a) (a +:+ rest) = (a, rest).
Proof.
  induction a as [|x a IH]; [by destruct rest|].
  rewrite append_cons. simpl. by rewrite IH.
Qed.

Lemma byte_val_chr (z : Z) : 0 <= z < 256 → byte_val (byte_chr z) = z.
Proof.
  intros Hz. unfold byte_val, byte_chr, uint8. rewrite Z.mod_small by lia.
  rewrite N_ascii_embedding by lia. lia.
Qed.

Lemma byte_val_chr_mod (z : Z) : byte_val (byte_chr z) = z mod 256.
Proof.
  unfold byte_val, byte_chr, uint8.
  pose proof (Z.mod_pos_bound z 256 ltac:(lia)).
  change (2 ^ 8) with 256. rewrite N_ascii_embedding by lia. lia.
Qed.

Lemma ReadFull_append (a rest : string) :
  Wire.ReadFull (len a) (a +:+ rest) = inl (a, rest).
Proof.
  unfold Wire.ReadFull. destruct (Z.leb_spec (len a) 0) as [H0|H0].
  - destruct a; [done|]. unfold len in H0. simpl in H0. lia.
  - rewrite len_append. pose proof (len_nonneg rest).
    destruct (Z.eqb_spec (len a + len rest) 0); [lia|].
    destruct (Z.ltb_spec (len a + len rest) (len a)); [lia|].
    unfold len. rewrite Nat2Z.id. by rewrite split_at_append.
Qed.

Lemma be_val_put_u32 (z : Z) :
  0 <= z < 2 ^ 32 → Wire.be_val 0 (Wire.put_u32 z) = z.
Proof.
  intros Hz. unfold Wire.put_u32, uint32. rewrite (Z.mod_small z) by lia.
  cbn [Wire.be_val]. rewrite !byte_val_chr_mod.
  change (2 ^ 24) with 16777216. change (2 ^ 16) with 65536. change (2 ^ 8) with 256.
  change (2 ^ 32) with 4294967296 in Hz.
  Z.div_mod_to_equations. lia.
Qed.

Lemma read_u32_put (z : Z) (rest : string) :
  0 <= z < 2 ^ 32 → Wire.read_u32 (Wire.put_u32 z +:+ rest) = inl (z, rest).
Proof.
  intros Hz. unfold Wire.read_u32.
  change 4 with (len (Wire.put_u32 z)). rewrite ReadFull_append.
  by rewrite be_val_put_u32.
Qed.

Lemma read_u8_put (z : Z) (rest : string) :
  0 <= z < 256 → Wire.read_u8 (Wire.put_u8 z +:+ rest) = inl (z, rest).
Proof.
  intros Hz. unfold Wire.read_u8.
  change 1 with (len (Wire.put_u8 z)). rewrite ReadFull_append.
  unfold Wire.put_u8. cbn [Wire.be_val]. rewrite byte_val_chr by lia. done.
Qed.

Lemma read_body_frame (key value rest : string) :
  Layout.fits value →
  Wire.read_body (len key) (key +:+ Wire.frame value +:+ rest) = Wire.Got (key, value) rest.
Proof.
  intros Hv. unfold Wire.read_body, Wire.frame. rewrite ReadFull_append.
  rewrite append_assoc, read_u32_put by (pose proof (len_nonneg value); done).
  by rewrite ReadFull_append.
Qed.

(** An entry of a sorted table reads back as it was written. *)
Lemma read_entry_encode (key value rest : string) :
  Layout.fits key → Layout.fits value →
  Wire.read_entry (SSTable.encode_entry key value +:+ rest) = Wire.Got (key, value) rest.
Proof.
  intros Hk Hv.
  assert (SSTable.encode_entry key value +:+ rest
          = Wire.put_u32 (len key) +:+ key +:+ Wire.frame value +:+ rest) as ->.
  { unfold SSTable.encode_entry. unfold Wire.frame at 1. by rewrite !append_assoc. }
  unfold Wire.read_entry. rewrite read_u32_put by (pose proof (len_nonneg key); done).
  by apply read_body_frame.
Qed.


(** ** The WAL reads back what was appended *)

Lemma read_record_encode (rt : Z) (key value rest : string) :
  0 <= rt < 256 → Layout.fits key → Layout.fits value →
  WAL.read_record (WAL.encode rt key value +:+ rest)
  = Wire.Got {| WAL.Type_ := rt; WAL.Key := key; WAL.Value := value |} rest.
Proof.
  intros Hrt Hk Hv.
  assert (WAL.encode rt key value +:+ rest
          = Wire.put_u8 rt +:+ Wire.put_u32 (len key) +:+ key +:+ Wire.frame value +:+ rest)
    as ->.
  { unfold WAL.encode. unfold Wire.frame at 1. by rewrite !append_assoc. }
  unfold WAL.read_record. rewrite read_u8_put by done.
  rewrite read_u32_put by (pose proof (len_nonneg key); done).
  by rewrite read_body_frame.
Qed.

Lemma wal_bytes_app (rs rs' : list WAL.WALRecord) :
  Layout.wal_bytes (rs ++ rs') = Layout.wal_bytes rs +:+ Layout.wal_bytes rs'.
Proof.
  induction rs as [|r rs IH]; [done|].
  simpl. by rewrite IH, append_assoc.
Qed.

Lemma replay_loop_wal_bytes (rs acc : list WAL.WALRecord) (fuel : nat) :
  Forall Layout.record_ok rs →
  (String.length (Layout.wal_bytes rs) < fuel)%nat →
  WAL.replay_loop fuel (Layout.wal_bytes rs) acc = Some (acc ++ rs, None).
Proof.
  revert acc fuel. induction rs as [|r rs IH]; intros acc fuel Hok Hfuel.
  - destruct fuel; [lia|]. simpl. by rewrite app_nil_r.
  - destruct fuel; [lia|]. apply Forall_cons in Hok as [(Hrt & Hk & Hv) Hok].
    cbn [WAL.replay_loop Layout.wal_bytes fold_right].
    rewrite read_record_encode by done.
    change (fold_right _ EmptyString rs) with (Layout.wal_bytes rs).
    rewrite IH; [by rewrite <- app_assoc; destruct r| done |].
    cbn [Layout.wal_bytes fold_right] in Hfuel. rewrite length_append in Hfuel.
    change (fold_right _ EmptyString rs) with (Layout.wal_bytes rs) in Hfuel.
    assert (1 <= String.length (WAL.encode (WAL.Type_ r) (WAL.Key r) (WAL.Value r)))%nat
      by (unfold WAL.encode, Wire.put_u8; rewrite append_cons; simpl; lia).
    lia.
Qed.

Lemma Replay_wal_bytes
    (l : WAL.t) (files : gmap Z string) (rs : list WAL.WALRecord) :
  files !! WAL.segment l = Some (Layout.wal_bytes rs) →
  Forall Layout.record_ok rs →
  WAL.Replay l files = (rs, None).
Proof.
  intros Hfile Hok. unfold WAL.Replay, WAL.content. rewrite Hfile.
  change (default EmptyString (Some (Layout.wal_bytes rs))) with (Layout.wal_bytes rs).
  rewrite (replay_loop_wal_bytes rs []) by (done || lia). done.
Qed.

(** X1.  A segment that holds the appended bytes of well-formed records
    (type in one byte, key and value shorter than 2^32 bytes) replays to
    exactly those records, in order, without an error. *)
Theorem Replay_round_trip
    (l : WAL.t) (files : gmap Z string) (rs : list WAL.WALRecord) :
  files !! WAL.segment l = Some (Layout.wal_bytes rs) →
  Forall Layout.record_ok rs →
  WAL.Replay l files = (rs, None).
Proof. apply Replay_wal_bytes. Qed.

Lemma Replay_round_trip_witness :
  ({[ 3 := Layout.wal_bytes
             [ {| WAL.Type_ := 1; WAL.Key := "a"; WAL.Value := "1" |};
               {| WAL.Type_ := 2; WAL.Key := "a"; WAL.Value := "" |};
               {| WAL.Type_ := 7; WAL.Key := ""; WAL.Value := "zz" |} ] ]} : gmap Z string)
    !! WAL.segment {| WAL.segment := 3 |}
  = Some (Layout.wal_bytes
            [ {| WAL.Type_ := 1; WAL.Key := "a"; WAL.Value := "1" |};
              {| WAL.Type_ := 2; WAL.Key := "a"; WAL.Value := "" |};
              {| WAL.Type_ := 7; WAL.Key := ""; WAL.Value := "zz" |} ])
  ∧ Forall Layout.record_ok
      [ {| WAL.Type_ := 1; WAL.Key := "a"; WAL.Value := "1" |};
        {| WAL.Type_ := 2; WAL.Key := "a"; WAL.Value := "" |};
        {| WAL.Type_ := 7; WAL.Key := ""; WAL.Value := "zz" |} ]
  ∧ WAL.Replay {| WAL.segment := 3 |}
      {[ 3 := Layout.wal_bytes
                [ {| WAL.Type_ := 1; WAL.Key := "a"; WAL.Value := "1" |};
                  {| WAL.Type_ := 2; WAL.Key := "a"; WAL.Value := "" |};
                  {| WAL.Type_ := 7; WAL.Key := ""; WAL.Value := "zz" |} ] ]}
    = ([ {| WAL.Type_ := 1; WAL.Key := "a"; WAL.Value := "1" |};
         {| WAL.Type_ := 2; WAL.Key := "a"; WAL.Value := "" |};
         {| WAL.Type_ := 7; WAL.Key := ""; WAL.Value := "zz" |} ], None).
Proof.
  assert (H1 : ({[ 3 := Layout.wal_bytes
             [ {| WAL.Type_ := 1; WAL.Key := "a"; WAL.Value := "1" |};
               {| WAL.Type_ := 2; WAL.Key := "a"; WAL.Value := "" |};
               {| WAL.Type_ := 7; WAL.Key := ""; WAL.Value := "zz" |} ] ]} : gmap Z string)
    !! WAL.segment {| WAL.segment := 3 |}
  = Some (Layout.wal_bytes
            [ {| WAL.Type_ := 1; WAL.Key := "a"; WAL.Value := "1" |};
              {| WAL.Type_ := 2; WAL.Key := "a"; WAL.Value := "" |};
              {| WAL.Type_ := 7; WAL.Key := ""; WAL.Value := "zz" |} ]))
    by (vm_compute; reflexivity).
  assert (H2 : Forall Layout.record_ok
      [ {| WAL.Type_ := 1; WAL.Key := "a"; WAL.Value := "1" |};
        {| WAL.Type_ := 2; WAL.Key := "a"; WAL.Value := "" |};
        {| WAL.Type_ := 7; WAL.Key := ""; WAL.Value := "zz" |} ]).
  { repeat constructor; vm_compute; congruence. }
  split; [exact H1|]. split; [exact H2|].
  exact (Replay_round_trip _ _ _ H1 H2).
Defined.


(** ** What [Put] and [Delete] leave behind *)

Lemma Put_engine (key value : string) (w : Engine.world) :
  Engine.eng (fst (Engine.Put key value w))
  = Engine.set_memtable (MemTable.Put key value (Engine.memtable (Engine.eng w))) (Engine.eng w)
  ∧ Engine.vars (fst (Engine.Put key value w)) = Engine.vars w.
Proof.
  unfold Engine.Put, WAL.AppendPut.
  match goal with |- context [Engine.flush_if_needed ?x] =>
    destruct (flush_if_needed_stops x) as (-> & -> & _) end.
  done.
Qed.

Lemma Delete_engine (key : string) (w : Engine.world) :
  Engine.eng (fst (Engine.Delete key w))
  = Engine.set_memtable (MemTable.Delete key (Engine.memtable (Engine.eng w))) (Engine.eng w)
  ∧ Engine.vars (fst (Engine.Delete key w)) = Engine.vars w.
Proof.
  unfold Engine.Delete, WAL.AppendDelete.
  match goal with |- context [Engine.flush_if_needed ?x] =>
    destruct (flush_if_needed_stops x) as (-> & -> & _) end.
  done.
Qed.

Lemma call_effect (o : MemTable.op) (w : Engine.world) :
  Disk.wal (Engine.disk (History.call w o))
  = WAL.append
      (WAL.encode (WAL.Type_ (History.record_of o)) (WAL.Key (History.record_of o))
         (WAL.Value (History.record_of o)))
      (Engine.wal (Engine.eng w)) (Disk.wal (Engine.disk w))
  ∧ Engine.eng (History.call w o)
    = Engine.set_memtable
        (Engine.apply_record (Engine.memtable (Engine.eng w)) (History.record_of o))
        (Engine.eng w).
Proof.
  destruct o as [key value|key]; simpl.
  - destruct (Put_effect key value w) as [-> _].
    destruct (Put_engine key value w) as [-> _]. done.
  - destruct (Delete_effect key w) as [-> _].
    destruct (Delete_engine key w) as [-> _]. done.
Qed.

Lemma call_in_step (rs : list WAL.WALRecord) (o : MemTable.op) (w : Engine.world) :
  History.in_step rs w → History.op_ok o →
  History.in_step (rs ++ [History.record_of o]) (History.call w o).
Proof.
  intros (Hok & Hfile & Hmem) Ho. destruct (call_effect o w) as [Hw He].
  split; [|split].
  - apply Forall_app. split; [done|]. by apply Forall_singleton.
  - rewrite Hw, He. simpl. unfold WAL.append, WAL.content.
    rewrite lookup_insert_eq, Hfile. simpl.
    rewrite wal_bytes_app. simpl. by rewrite append_nil_r.
  - rewrite He. simpl. rewrite Hmem. by rewrite fold_left_app.
Qed.

Lemma calls_in_step (ops : list MemTable.op) (rs : list WAL.WALRecord) (w : Engine.world) :
  History.in_step rs w → Forall History.op_ok ops →
  History.in_step (rs ++ List.map History.record_of ops) (History.calls ops w).
Proof.
  revert rs w. induction ops as [|o ops IH]; intros rs w Hin Hops.
  - simpl. by rewrite app_nil_r.
  - apply Forall_cons in Hops as [Ho Hops]. simpl.
    replace (rs ++ History.record_of o :: List.map History.record_of ops)
      with ((rs ++ [History.record_of o]) ++ List.map History.record_of ops)
      by (by rewrite <- app_assoc).
    apply IH; [|done]. by apply call_in_step.
Qed.

Lemma fresh_in_step (cfg : Config.t) : History.in_step [] (History.fresh cfg).
Proof. split; [constructor|]. split; reflexivity. Qed.

Lemma start_fresh (cfg : Config.t) :
  Engine.start cfg Disk.empty = Some (History.fresh cfg).
Proof. destruct cfg. vm_compute. reflexivity. Qed.

(** X2.  On an engine started over an empty directory, after any sequence
    of [Put] and [Delete] calls whose keys and values fit the 32-bit
    length prefix, replaying the open WAL segment returns one record per
    call, in call order, and no error. *)
Theorem calls_are_logged_in_order (cfg : Config.t) (ops : list MemTable.op) :
  Forall History.op_ok ops →
  Engine.start cfg Disk.empty = Some (History.fresh cfg)
  ∧ WAL.Replay (Engine.wal (Engine.eng (History.calls ops (History.fresh cfg))))
      (Disk.wal (Engine.disk (History.calls ops (History.fresh cfg))))
    = (List.map History.record_of ops, None).
Proof.
  intros Hops. split; [apply start_fresh|].
  destruct (calls_in_step ops [] _ (fresh_in_step cfg) Hops) as (Hok & Hfile & _).
  by apply Replay_wal_bytes.
Qed.

Lemma calls_are_logged_in_order_witness :
  Forall History.op_ok
    [MemTable.OpPut "a" "1"; MemTable.OpDelete "a"; MemTable.OpPut "b" ""]
  ∧ WAL.Replay
      (Engine.wal (Engine.eng (History.calls
         [MemTable.OpPut "a" "1"; MemTable.OpDelete "a"; MemTable.OpPut "b" ""]
         (History.fresh Config.defaults))))
      (Disk.wal (Engine.disk (History.calls
         [MemTable.OpPut "a" "1"; MemTable.OpDelete "a"; MemTable.OpPut "b" ""]
         (History.fresh Config.defaults))))
    = (List.map History.record_of
         [MemTable.OpPut "a" "1"; MemTable.OpDelete "a"; MemTable.OpPut "b" ""], None).
Proof.
  assert (Hops : Forall History.op_ok
    [MemTable.OpPut "a" "1"; MemTable.OpDelete "a"; MemTable.OpPut "b" ""]).
  { repeat constructor; vm_compute; congruence. }
  split; [exact Hops|].
  exact (proj2 (calls_are_logged_in_order Config.defaults _ Hops)).
Defined.

(** X3.  On the same engine the memory table is, after every such sequence
    of calls, exactly what replaying the open segment into an empty table
    gives: the log and the table never drift apart. *)
Theorem memtable_is_replay_of_open_segment (cfg : Config.t) (ops : list MemTable.op) :
  Forall History.op_ok ops →
  fold_left Engine.apply_record
    (fst (WAL.Replay (Engine.wal (Engine.eng (History.calls ops (History.fresh cfg))))
            (Disk.wal (Engine.disk (History.calls ops (History.fresh cfg))))))
    MemTable.NewMemTable
  = Engine.memtable (Engine.eng (History.calls ops (History.fresh cfg))).
Proof.
  intros Hops.
  destruct (calls_in_step ops [] _ (fresh_in_step cfg) Hops) as (Hok & Hfile & Hmem).
  rewrite (Replay_wal_bytes _ _ _ Hfile Hok). simpl. by rewrite Hmem.
Qed.

Lemma memtable_is_replay_of_open_segment_witness :
  Forall History.op_ok
    [MemTable.OpPut "a" "1"; MemTable.OpPut "a" "2"; MemTable.OpDelete "b"]
  ∧ fold_left Engine.apply_record
      (fst (WAL.Replay
         (Engine.wal (Engine.eng (History.calls
            [MemTable.OpPut "a" "1"; MemTable.OpPut "a" "2"; MemTable.OpDelete "b"]
            (History.fresh Config.defaults))))
         (Disk.wal (Engine.disk (History.calls
            [MemTable.OpPut "a" "1"; MemTable.OpPut "a" "2"; MemTable.OpDelete "b"]
            (History.fresh Config.defaults))))))
      MemTable.NewMemTable
    = Engine.memtable (Engine.eng (History.calls
        [MemTable.OpPut "a" "1"; MemTable.OpPut "a" "2"; MemTable.OpDelete "b"]
        (History.fresh Config.defaults))).
Proof.
  assert (Hops : Forall History.op_ok
    [MemTable.OpPut "a" "1"; MemTable.OpPut "a" "2"; MemTable.OpDelete "b"]).
  { repeat constructor; vm_compute; congruence. }
  split; [exact Hops|].
  exact (memtable_is_replay_of_open_segment Config.defaults _ Hops).
Defined.


(** ** Reading back through the engine *)

Lemma call_keeps_other_keys (o : MemTable.op) (w : Engine.world) (key : string) :
  History.op_key o ≠ key →
  MemTable.data (Engine.memtable (Engine.eng (History.call w o))) !! key
  = MemTable.data (Engine.memtable (Engine.eng w)) !! key.
Proof.
  intros Hne. destruct (call_effect o w) as [_ ->]. simpl.
  destruct o as [key' value|key']; simpl in *; unfold Engine.apply_record; simpl.
  - unfold MemTable.Put. simpl. by rewrite lookup_insert_ne.
  - unfold MemTable.Delete.
    destruct (MemTable.data (Engine.memtable (Engine.eng w)) !! key'); [|done].
    simpl. by rewrite lookup_delete_ne.
Qed.

Lemma Get_memtable_hit (key value : string) (w : Engine.world) :
  MemTable.data (Engine.memtable (Engine.eng w)) !! key = Some value →
  Engine.Get key w = Some (value, true).
Proof. intros H. unfold Engine.Get, MemTable.Get. by rewrite H. Qed.

(** X4.  Read your writes: after [Put(key, value)] on any engine state,
    and after any further [Put] and [Delete] calls on other keys, [Get]
    returns [(value, true)] for the key. *)
Theorem Put_then_Get
    (key value : string) (w : Engine.world) (ops : list MemTable.op) :
  Forall (fun o => History.op_key o ≠ key) ops →
  Engine.Get key (History.calls ops (fst (Engine.Put key value w))) = Some (value, true).
Proof.
  intros Hops. apply Get_memtable_hit.
  assert (MemTable.data (Engine.memtable (Engine.eng (fst (Engine.Put key value w)))) !! key
          = Some value) as H0.
  { destruct (Put_engine key value w) as [-> _]. simpl. unfold MemTable.Put. simpl.
    apply lookup_insert_eq. }
  revert H0. generalize (fst (Engine.Put key value w)).
  induction ops as [|o ops IH]; intros w0 H0; [done|].
  apply Forall_cons in Hops as [Ho Hops]. simpl. apply IH; [done|].
  by rewrite call_keeps_other_keys.
Qed.

Lemma Put_then_Get_witness :
  Forall (fun o => History.op_key o ≠ "k"%string)
    [MemTable.OpPut "a" "1"; MemTable.OpDelete "b"]
  ∧ Engine.Get "k"
      (History.calls [MemTable.OpPut "a" "1"; MemTable.OpDelete "b"]
         (fst (Engine.Put "k" "v" Scenario.torn_world)))
    = Some ("v"%string, true).
Proof.
  assert (Hops : Forall (fun o => History.op_key o ≠ "k"%string)
                   [MemTable.OpPut "a" "1"; MemTable.OpDelete "b"]).
  { apply Forall_cons; split; [discriminate|].
    apply Forall_cons; split; [discriminate|]. apply Forall_nil_2. }
  split; [exact Hops|].
  exact (Put_then_Get "k" "v" Scenario.torn_world _ Hops).
Defined.

(** X5.  [Put] returns nil as long as the memory table stays below the
    flush threshold, and the error of the failed flush as soon as the
    table reaches it. *)
Theorem Put_error_is_threshold (key value : string) (w : Engine.world) :
  snd (Engine.Put key value w)
  = if Engine.MemTableFlushThreshold (Engine.vars w)
       <=? MemTable.Size (MemTable.Put key value (Engine.memtable (Engine.eng w)))
    then Some ErrGobNoExportedFields
    else None.
Proof.
  unfold Engine.Put, WAL.AppendPut, Engine.flush_if_needed.
  cbn [Engine.vars Engine.eng Engine.memtable Engine.set_memtable].
  destruct (_ <=? _); [|done].
  unfold Engine.flushMemTable.
  cbn [Engine.vars Engine.eng Engine.memtable Engine.set_memtable].
  destruct (decide _) as [Hsize|_]; [|by rewrite WriteSSTable_fails].
  apply map_size_empty_iff in Hsize. unfold MemTable.Snapshot, MemTable.Put in Hsize.
  simpl in Hsize. by apply insert_non_empty in Hsize.
Qed.

(** X6.  With no table loaded, [Delete] followed by [Get] of the same key
    is absent, whatever the memory table held. *)
Theorem Delete_then_Get_without_tables (key : string) (w : Engine.world) :
  Engine.sstables (Engine.eng w) = [] →
  Engine.Get key (fst (Engine.Delete key w)) = Some (EmptyString, false).
Proof.
  intros Hts. unfold Engine.Get.
  destruct (Delete_engine key w) as [-> _]. simpl.
  rewrite MemTable_Delete_then_Get. by rewrite Hts.
Qed.

Lemma Delete_then_Get_without_tables_witness :
  Engine.sstables (Engine.eng (fst (Engine.Put "k" "v" (History.fresh Config.defaults)))) = []
  ∧ Engine.Get "k"
      (fst (Engine.Delete "k" (fst (Engine.Put "k" "v" (History.fresh Config.defaults)))))
    = Some (EmptyString, false).
Proof.
  assert (H : Engine.sstables
                (Engine.eng (fst (Engine.Put "k" "v" (History.fresh Config.defaults)))) = [])
    by (vm_compute; reflexivity).
  split; [exact H|].
  exact (Delete_then_Get_without_tables "k" _ H).
Defined.


(** ** Sorted tables: what [WriteSSTable] writes and what the readers find *)

Lemma encode_all_sst_bytes (keys : list string) (data : gmap string string) (acc : string) :
  fold_left
    (fun acc key => acc +:+ SSTable.encode_entry key (default EmptyString (data !! key)))
    keys acc
  = acc +:+ Layout.sst_bytes
              (List.map (fun key => (key, default EmptyString (data !! key))) keys).
Proof.
  revert acc. induction keys as [|key keys IH]; intros acc; simpl.
  - by rewrite append_nil_r.
  - rewrite IH. by rewrite append_assoc.
Qed.

Lemma WriteSSTable_file (path : SstPath) (data : gmap string string) (d : Disk.t) :
  Disk.sst (fst (SSTable.WriteSSTable path data d)) !! path
  = Some (Layout.sst_bytes (Layout.entries data)).
Proof.
  rewrite WriteSSTable_fails. simpl. rewrite lookup_insert_eq. f_equal.
  unfold SSTable.encode_all. by rewrite encode_all_sst_bytes.
Qed.

Lemma sorted_keys_elem (data : gmap string string) (key : string) :
  key ∈ SSTable.sorted_keys data ↔ is_Some (data !! key).
Proof.
  unfold SSTable.sorted_keys. rewrite merge_sort_Permutation.
  change (List.map fst (map_to_list data)) with ((map_to_list data).*1).
  rewrite list_elem_of_fmap. split.
  - intros [[k v] [-> Hkv]]. exists v. by apply elem_of_map_to_list.
  - intros [v Hv]. exists (key, v). split; [done|]. by apply elem_of_map_to_list.
Qed.

Lemma sorted_keys_NoDup (data : gmap string string) : NoDup (SSTable.sorted_keys data).
Proof.
  unfold SSTable.sorted_keys. rewrite merge_sort_Permutation.
  apply NoDup_fst_map_to_list.
Qed.

Lemma sorted_keys_Sorted (data : gmap string string) :
  StronglySorted String.le (SSTable.sorted_keys data).
Proof.
  apply Sorted_StronglySorted; [apply _|].
  apply (Sorted_merge_sort String.le).
Qed.

Lemma entries_fst (data : gmap string string) :
  (Layout.entries data).*1 = SSTable.sorted_keys data.
Proof.
  unfold Layout.entries. change (List.map ?f ?l) with (f <$> l).
  rewrite <- list_fmap_compose. apply list_fmap_id.
Qed.

Lemma entries_elem (data : gmap string string) (key value : string) :
  (key, value) ∈ Layout.entries data ↔ data !! key = Some value.
Proof.
  unfold Layout.entries. change (List.map ?f ?l) with (f <$> l).
  rewrite list_elem_of_fmap. split.
  - intros [k [[= -> ->] Hk]]. apply sorted_keys_elem in Hk as [v Hv]. by rewrite Hv.
  - intros Hv. exists key. rewrite Hv. split; [done|]. apply sorted_keys_elem. eauto.
Qed.

Lemma entries_fit (data : gmap string string) :
  Layout.data_ok data →
  Forall (fun e => Layout.fits (fst e) ∧ Layout.fits (snd e)) (Layout.entries data).
Proof.
  intros Hok. apply Forall_forall. intros [k v] Hkv. apply entries_elem in Hkv.
  by apply Hok.
Qed.

Lemma sst_bytes_app (es es' : list (string * string)) :
  Layout.sst_bytes (es ++ es') = Layout.sst_bytes es +:+ Layout.sst_bytes es'.
Proof.
  induction es as [|e es IH]; [done|]. simpl. by rewrite IH, append_assoc.
Qed.

Lemma encode_entry_length (key value : string) :
  (8 <= String.length (SSTable.encode_entry key value))%nat.
Proof.
  unfold SSTable.encode_entry, Wire.frame. rewrite !length_append.
  change (String.length (Wire.put_u32 ?z)) with 4%nat. lia.
Qed.

Lemma get_loop_scan (target : string) (es : list (string * string)) (fuel : nat) :
  Forall (fun e => Layout.fits (fst e) ∧ Layout.fits (snd e)) es →
  NoDup es.*1 →
  (String.length (Layout.sst_bytes es) < fuel)%nat →
  SSTable.get_loop fuel target (Layout.sst_bytes es)
  = Some (match list_to_map (M := gmap string string) es !! target with
          | Some value => (value, true, None)
          | None => (EmptyString, false, None)
          end).
Proof.
  revert fuel. induction es as [|[k v] es IH]; intros fuel Hfit Hnd Hfuel.
  - destruct fuel; [lia|]. done.
  - destruct fuel; [lia|]. apply Forall_cons in Hfit as [[Hk Hv] Hfit].
    apply NoDup_cons in Hnd as [Hk' Hnd].
    cbn [SSTable.get_loop Layout.sst_bytes fold_right fst snd].
    rewrite read_entry_encode by done.
    change (fold_right _ EmptyString es) with (Layout.sst_bytes es).
    rewrite list_to_map_cons.
    destruct (String.eqb_spec k target) as [->|Hne].
    + by rewrite lookup_insert_eq.
    + rewrite lookup_insert_ne by done. apply IH; [done..|].
      cbn [Layout.sst_bytes fold_right fst snd] in Hfuel. rewrite length_append in Hfuel.
      change (fold_right _ EmptyString es) with (Layout.sst_bytes es) in Hfuel.
      pose proof (encode_entry_length k v). lia.
Qed.

Lemma list_to_map_entries (data : gmap string string) :
  list_to_map (Layout.entries data) = data.
Proof.
  apply map_eq. intros key. apply option_eq. intros value.
  rewrite <- elem_of_list_to_map, entries_elem; [done|].
  rewrite entries_fst. apply sorted_keys_NoDup.
Qed.

(** X7.  Whatever [WriteSSTable] returns, the data file it wrote answers
    [SSTable.Get] with [(value, true, nil)] for every key of the map and
    [(nil, false, nil)] for every other key (keys and values shorter than
    2^32 bytes). *)
Theorem WriteSSTable_then_Get
    (path : SstPath) (data : gmap string string) (d : Disk.t)
    (table : SSTable.t) (key : string) :
  Layout.data_ok data →
  SSTable.Path table = path →
  SSTable.Get key table (fst (SSTable.WriteSSTable path data d))
  = match data !! key with
    | Some value => (value, true, None)
    | None => (EmptyString, false, None)
    end.
Proof.
  intros Hok Hpath. unfold SSTable.Get. rewrite Hpath, WriteSSTable_file.
  rewrite get_loop_scan.
  - by rewrite list_to_map_entries.
  - by apply entries_fit.
  - rewrite entries_fst. apply sorted_keys_NoDup.
  - lia.
Qed.


Lemma WriteSSTable_then_Get_witness :
  Layout.data_ok {[ "a"%string := "1"%string; "b"%string := EmptyString ]}
  ∧ SSTable.Path Scenario.table0 = SstFlushed 0
  ∧ SSTable.Get "b" Scenario.table0
      (fst (SSTable.WriteSSTable (SstFlushed 0)
              {[ "a"%string := "1"%string; "b"%string := EmptyString ]} Disk.empty))
    = match ({[ "a"%string := "1"%string; "b"%string := EmptyString ]}
               : gmap string string) !! "b"%string with
      | Some value => (value, true, None)
      | None => (EmptyString, false, None)
      end.
Proof.
  assert (H1 : Layout.data_ok {[ "a"%string := "1"%string; "b"%string := EmptyString ]}).
  { unfold Layout.data_ok, Layout.fits. apply (bool_decide_unpack _). vm_compute. exact I. }
  assert (H2 : SSTable.Path Scenario.table0 = SstFlushed 0) by reflexivity.
  split; [exact H1|]. split; [exact H2|].
  exact (WriteSSTable_then_Get (SstFlushed 0) _ Disk.empty Scenario.table0 "b" H1 H2).
Defined.

Lemma le_neq_ltb (a b : string) : String.le a b → a ≠ b → String.ltb a b = true.
Proof.
  unfold String.le, String.leb, String.ltb. intros Hle Hne.
  destruct (String.compare a b) eqn:Hc; [|done|done].
  by apply String.compare_eq_iff in Hc.
Qed.

Lemma ltb_not_leb (a b : string) : String.ltb a b = true → String.leb b a = false.
Proof.
  unfold String.ltb, String.leb. rewrite (String.compare_antisym a b).
  by destruct (String.compare b a).
Qed.

Lemma not_ltb_leb (a b : string) : String.ltb a b = false → String.leb b a = true.
Proof.
  unfold String.ltb, String.leb. rewrite (String.compare_antisym a b).
  by destruct (String.compare b a).
Qed.

Lemma StronglySorted_strict (keys : list string) :
  StronglySorted String.le keys → NoDup keys →
  StronglySorted (fun a b => String.ltb a b = true) keys.
Proof.
  induction 1 as [|k keys Hs IH Hall]; intros Hnd; [constructor|].
  apply NoDup_cons in Hnd as [Hk Hnd]. constructor; [by apply IH|].
  apply Forall_forall. intros k' Hk'. apply le_neq_ltb.
  - by eapply Forall_forall in Hall.
  - intros ->. done.
Qed.

(** X8.  The data file [WriteSSTable] writes holds one entry for every key
    of the map, with the map's value, and the keys are in strictly
    ascending byte order. *)
Theorem WriteSSTable_sorted (path : SstPath) (data : gmap string string) (d : Disk.t) :
  Disk.sst (fst (SSTable.WriteSSTable path data d)) !! path
  = Some (Layout.sst_bytes (Layout.entries data))
  ∧ StronglySorted (fun a b => String.ltb a b = true) (Layout.entries data).*1
  ∧ ∀ key value, (key, value) ∈ Layout.entries data ↔ data !! key = Some value.
Proof.
  split; [apply WriteSSTable_file|]. split; [|apply entries_elem].
  rewrite entries_fst. apply StronglySorted_strict.
  - apply sorted_keys_Sorted.
  - apply sorted_keys_NoDup.
Qed.

Lemma range_loop_scan (s e : string) (es : list (string * string))
    (acc : gmap string string) (fuel : nat) :
  Forall (fun e => Layout.fits (fst e) ∧ Layout.fits (snd e)) es →
  NoDup es.*1 →
  StronglySorted String.le es.*1 →
  (String.length (Layout.sst_bytes es) < fuel)%nat →
  ∃ acc', SSTable.range_loop fuel s e (Layout.sst_bytes es) acc = Some (acc', None)
    ∧ ∀ key, acc' !! key
             = if decide (key ∈ es.*1 ∧ MemTable.in_range s e key = true)
               then list_to_map (M := gmap string string) es !! key
               else acc !! key.
Proof.
  revert acc fuel. induction es as [|[k v] es IH]; intros acc fuel Hfit Hnd Hsort Hfuel.
  - destruct fuel; [lia|]. exists acc. split; [done|]. intros key.
    case_decide as H; [|done]. destruct H as [H _]. by apply elem_of_nil in H.
  - destruct fuel; [lia|]. apply Forall_cons in Hfit as [[Hk Hv] Hfit].
    rewrite fmap_cons in Hnd, Hsort. simpl in Hnd, Hsort.
    apply NoDup_cons in Hnd as [Hk' Hnd].
    apply StronglySorted_inv in Hsort as [Hsort Hall].
    assert (String.length (Layout.sst_bytes es) < fuel)%nat as Hfuel'.
    { cbn [Layout.sst_bytes fold_right fst snd] in Hfuel. rewrite length_append in Hfuel.
      change (fold_right _ EmptyString es) with (Layout.sst_bytes es) in Hfuel.
      pose proof (encode_entry_length k v). lia. }
    cbn [SSTable.range_loop Layout.sst_bytes fold_right fst snd].
    rewrite read_entry_encode by done.
    change (fold_right _ EmptyString es) with (Layout.sst_bytes es).
    destruct (String.ltb k s) eqn:Hks; [|destruct (String.ltb e k) eqn:Hek].
    + (* below the range: skipped *)
      destruct (IH acc fuel Hfit Hnd Hsort Hfuel') as (acc' & -> & Hacc).
      exists acc'. split; [done|]. intros key. rewrite Hacc.
      apply ltb_not_leb in Hks.
      destruct (decide (key = k)) as [->|Hne].
      * rewrite !decide_False; [done| |].
        -- intros [_ Hr]. unfold MemTable.in_range in Hr. by rewrite Hks in Hr.
        -- intros [Hin _]. done.
      * rewrite list_to_map_cons, lookup_insert_ne by done.
        apply decide_ext. rewrite fmap_cons, elem_of_cons. simpl. intuition congruence.
    + (* above the range: the loop stops, and so does every later key *)
      exists acc. split; [done|]. intros key. rewrite decide_False; [done|].
      intros [Hin Hr]. apply ltb_not_leb in Hek.
      unfold MemTable.in_range in Hr. apply andb_true_iff in Hr as [_ Hr].
      rewrite fmap_cons in Hin. apply elem_of_cons in Hin as [->|Hin]; simpl in *.
      * by rewrite Hek in Hr.
      * assert (String.le k key) as Hle by (by eapply Forall_forall in Hall).
        assert (String.le k e) as Hke.
        { etrans; [exact Hle|]. unfold String.le. by rewrite Hr. }
        unfold String.le in Hke. by rewrite Hek in Hke.
    + (* inside the range: stored *)
      destruct (IH (<[k:=v]> acc) fuel Hfit Hnd Hsort Hfuel') as (acc' & -> & Hacc).
      exists acc'. split; [done|]. intros key. rewrite Hacc.
      apply not_ltb_leb in Hks, Hek.
      destruct (decide (key = k)) as [->|Hne].
      * rewrite decide_False by (intros [Hin _]; done).
        rewrite decide_True.
        -- by rewrite list_to_map_cons, !lookup_insert_eq.
        -- split; [rewrite fmap_cons; left|].
           unfold MemTable.in_range. by rewrite Hks, Hek.
      * rewrite list_to_map_cons, !lookup_insert_ne by done.
        apply decide_ext. rewrite fmap_cons, elem_of_cons. simpl. intuition congruence.
Qed.

(** X9.  On the data file [WriteSSTable] wrote, [SSTable.Range] returns
    exactly the entries of the map whose keys lie in [[start, end]], and
    no error: stopping at the first key above [end] loses nothing (keys
    and values shorter than 2^32 bytes). *)
Theorem WriteSSTable_then_Range
    (path : SstPath) (data : gmap string string) (d : Disk.t)
    (table : SSTable.t) (start end_ : string) :
  Layout.data_ok data →
  SSTable.Path table = path →
  SSTable.Range start end_ table (fst (SSTable.WriteSSTable path data d))
  = (filter (fun kv => MemTable.in_range start end_ (fst kv) = true) data, None).
Proof.
  intros Hok Hpath. unfold SSTable.Range. rewrite Hpath, WriteSSTable_file.
  destruct (range_loop_scan start end_ (Layout.entries data) ∅
              (S (String.length (Layout.sst_bytes (Layout.entries data)))))
    as (acc' & -> & Hacc).
  - by apply entries_fit.
  - rewrite entries_fst. apply sorted_keys_NoDup.
  - rewrite entries_fst. apply sorted_keys_Sorted.
  - lia.
  - simpl. f_equal. apply map_eq. intros key. rewrite Hacc.
    rewrite list_to_map_entries, entries_fst, lookup_empty.
    apply option_eq. intros value. rewrite map_lookup_filter_Some. simpl.
    case_decide as H.
    + destruct H as [_ Hr]. tauto.
    + split; [done|]. intros [Hv Hr]. destruct H. split; [|done].
      apply sorted_keys_elem. eauto.
Qed.

Lemma WriteSSTable_then_Range_witness :
  Layout.data_ok {[ "a"%string := "1"%string; "c"%string := "3"%string;
                    "e"%string := EmptyString ]}
  ∧ SSTable.Path Scenario.table0 = SstFlushed 0
  ∧ SSTable.Range "b" "d" Scenario.table0
      (fst (SSTable.WriteSSTable (SstFlushed 0)
              {[ "a"%string := "1"%string; "c"%string := "3"%string;
                 "e"%string := EmptyString ]} Disk.empty))
    = (filter (fun kv => MemTable.in_range "b" "d" (fst kv) = true)
         ({[ "a"%string := "1"%string; "c"%string := "3"%string;
             "e"%string := EmptyString ]} : gmap string string), None).
Proof.
  assert (H1 : Layout.data_ok {[ "a"%string := "1"%string; "c"%string := "3"%string;
                                 "e"%string := EmptyString ]}).
  { unfold Layout.data_ok, Layout.fits. apply (bool_decide_unpack _). vm_compute. exact I. }
  assert (H2 : SSTable.Path Scenario.table0 = SstFlushed 0) by reflexivity.
  split; [exact H1|]. split; [exact H2|].
  exact (WriteSSTable_then_Range (SstFlushed 0) _ Disk.empty Scenario.table0 "b" "d" H1 H2).
Defined.


(** ** Truncation of the log *)

(** X10.  [Truncate(before)] removes exactly the segments whose id is below
    [before], leaves the others with their contents, and returns nil; two
    truncations in a row remove what one truncation at the larger bound
    removes, so repeating a truncation changes nothing. *)
Theorem Truncate_exact (before before' : Z) (files : gmap Z string) :
  (∀ id c, fst (WAL.Truncate before files) !! id = Some c
           ↔ files !! id = Some c ∧ before <= id)
  ∧ snd (WAL.Truncate before files) = None
  ∧ fst (WAL.Truncate before' (fst (WAL.Truncate before files)))
    = fst (WAL.Truncate (Z.max before before') files).
Proof.
  split; [|split; [done|]].
  - intros id c. unfold WAL.Truncate. simpl. rewrite map_lookup_filter_Some. simpl.
    intuition lia.
  - unfold WAL.Truncate. simpl. apply map_eq. intros id. apply option_eq. intros c.
    rewrite !map_lookup_filter_Some. simpl. intuition lia.
Qed.

(** ** The membership filter at its edges *)

(** X11.  A filter as [NewBloomFilter] makes it, with at least one byte and
    at least one probe, answers false for every key. *)
Theorem NewBloomFilter_rejects_all (size k : Z) (key : string) :
  0 < size < 2 ^ 61 → 0 < k →
  ∃ b, BloomFilter.NewBloomFilter size k = Some b
       ∧ BloomFilter.MightContain key b = Some false.
Proof.
  intros Hsize Hk. unfold BloomFilter.NewBloomFilter.
  destruct (Z.ltb_spec size 0); [lia|]. eexists. split; [reflexivity|].
  unfold BloomFilter.MightContain, BloomFilter.rounds. simpl.
  destruct (Z.to_nat k) as [|n] eqn:Hn; [lia|]. simpl.
  rewrite length_replicate.
  destruct (probe_defined (Z.to_nat size) key 0) as [[byteIdx bitIdx] Hp].
  { unfold uint64. rewrite Z2Nat.id by lia. rewrite Z.mod_small; lia. }
  rewrite Hp. apply probe_range in Hp as [Hlt _]. simpl in Hlt.
  rewrite lookup_replicate_2 by done. by rewrite Z.land_0_l.
Qed.

Lemma NewBloomFilter_rejects_all_witness :
  0 < 1024 < 2 ^ 61 ∧ 0 < 3
  ∧ ∃ b, BloomFilter.NewBloomFilter 1024 3 = Some b
         ∧ BloomFilter.MightContain "anything" b = Some false.
Proof.
  split; [lia|]. split; [lia|].
  apply (NewBloomFilter_rejects_all 1024 3 "anything"); lia.
Defined.

(** X12.  The filter [LoadBloomFilter] returns for an existing sidecar file,
    whatever the file holds, answers true for every key: a loaded filter
    never lets [Get] skip a table. *)
Theorem loaded_filter_accepts_all
    (path : SstPath) (dir : gmap SstPath Gob.stream) (bf : BloomFilter.t) (key : string) :
  fst (BloomFilter.LoadBloomFilter path dir) = Some bf →
  BloomFilter.MightContain key bf = Some true.
Proof. intros H. by apply LoadBloomFilter_zero in H as ->. Qed.

Lemma loaded_filter_accepts_all_witness :
  fst (BloomFilter.LoadBloomFilter (SstFlushed 0)
         (fst (BloomFilter.Save (SstFlushed 0) SSTable.newFilter ∅)))
  = Some BloomFilter.zero
  ∧ BloomFilter.MightContain "k" BloomFilter.zero = Some true.
Proof.
  assert (H : fst (BloomFilter.LoadBloomFilter (SstFlushed 0)
                     (fst (BloomFilter.Save (SstFlushed 0) SSTable.newFilter ∅)))
              = Some BloomFilter.zero) by (vm_compute; reflexivity).
  split; [exact H|].
  exact (loaded_filter_accepts_all (SstFlushed 0) _ BloomFilter.zero "k" H).
Defined.

Lemma lor_pow2_set (x b : Z) : 0 <= b → Z.testbit x b = true → Z.lor x (2 ^ b) = x.
Proof.
  intros Hb Hx. apply Z.bits_inj'. intros n Hn.
  rewrite Z.lor_spec, Z.pow2_bits_eqb by lia.
  destruct (Z.eqb_spec b n) as [->|]; [by rewrite Hx|apply orb_false_r].
Qed.

Lemma add_loop_fixed (key : string) (rs : list nat) (bs : list Z) :
  (∀ i, i ∈ rs → ∃ p, BloomFilter.probe (length bs) key i = Some p
                      ∧ BloomFilter.bit_on bs p) →
  BloomFilter.add_loop key rs bs = Some bs.
Proof.
  induction rs as [|i rs IH]; intros Hset; simpl; [done|].
  destruct (Hset i) as [[byteIdx bitIdx] [Hp (x & Hx & Hbit)]]; [left|].
  simpl in Hx, Hbit. rewrite Hp, Hx.
  apply probe_range in Hp as [_ Hb]. simpl in Hb.
  rewrite mask_pow2, lor_pow2_set by (done || lia).
  rewrite list_insert_id by done. apply IH. intros j Hj. apply Hset. by right.
Qed.

(** X13.  Adding a key that was just added leaves the filter as it is. *)
Theorem Add_twice (key : string) (b b1 : BloomFilter.t) :
  BloomFilter.Add key b = Some b1 → BloomFilter.Add key b1 = Some b1.
Proof.
  intros HA. pose proof (BloomFilter_Add_rounds _ _ _ HA) as Hr.
  unfold BloomFilter.Add in *. rewrite Hr.
  destruct (BloomFilter.add_loop key (BloomFilter.rounds b) (BloomFilter.bits b))
    as [bs|] eqn:Hl; [|discriminate].
  injection HA as <-. simpl.
  apply add_loop_spec in Hl as (Hlen & _ & Hset).
  rewrite add_loop_fixed; [done|]. intros i Hi. rewrite Hlen. auto.
Qed.

Lemma Add_twice_witness :
  BloomFilter.Add "k" {| BloomFilter.bits := [0; 0; 0; 0]; BloomFilter.k := 3 |}
  = Some {| BloomFilter.bits := [32; 4; 0; 16]; BloomFilter.k := 3 |}
  ∧ BloomFilter.Add "k" {| BloomFilter.bits := [32; 4; 0; 16]; BloomFilter.k := 3 |}
    = Some {| BloomFilter.bits := [32; 4; 0; 16]; BloomFilter.k := 3 |}.
Proof.
  assert (H : BloomFilter.Add "k" {| BloomFilter.bits := [0; 0; 0; 0]; BloomFilter.k := 3 |}
              = Some {| BloomFilter.bits := [32; 4; 0; 16]; BloomFilter.k := 3 |})
    by (vm_compute; reflexivity).
  split; [exact H|]. exact (Add_twice "k" _ _ H).
Defined.


(** ** Range reads through the engine *)

Lemma range_loop_sound (fuel : nat) (s e input : string) (acc acc' : gmap string string) :
  SSTable.range_loop fuel s e input acc = Some (acc', None) →
  (∀ key value, acc !! key = Some value → is_Some (acc' !! key))
  ∧ ∀ key value, acc' !! key = Some value →
      acc !! key = Some value ∨ MemTable.in_range s e key = true.
Proof.
  revert input acc. induction fuel as [|fuel IH]; intros input acc; simpl; [discriminate|].
  destruct (Wire.read_entry input) as [| |[k v] rest].
  - intros [= <-]. split; eauto.
  - discriminate.
  - destruct (String.ltb k s) eqn:Hks; [apply IH|].
    destruct (String.ltb e k) eqn:Hek; [intros [= <-]; split; eauto|].
    intros Hl. apply IH in Hl as [Hkeep Hin]. split.
    + intros key value Hk. destruct (decide (key = k)) as [->|Hne].
      * apply (Hkeep k v). apply lookup_insert_eq.
      * apply (Hkeep key value). by rewrite lookup_insert_ne.
    + intros key value Hk. destruct (Hin key value Hk) as [Hacc|Hr]; [|by right].
      destruct (decide (key = k)) as [->|Hne].
      * right. unfold MemTable.in_range.
        by rewrite (not_ltb_leb _ _ Hks), (not_ltb_leb _ _ Hek).
      * left. by rewrite lookup_insert_ne in Hacc.
Qed.

Lemma SSTable_Range_in_range (s e : string) (t : SSTable.t) (d : Disk.t)
    (data : gmap string string) (key value : string) :
  SSTable.Range s e t d = (data, None) → data !! key = Some value →
  MemTable.in_range s e key = true.
Proof.
  unfold SSTable.Range. destruct (Disk.sst d !! SSTable.Path t) as [input|]; [|discriminate].
  destruct (range_loop_fuel (S (String.length input)) s e input ∅) as [[acc' err] Hl]; [lia|].
  rewrite Hl. simpl. intros [= -> ->] Hk.
  apply range_loop_sound in Hl as [_ Hin].
  destruct (Hin key value Hk) as [Habs|]; [|done]. by rewrite lookup_empty in Habs.
Qed.

Lemma range_tables_sound (s e : string) (d : Disk.t) (ts : list SSTable.t)
    (result result' : gmap string string) :
  Engine.range_tables s e d ts result = (result', None) →
  (∀ key value, result !! key = Some value → result' !! key = Some value)
  ∧ ∀ key value, result' !! key = Some value →
      result !! key = Some value ∨ MemTable.in_range s e key = true.
Proof.
  revert result. induction ts as [|t ts IH]; intros result; simpl.
  - intros [= <-]. split; eauto.
  - destruct (SSTable.Range s e t d) as [data [err|]] eqn:Hr; [discriminate|].
    intros Hl. apply IH in Hl as [Hkeep Hin]. split.
    + intros key value Hk. apply Hkeep. by apply lookup_union_Some_l.
    + intros key value Hk. destruct (Hin key value Hk) as [Hu|]; [|by right].
      apply lookup_union_Some_raw in Hu as [Hu|[_ Hu]]; [by left|].
      right. by eapply SSTable_Range_in_range.
Qed.

(** X14.  When [ReadKeyRange] returns without an error, every key of the
    result lies in [[start, end]] and no value of the result is empty. *)
Theorem ReadKeyRange_sound
    (start end_ : string) (w : Engine.world) (result : gmap string string)
    (key value : string) :
  Engine.ReadKeyRange start end_ w = (result, None) →
  result !! key = Some value →
  MemTable.in_range start end_ key = true ∧ value ≠ EmptyString.
Proof.
  unfold Engine.ReadKeyRange.
  destruct (Engine.range_tables _ _ _ _ _) as [merged [err|]] eqn:Hm; [discriminate|].
  intros [= <-] Hk. unfold Engine.strip_tombstones in Hk.
  apply map_lookup_filter_Some in Hk as [Hk Hlen]. simpl in Hlen. split.
  - apply range_tables_sound in Hm as [_ Hin].
    destruct (Hin key value Hk) as [Hmem|]; [|done].
    unfold MemTable.Range in Hmem. by apply map_lookup_filter_Some in Hmem as [_ ?].
  - intros ->. done.
Qed.

Lemma ReadKeyRange_sound_witness :
  Engine.ReadKeyRange "a" "n" Tiers.world
  = ({[ "a"%string := "1"%string; "b"%string := "2"%string ]}, None)
  ∧ ({[ "a"%string := "1"%string; "b"%string := "2"%string ]} : gmap string string)
      !! "a"%string = Some "1"%string
  ∧ MemTable.in_range "a" "n" "a" = true ∧ "1"%string ≠ EmptyString.
Proof.
  assert (H1 : Engine.ReadKeyRange "a" "n" Tiers.world
               = ({[ "a"%string := "1"%string; "b"%string := "2"%string ]}, None))
    by (vm_compute; reflexivity).
  assert (H2 : ({[ "a"%string := "1"%string; "b"%string := "2"%string ]}
                  : gmap string string) !! "a"%string = Some "1"%string)
    by (vm_compute; reflexivity).
  split; [exact H1|]. split; [exact H2|].
  exact (ReadKeyRange_sound "a" "n" Tiers.world _ "a" "1" H1 H2).
Defined.

(** X15.  In [ReadKeyRange] the memory table decides for the keys it holds:
    a key in range with a non-empty value comes back with that value, and
    a key in range with an empty value is left out, whatever the tables on
    disk hold for it. *)
Theorem ReadKeyRange_memtable_first
    (start end_ : string) (w : Engine.world) (result : gmap string string)
    (key value : string) :
  Engine.ReadKeyRange start end_ w = (result, None) →
  MemTable.data (Engine.memtable (Engine.eng w)) !! key = Some value →
  MemTable.in_range start end_ key = true →
  result !! key = if len value =? 0 then None else Some value.
Proof.
  unfold Engine.ReadKeyRange.
  destruct (Engine.range_tables _ _ _ _ _) as [merged [err|]] eqn:Hm; [discriminate|].
  intros [= <-] Hk Hr.
  assert (merged !! key = Some value) as Hmk.
  { apply range_tables_sound in Hm as [Hkeep _]. apply Hkeep.
    unfold MemTable.Range. by apply map_lookup_filter_Some. }
  unfold Engine.strip_tombstones. destruct (Z.eqb_spec (len value) 0) as [H0|H0].
  - apply map_lookup_filter_None. right. intros v Hv. simpl. congruence.
  - by apply map_lookup_filter_Some.
Qed.

Lemma ReadKeyRange_memtable_first_witness :
  Engine.ReadKeyRange "a" "z" Tiers.world
  = ({[ "a"%string := "1"%string; "b"%string := "2"%string; "x"%string := "9"%string ]}, None)
  ∧ MemTable.data (Engine.memtable (Engine.eng Tiers.world)) !! "c"%string
    = Some EmptyString
  ∧ MemTable.in_range "a" "z" "c" = true
  ∧ ({[ "a"%string := "1"%string; "b"%string := "2"%string; "x"%string := "9"%string ]}
       : gmap string string) !! "c"%string
    = if len EmptyString =? 0 then None else Some EmptyString.
Proof.
  assert (H1 : Engine.ReadKeyRange "a" "z" Tiers.world
               = ({[ "a"%string := "1"%string; "b"%string := "2"%string;
                     "x"%string := "9"%string ]}, None))
    by (vm_compute; reflexivity).
  assert (H2 : MemTable.data (Engine.memtable (Engine.eng Tiers.world)) !! "c"%string
               = Some EmptyString) by (vm_compute; reflexivity).
  assert (H3 : MemTable.in_range "a" "z" "c" = true) by reflexivity.
  split; [exact H1|]. split; [exact H2|]. split; [exact H3|].
  exact (ReadKeyRange_memtable_first "a" "z" Tiers.world _ "c" EmptyString H1 H2 H3).
Defined.

Lemma range_tables_error (s e : string) (d : Disk.t) (ts : list SSTable.t)
    (t : SSTable.t) (err : error) (result : gmap string string) :
  t ∈ ts → snd (SSTable.Range s e t d) = Some err →
  ∃ err', Engine.range_tables s e d ts result = (∅, Some err').
Proof.
  intros Ht Herr. revert result. induction ts as [|t' ts IH]; intros result.
  - by apply elem_of_nil in Ht.
  - simpl. destruct (SSTable.Range s e t' d) as [data [err'|]] eqn:Hr; [eauto|].
    apply elem_of_cons in Ht as [->|Ht]; [rewrite Hr in Herr; discriminate|].
    by apply IH.
Qed.

(** X16.  Unlike [Get], [ReadKeyRange] gives up on the first table whose
    scan fails: if the range read of any loaded table returns an error,
    [ReadKeyRange] returns no entries and an error, also when the memory
    table or other tables hold keys of the range. *)
Theorem ReadKeyRange_propagates_error
    (start end_ : string) (w : Engine.world) (t : SSTable.t) (err : error) :
  t ∈ Engine.sstables (Engine.eng w) →
  snd (SSTable.Range start end_ t (Engine.disk w)) = Some err →
  ∃ err', Engine.ReadKeyRange start end_ w = (∅, Some err').
Proof.
  intros Ht Herr. unfold Engine.ReadKeyRange.
  destruct (range_tables_error start end_ (Engine.disk w)
              (rev (Engine.sstables (Engine.eng w))) t err
              (MemTable.Range start end_ (Engine.memtable (Engine.eng w))))
    as [err' ->]; [|done|eauto].
  apply list_elem_of_In, in_rev. rewrite rev_involutive. by apply list_elem_of_In.
Qed.

Lemma ReadKeyRange_propagates_error_witness :
  Scenario.table1 ∈ Engine.sstables (Engine.eng Scenario.torn_world)
  ∧ snd (SSTable.Range "a" "z" Scenario.table1 (Engine.disk Scenario.torn_world))
    = Some ErrUnexpectedEOF
  ∧ ∃ err', Engine.ReadKeyRange "a" "z" Scenario.torn_world = (∅, Some err').
Proof.
  assert (H1 : Scenario.table1 ∈ Engine.sstables (Engine.eng Scenario.torn_world)).
  { simpl. right. left. }
  assert (H2 : snd (SSTable.Range "a" "z" Scenario.table1 (Engine.disk Scenario.torn_world))
               = Some ErrUnexpectedEOF) by (vm_compute; reflexivity).
  split; [exact H1|]. split; [exact H2|].
  exact (ReadKeyRange_propagates_error "a" "z" Scenario.torn_world Scenario.table1 _ H1 H2).
Defined.


(** ** Batch writes *)

Lemma put_all_other (order : list (string * string)) (m : MemTable.t) (key : string) :
  key ∉ order.*1 →
  MemTable.data (Batch.put_all order m) !! key = MemTable.data m !! key.
Proof.
  revert m. induction order as [|[k v] order IH]; intros m Hk; [done|].
  rewrite fmap_cons in Hk. apply not_elem_of_cons in Hk as [Hne Hk]. simpl in Hne.
  unfold Batch.put_all in *. simpl. rewrite IH by done.
  unfold MemTable.Put. simpl. by rewrite lookup_insert_ne.
Qed.

Lemma put_all_data (order : list (string * string)) (m : MemTable.t) :
  NoDup order.*1 →
  MemTable.data (Batch.put_all order m) = list_to_map order ∪ MemTable.data m.
Proof.
  revert m. induction order as [|[k v] order IH]; intros m Hnd.
  - simpl. by rewrite (left_id_L ∅ (∪)).
  - rewrite fmap_cons in Hnd. apply NoDup_cons in Hnd as [Hk Hnd].
    unfold Batch.put_all in *. simpl. rewrite IH by done.
    unfold MemTable.Put at 1. simpl.
    apply map_eq. intros key. destruct (decide (key = k)) as [->|Hne].
    + rewrite lookup_union_r by (by apply not_elem_of_list_to_map).
      rewrite lookup_insert_eq. symmetry. apply lookup_union_Some_l.
      apply lookup_insert_eq.
    + rewrite !lookup_union, lookup_insert_ne by done.
      by rewrite (lookup_insert_ne (list_to_map order)) by done.
Qed.

Lemma listing_to_map (entries : gmap string string) (order : list (string * string)) :
  Batch.listing entries order →
  NoDup order.*1 ∧ list_to_map order = entries.
Proof.
  intros Hl. unfold Batch.listing in Hl. split.
  - rewrite Hl. apply NoDup_fst_map_to_list.
  - rewrite <- (list_to_map_to_list entries). apply list_to_map_proper; [|done].
    rewrite Hl. apply NoDup_fst_map_to_list.
Qed.

Lemma BatchPut_engine (walOrder memOrder : list (string * string)) (w : Engine.world) :
  Engine.eng (fst (Batch.BatchPut walOrder memOrder w))
  = Engine.set_memtable (Batch.put_all memOrder (Engine.memtable (Engine.eng w)))
      (Engine.eng w)
  ∧ Disk.wal (Engine.disk (fst (Batch.BatchPut walOrder memOrder w)))
    = WAL.append (Batch.batch_bytes walOrder) (Engine.wal (Engine.eng w))
        (Disk.wal (Engine.disk w)).
Proof.
  unfold Batch.BatchPut, Batch.AppendBatch.
  match goal with |- context [Engine.flush_if_needed ?x] =>
    destruct (flush_if_needed_stops x) as (-> & _ & ->) end.
  done.
Qed.

(** X17.  After [BatchPut(entries)] the memory table holds the entries of
    the batch on top of what it held before, in whatever order the two
    loops visit the map, and [Get] returns [(value, true)] for every key
    of the batch. *)
Theorem BatchPut_then_Get
    (entries : gmap string string) (walOrder memOrder : list (string * string))
    (w : Engine.world) (key value : string) :
  Batch.listing entries memOrder →
  entries !! key = Some value →
  MemTable.data (Engine.memtable (Engine.eng (fst (Batch.BatchPut walOrder memOrder w))))
  = entries ∪ MemTable.data (Engine.memtable (Engine.eng w))
  ∧ Engine.Get key (fst (Batch.BatchPut walOrder memOrder w)) = Some (value, true).
Proof.
  intros Hl Hk. apply listing_to_map in Hl as [Hnd Hmap].
  assert (MemTable.data
            (Engine.memtable (Engine.eng (fst (Batch.BatchPut walOrder memOrder w))))
          = entries ∪ MemTable.data (Engine.memtable (Engine.eng w))) as Hdata.
  { destruct (BatchPut_engine walOrder memOrder w) as [-> _]. simpl.
    rewrite put_all_data by done. by rewrite Hmap. }
  split; [done|]. apply Get_memtable_hit. rewrite Hdata.
  by apply lookup_union_Some_l.
Qed.

Lemma BatchPut_then_Get_witness :
  Batch.listing {[ "a"%string := "1"%string; "b"%string := "2"%string ]}
    [("b", "2"); ("a", "1")]%string
  ∧ ({[ "a"%string := "1"%string; "b"%string := "2"%string ]} : gmap string string)
      !! "a"%string = Some "1"%string
  ∧ MemTable.data (Engine.memtable (Engine.eng (fst
      (Batch.BatchPut [("a", "1"); ("b", "2")]%string [("b", "2"); ("a", "1")]%string
         Tiers.world))))
    = {[ "a"%string := "1"%string; "b"%string := "2"%string ]}
      ∪ MemTable.data (Engine.memtable (Engine.eng Tiers.world))
  ∧ Engine.Get "a" (fst
      (Batch.BatchPut [("a", "1"); ("b", "2")]%string [("b", "2"); ("a", "1")]%string
         Tiers.world))
    = Some ("1"%string, true).
Proof.
  assert (H1 : Batch.listing {[ "a"%string := "1"%string; "b"%string := "2"%string ]}
                 [("b", "2"); ("a", "1")]%string).
  { unfold Batch.listing.
    assert (map_to_list ({[ "a"%string := "1"%string; "b"%string := "2"%string ]}
                           : gmap string string)
            = [("b", "2"); ("a", "1")]%string
            ∨ map_to_list ({[ "a"%string := "1"%string; "b"%string := "2"%string ]}
                             : gmap string string)
              = [("a", "1"); ("b", "2")]%string) as [-> | ->].
    { vm_compute. tauto. }
    - reflexivity.
    - apply Permutation_swap. }
  assert (H2 : ({[ "a"%string := "1"%string; "b"%string := "2"%string ]}
                  : gmap string string) !! "a"%string = Some "1"%string)
    by (vm_compute; reflexivity).
  split; [exact H1|]. split; [exact H2|].
  exact (BatchPut_then_Get _ [("a", "1"); ("b", "2")]%string _ Tiers.world "a" "1" H1 H2).
Defined.

Lemma batch_bytes_wal_bytes (order : list (string * string)) (acc : string) :
  fold_left (fun acc kv => acc +:+ WAL.encode WAL.PutRecord (fst kv) (snd kv)) order acc
  = acc +:+ Layout.wal_bytes
              (List.map (fun kv => History.record_of (MemTable.OpPut (fst kv) (snd kv)))
                 order).
Proof.
  revert acc. induction order as [|[k v] order IH]; intros acc; simpl.
  - by rewrite append_nil_r.
  - rewrite IH. by rewrite append_assoc.
Qed.

(** X18.  [BatchPut] appends one PUT record per entry to the open segment,
    in the order [AppendBatch] visits the map, after the records that
    were there: the replay of the segment returns the old records followed
    by those of the batch. *)
Theorem BatchPut_is_logged
    (walOrder memOrder : list (string * string)) (w : Engine.world)
    (rs : list WAL.WALRecord) :
  Disk.wal (Engine.disk w) !! WAL.segment (Engine.wal (Engine.eng w))
    = Some (Layout.wal_bytes rs) →
  Forall Layout.record_ok rs →
  Forall (fun kv => Layout.fits (fst kv) ∧ Layout.fits (snd kv)) walOrder →
  WAL.Replay (Engine.wal (Engine.eng (fst (Batch.BatchPut walOrder memOrder w))))
    (Disk.wal (Engine.disk (fst (Batch.BatchPut walOrder memOrder w))))
  = (rs ++ List.map (fun kv => History.record_of (MemTable.OpPut (fst kv) (snd kv)))
             walOrder, None).
Proof.
  intros Hfile Hok Hfit. destruct (BatchPut_engine walOrder memOrder w) as [-> ->].
  simpl. apply Replay_wal_bytes.
  - unfold WAL.append, WAL.content. rewrite lookup_insert_eq, Hfile. simpl.
    unfold Batch.batch_bytes. rewrite batch_bytes_wal_bytes, wal_bytes_app. done.
  - apply Forall_app. split; [done|]. apply Forall_fmap.
    eapply Forall_impl; [exact Hfit|]. intros [k v] [Hk Hv]. simpl.
    unfold Layout.record_ok. simpl. unfold WAL.PutRecord. split; [lia|done].
Qed.

Lemma BatchPut_is_logged_witness :
  Disk.wal (Engine.disk (History.fresh Config.defaults))
    !! WAL.segment (Engine.wal (Engine.eng (History.fresh Config.defaults)))
  = Some (Layout.wal_bytes [])
  ∧ Forall Layout.record_ok []
  ∧ Forall (fun kv => Layout.fits (fst kv) ∧ Layout.fits (snd kv))
      [("a", "1"); ("b", "")]%string
  ∧ WAL.Replay
      (Engine.wal (Engine.eng (fst (Batch.BatchPut [("a", "1"); ("b", "")]%string
                                      [("b", ""); ("a", "1")]%string
                                      (History.fresh Config.defaults)))))
      (Disk.wal (Engine.disk (fst (Batch.BatchPut [("a", "1"); ("b", "")]%string
                                      [("b", ""); ("a", "1")]%string
                                      (History.fresh Config.defaults)))))
    = ([] ++ List.map (fun kv => History.record_of (MemTable.OpPut (fst kv) (snd kv)))
               [("a", "1"); ("b", "")]%string, None).
Proof.
  assert (H1 : Disk.wal (Engine.disk (History.fresh Config.defaults))
                 !! WAL.segment (Engine.wal (Engine.eng (History.fresh Config.defaults)))
               = Some (Layout.wal_bytes [])) by (vm_compute; reflexivity).
  assert (H2 : Forall Layout.record_ok []) by constructor.
  assert (H3 : Forall (fun kv => Layout.fits (fst kv) ∧ Layout.fits (snd kv))
                 [("a", "1"); ("b", "")]%string).
  { repeat constructor; vm_compute; congruence. }
  split; [exact H1|]. split; [exact H2|]. split; [exact H3|].
  exact (BatchPut_is_logged _ [("b", ""); ("a", "1")]%string _ [] H1 H2 H3).
Defined.

(** ** Shutdown *)

(** X19.  [Close] flushes only when [Size() > 0].  If the memory table then
    holds an entry, [Close] returns the error of the failed flush and
    leaves the WAL open; in every other case it returns nil with the WAL
    closed.  The engine value is unchanged either way. *)
Theorem Close_outcome (w : Engine.world) :
  Engine.eng (fst (fst (Batch.Close w))) = Engine.eng w
  ∧ (snd (fst (Batch.Close w)), snd (Batch.Close w))
    = if (0 <? MemTable.Size (Engine.memtable (Engine.eng w)))
         && negb (bool_decide (MemTable.data (Engine.memtable (Engine.eng w)) = ∅))
      then (Some ErrGobNoExportedFields, false)
      else (None, true).
Proof.
  unfold Batch.Close. destruct (0 <? _); simpl; [|done].
  unfold Engine.flushMemTable, MemTable.Snapshot.
  destruct (decide _) as [Hsize|Hsize].
  - apply map_size_empty_iff in Hsize. rewrite bool_decide_eq_true_2 by done. done.
  - rewrite WriteSSTable_fails. simpl.
    rewrite bool_decide_eq_false_2; [done|]. intros H. by rewrite H in Hsize.
Qed.

(** ** The key handler *)

(** X20.  For a non-empty key, [PUT] answers 204 or 500, and in both cases
    a following [GET] of the key answers 200 with the body that was put:
    the 500 of a failed flush does not undo the write. *)
Theorem kvHandler_PUT_then_GET (key reqBody anyBody : string) (w : Engine.world) :
  key ≠ EmptyString →
  ∃ w' r, Server.kvHandler "PUT" key reqBody w = Some (w', r)
    ∧ (Server.status r = 204 ∨ Server.status r = 500)
    ∧ Server.kvHandler "GET" key anyBody w'
      = Some (w', {| Server.status := 200; Server.payload := Server.Text reqBody |}).
Proof.
  intros Hkey. unfold Server.kvHandler.
  destruct (String.eqb_spec key EmptyString) as [|_]; [done|]. simpl.
  assert (Engine.Get key (fst (Engine.Put key reqBody w)) = Some (reqBody, true)) as HG.
  { apply Get_memtable_hit. destruct (Put_engine key reqBody w) as [-> _]. simpl.
    unfold MemTable.Put. simpl. apply lookup_insert_eq. }
  destruct (Engine.Put key reqBody w) as [w' [err|]]; simpl in HG;
    eexists _, _; (split; [reflexivity|]); simpl; rewrite HG; auto.
Qed.

Lemma kvHandler_PUT_then_GET_witness :
  "k"%string ≠ EmptyString
  ∧ ∃ w' r, Server.kvHandler "PUT" "k" "v" Tiers.world = Some (w', r)
      ∧ (Server.status r = 204 ∨ Server.status r = 500)
      ∧ Server.kvHandler "GET" "k" "" w'
        = Some (w', {| Server.status := 200; Server.payload := Server.Text "v" |}).
Proof.
  assert (H : "k"%string ≠ EmptyString) by discriminate.
  split; [exact H|].
  exact (kvHandler_PUT_then_GET "k" "v" "" Tiers.world H).
Defined.


(** ** The sparse index *)

Lemma read_key_exact (key rest : string) :
  SparseIndex.read_key (len key) (key +:+ rest) = (key, rest).
Proof.
  unfold SparseIndex.read_key. destruct (Z.leb_spec (len key) 0) as [H0|H0].
  - destruct key; [done|]. unfold len in H0. simpl in H0. lia.
  - rewrite len_append. pose proof (len_nonneg rest).
    destruct (Z.ltb_spec (len key + len rest) (len key)); [lia|].
    unfold len. rewrite Nat2Z.id. apply split_at_append.
Qed.

Lemma discard_exact (value rest : string) :
  SparseIndex.discard (len value) (value +:+ rest) = rest.
Proof.
  unfold SparseIndex.discard, len. rewrite Nat2Z.id. by rewrite split_at_append.
Qed.

Lemma sst_bytes_len_cons (k v : string) (es : list (string * string)) :
  len (Layout.sst_bytes ((k, v) :: es))
  = 4 + len k + 4 + len v + len (Layout.sst_bytes es).
Proof.
  cbn [Layout.sst_bytes fold_right fst snd].
  change (fold_right _ EmptyString es) with (Layout.sst_bytes es).
  unfold SSTable.encode_entry, Wire.frame. rewrite !len_append.
  change (len (Wire.put_u32 ?z)) with 4. lia.
Qed.

Lemma index_loop_sample (es : list (string * string)) (fuel : nat)
    (offset count : Z) (index : list SparseIndex.IndexEntry) :
  Forall (fun e => Layout.fits (fst e) ∧ Layout.fits (snd e)) es →
  0 <= offset → offset + len (Layout.sst_bytes es) < 2 ^ 63 →
  0 <= count → count + Z.of_nat (length es) < 2 ^ 63 →
  (String.length (Layout.sst_bytes es) < fuel)%nat →
  SparseIndex.index_loop fuel (Layout.sst_bytes es) offset count index
  = Some (index ++ SparseIndex.sample count offset es).
Proof.
  revert fuel offset count index.
  induction es as [|[k v] es IH]; intros fuel offset count index Hfit Ho Ho' Hc Hc' Hfuel.
  - destruct fuel; [lia|]. simpl. by rewrite app_nil_r.
  - destruct fuel; [lia|]. apply Forall_cons in Hfit as [[Hk Hv] Hfit]. simpl in Hk, Hv.
    pose proof (sst_bytes_len_cons k v es) as Hlen.
    pose proof (len_nonneg k). pose proof (len_nonneg v).
    pose proof (len_nonneg (Layout.sst_bytes es)).
    assert (Layout.sst_bytes ((k, v) :: es)
            = Wire.put_u32 (len k) +:+ k +:+ Wire.put_u32 (len v) +:+ v
              +:+ Layout.sst_bytes es) as Hbytes.
    { cbn [Layout.sst_bytes fold_right fst snd].
      change (fold_right _ EmptyString es) with (Layout.sst_bytes es).
      unfold SSTable.encode_entry, Wire.frame. by rewrite !append_assoc. }
    cbn [SparseIndex.index_loop]. rewrite Hbytes.
    rewrite read_u32_put by (unfold Layout.fits in Hk; lia).
    rewrite read_key_exact. unfold SparseIndex.read_valLen.
    rewrite read_u32_put by (unfold Layout.fits in Hv; lia).
    rewrite discard_exact.
    rewrite (int64_small (offset + 4 + len k + 4 + len v)) by lia.
    rewrite (int64_small (count + 1)) by (simpl in Hc'; lia).
    rewrite IH; try done; try lia.
    + cbn [SparseIndex.sample].
      destruct (Z.rem count SparseIndex.IndexInterval =? 0);
        [by rewrite <- app_assoc|done].
    + simpl in Hc'. lia.
    + unfold len in Hlen. lia.
Qed.

Lemma sample_positions (es : list (string * string)) (count offset : Z)
    (ie : SparseIndex.IndexEntry) :
  ie ∈ SparseIndex.sample count offset es ↔
  ∃ (j : nat) (v : string),
    es !! j = Some (SparseIndex.Key ie, v)
    ∧ Z.rem (count + Z.of_nat j) SparseIndex.IndexInterval = 0
    ∧ SparseIndex.Offset ie = offset + len (Layout.sst_bytes (take j es)).
Proof.
  revert count offset. induction es as [|[k v] es IH]; intros count offset.
  - simpl. split; [by intros ?%elem_of_nil|]. by intros (j & v & ? & _).
  - cbn [SparseIndex.sample]. rewrite elem_of_app, IH. split.
    + intros [Hhd|(j & v' & Hj & Hrem & Hoff)].
      * destruct (Z.eqb_spec (Z.rem count SparseIndex.IndexInterval) 0) as [H0|];
          [|by apply elem_of_nil in Hhd].
        apply list_elem_of_singleton in Hhd as ->. exists 0%nat, v. simpl.
        split; [done|]. rewrite Z.add_0_r. split; [done|]. unfold len. simpl. lia.
      * exists (S j), v'. split; [done|]. split.
        { rewrite <- Hrem. f_equal. lia. }
        rewrite Hoff. cbn [take]. rewrite sst_bytes_len_cons. lia.
    + intros (j & v' & Hj & Hrem & Hoff). destruct j as [|j].
      * left. simpl in Hj. injection Hj as Hk <-. rewrite Z.add_0_r in Hrem.
        rewrite Hrem. simpl. destruct ie as [k' o']. simpl in *. subst.
        unfold len. simpl. rewrite Z.add_0_r. left.
      * right. exists j, v'. split; [done|]. split.
        { rewrite <- Hrem. f_equal. lia. }
        rewrite Hoff. cbn [take]. rewrite sst_bytes_len_cons. lia.
Qed.

Lemma skip_take (es : list (string * string)) (j : nat) :
  Layout.skip (Z.to_nat (len (Layout.sst_bytes (take j es)))) (Layout.sst_bytes es)
  = Layout.sst_bytes (drop j es).
Proof.
  rewrite <- (take_drop j es) at 2. rewrite sst_bytes_app.
  unfold Layout.skip, len. rewrite Nat2Z.id. by rewrite split_at_append.
Qed.

(** X21.  On a table file that holds well-formed entries, [LoadIndex]
    returns nil and an index that holds exactly the entries in positions
    0, 128, 256, ... of the file, each with the byte offset at which it
    starts: seeking to an indexed offset and reading one entry gives an
    entry with the indexed key. *)
Theorem LoadIndex_points_at_entries
    (s : SSTable.t) (d : Disk.t) (es : list (string * string)) :
  Disk.sst d !! SSTable.Path s = Some (Layout.sst_bytes es) →
  Forall (fun e => Layout.fits (fst e) ∧ Layout.fits (snd e)) es →
  len (Layout.sst_bytes es) < 2 ^ 63 →
  snd (SparseIndex.LoadIndex s d) = None
  ∧ (∀ ie, ie ∈ fst (SparseIndex.LoadIndex s d) ↔
       ∃ (j : nat) (v : string),
         es !! j = Some (SparseIndex.Key ie, v)
         ∧ Z.rem (Z.of_nat j) SparseIndex.IndexInterval = 0
         ∧ SparseIndex.Offset ie = len (Layout.sst_bytes (take j es)))
  ∧ ∀ ie, ie ∈ fst (SparseIndex.LoadIndex s d) →
      ∃ v rest,
        Wire.read_entry
          (Layout.skip (Z.to_nat (SparseIndex.Offset ie)) (Layout.sst_bytes es))
        = Wire.Got (SparseIndex.Key ie, v) rest.
Proof.
  intros Hfile Hfit Hlen. unfold SparseIndex.LoadIndex. rewrite Hfile.
  assert (Z.of_nat (length es) <= len (Layout.sst_bytes es)) as Hcount.
  { clear. induction es as [|[k v] es IH]; [done|].
    rewrite sst_bytes_len_cons. pose proof (len_nonneg k). pose proof (len_nonneg v).
    simpl length. lia. }
  rewrite (index_loop_sample es _ 0 0 []) by (done || lia).
  cbn [fst snd default from_option id app].
  assert (∀ ie, ie ∈ SparseIndex.sample 0 0 es ↔
       ∃ (j : nat) (v : string),
         es !! j = Some (SparseIndex.Key ie, v)
         ∧ Z.rem (Z.of_nat j) SparseIndex.IndexInterval = 0
         ∧ SparseIndex.Offset ie = len (Layout.sst_bytes (take j es))) as Hpos.
  { intros ie. rewrite sample_positions. by setoid_rewrite Z.add_0_l. }
  split; [done|]. split; [exact Hpos|].
  intros ie (j & v & Hj & _ & Hoff)%Hpos. rewrite Hoff, skip_take.
  rewrite (drop_S _ _ _ Hj). cbn [Layout.sst_bytes fold_right fst snd].
  apply list_elem_of_lookup_2 in Hj.
  rewrite Forall_forall in Hfit. destruct (Hfit _ Hj) as [Hk Hv]. simpl in Hk, Hv.
  eexists _, _. by apply read_entry_encode.
Qed.

Lemma LoadIndex_points_at_entries_witness :
  Disk.sst SparseIndex.numbered_disk !! SSTable.Path Scenario.table0
  = Some (Layout.sst_bytes SparseIndex.numbered)
  ∧ Forall (fun e => Layout.fits (fst e) ∧ Layout.fits (snd e)) SparseIndex.numbered
  ∧ len (Layout.sst_bytes SparseIndex.numbered) < 2 ^ 63
  ∧ snd (SparseIndex.LoadIndex Scenario.table0 SparseIndex.numbered_disk) = None
  ∧ (∀ ie, ie ∈ fst (SparseIndex.LoadIndex Scenario.table0 SparseIndex.numbered_disk) ↔
       ∃ (j : nat) (v : string),
         SparseIndex.numbered !! j = Some (SparseIndex.Key ie, v)
         ∧ Z.rem (Z.of_nat j) SparseIndex.IndexInterval = 0
         ∧ SparseIndex.Offset ie
           = len (Layout.sst_bytes (take j SparseIndex.numbered)))
  ∧ ∀ ie, ie ∈ fst (SparseIndex.LoadIndex Scenario.table0 SparseIndex.numbered_disk) →
      ∃ v rest,
        Wire.read_entry
          (Layout.skip (Z.to_nat (SparseIndex.Offset ie))
             (Layout.sst_bytes SparseIndex.numbered))
        = Wire.Got (SparseIndex.Key ie, v) rest.
Proof.
  assert (H1 : Disk.sst SparseIndex.numbered_disk !! SSTable.Path Scenario.table0
               = Some (Layout.sst_bytes SparseIndex.numbered)) by reflexivity.
  assert (H2 : Forall (fun e => Layout.fits (fst e) ∧ Layout.fits (snd e))
                 SparseIndex.numbered).
  { unfold Layout.fits. apply (bool_decide_unpack _). vm_compute. exact I. }
  assert (H3 : len (Layout.sst_bytes SparseIndex.numbered) < 2 ^ 63) by (vm_compute; reflexivity).
  split; [exact H1|]. split; [exact H2|]. split; [exact H3|].
  exact (LoadIndex_points_at_entries Scenario.table0 SparseIndex.numbered_disk
           SparseIndex.numbered H1 H2 H3).
Defined.

(** ** Segment names and the environment *)

Lemma digit_val_digit (d : Z) : 0 <= d < 10 → Names.digit_val (Names.digit d) = Some d.
Proof.
  intros Hd. unfold Names.digit_val, Names.digit. rewrite byte_val_chr by lia.
  destruct (Z.leb_spec 48 (48 + d)); [|lia].
  destruct (Z.leb_spec (48 + d) 57); [|lia]. simpl. f_equal. lia.
Qed.

Lemma parse_digits_app (s1 s2 : string) (a : Z) :
  Names.parse_digits (s1 +:+ s2) a
  = match Names.parse_digits s1 a with
    | Some b => Names.parse_digits s2 b
    | None => None
    end.
Proof.
  revert a. induction s1 as [|c s1 IH]; intros a; [by rewrite append_nil_l|].
  rewrite append_cons. cbn [Names.parse_digits].
  destruct (Names.digit_val c); [apply IH|done].
Qed.

Lemma digits_loop_spec (fuel : nat) (n : Z) (acc : string) :
  (1 <= fuel)%nat → 0 <= n < 10 ^ Z.of_nat fuel →
  ∃ ds, Names.digits_loop fuel n acc = ds +:+ acc
        ∧ (1 <= String.length ds)%nat
        ∧ ∀ a, Names.parse_digits ds a = Some (a * 10 ^ len ds + n).
Proof.
  revert n acc. induction fuel as [|fuel IH]; intros n acc Hf Hn; [lia|].
  cbn [Names.digits_loop]. destruct (Z.ltb_spec n 10) as [Hlt|Hge].
  - exists (String (Names.digit n) EmptyString). split; [done|]. split; [simpl; lia|].
    intros a. cbn [Names.parse_digits]. rewrite digit_val_digit by lia.
    f_equal. all: unfold len; simpl; lia.
  - rewrite Nat2Z.inj_succ, Z.pow_succ_r in Hn by lia.
    assert (1 <= fuel)%nat as Hf'.
    { destruct fuel; [simpl in Hn; lia|lia]. }
    destruct (IH (n / 10) (String (Names.digit (n mod 10)) acc) Hf') as (ds & Hds & Hlen & Hparse).
    { split; [apply Z.div_pos; lia|]. apply Z.div_lt_upper_bound; lia. }
    exists (ds +:+ String (Names.digit (n mod 10)) EmptyString). split.
    { by rewrite Hds, append_assoc, append_cons, append_nil_l. }
    split; [rewrite length_append; lia|].
    intros a. rewrite parse_digits_app, Hparse. cbn [Names.parse_digits].
    rewrite digit_val_digit by (apply Z.mod_pos_bound; lia).
    f_equal. rewrite len_append.
    change (len (String (Names.digit (n mod 10)) EmptyString)) with 1.
    rewrite Z.pow_add_r by (pose proof (len_nonneg ds); lia).
    pose proof (Z.div_mod n 10 ltac:(lia)). lia.
Qed.

Lemma digits_spec (n : Z) :
  0 <= n <= 2 ^ 63 →
  (1 <= String.length (Names.digits n))%nat
  ∧ ∀ a, Names.parse_digits (Names.digits n) a
         = Some (a * 10 ^ len (Names.digits n) + n).
Proof.
  intros Hn. unfold Names.digits.
  destruct (digits_loop_spec 20 n EmptyString) as (ds & Hds & Hlen & Hparse); [lia|lia|].
  rewrite Hds, append_nil_r. by split.
Qed.

Lemma parse_digits_zeros (k : nat) (s : string) :
  Names.parse_digits (Names.zeros k +:+ s) 0 = Names.parse_digits s 0.
Proof.
  induction k as [|k IH]; [done|]. cbn [Names.zeros]. rewrite append_cons.
  cbn [Names.parse_digits]. by rewrite digit_val_digit by lia.
Qed.

Lemma parse_padded (k : nat) (n : Z) :
  0 <= n <= 2 ^ 63 →
  Names.parse_digits (Names.zeros k +:+ Names.digits n) 0 = Some n
  ∧ Names.zeros k +:+ Names.digits n ≠ EmptyString.
Proof.
  intros Hn. destruct (digits_spec n Hn) as [Hlen Hparse]. split.
  - rewrite parse_digits_zeros, Hparse. f_equal; lia.
  - intros Hnil. apply (f_equal String.length) in Hnil.
    rewrite length_append in Hnil. simpl in Hnil. lia.
Qed.

Lemma digit_val_sign (c : ascii) (d : Z) :
  Names.digit_val c = Some d →
  Ascii.eqb c "-" = false ∧ Ascii.eqb c "+" = false ∧ Ascii.eqb c "." = false.
Proof.
  intros Hd. repeat split.
  all: destruct (Ascii.eqb_spec c "-"%char) as [->|]; [by vm_compute in Hd|].
  all: destruct (Ascii.eqb_spec c "+"%char) as [->|]; [by vm_compute in Hd|].
  all: destruct (Ascii.eqb_spec c "."%char) as [->|]; [by vm_compute in Hd|].
  all: done.
Qed.

Lemma Atoi_digits (s : string) (n : Z) :
  s ≠ EmptyString → Names.parse_digits s 0 = Some n → 0 <= n < 2 ^ 63 →
  Names.Atoi s = Some n.
Proof.
  intros Hs Hparse Hn. destruct s as [|c s]; [done|]. unfold Names.Atoi.
  pose proof Hparse as Hc. cbn [Names.parse_digits] in Hc.
  destruct (Names.digit_val c) as [d|] eqn:Hd; [|done].
  destruct (digit_val_sign c d Hd) as (-> & -> & _). rewrite Hparse.
  destruct (Z.leb_spec (- 2 ^ 63) n); [|lia]. destruct (Z.ltb_spec n (2 ^ 63)); [done|lia].
Qed.

Lemma Atoi_minus (s : string) (n : Z) :
  s ≠ EmptyString → Names.parse_digits s 0 = Some n → 0 <= n <= 2 ^ 63 →
  Names.Atoi (String "-" s) = Some (- n).
Proof.
  intros Hs Hparse Hn. unfold Names.Atoi.
  change (Ascii.eqb "-" "-") with true. cbn iota. destruct s as [|c s]; [done|].
  rewrite Hparse.
  destruct (Z.leb_spec (- 2 ^ 63) (- n)); [|lia].
  destruct (Z.ltb_spec (- n) (2 ^ 63)); [done|lia].
Qed.

Lemma Atoi_Sprintf (n : Z) :
  - 2 ^ 63 <= n < 2 ^ 63 → Names.Atoi (Names.Sprintf_06d n) = Some n.
Proof.
  intros Hn. unfold Names.Sprintf_06d. destruct (Z.ltb_spec n 0) as [Hneg|Hpos].
  - destruct (parse_padded (5 - String.length (Names.digits (- n))) (- n)) as [Hp Hne]; [lia|].
    rewrite (Atoi_minus _ (- n)); [f_equal; lia|done|done|lia].
  - destruct (parse_padded (6 - String.length (Names.digits n)) n) as [Hp Hne]; [lia|].
    by apply Atoi_digits; [| |lia].
Qed.

Lemma Index_after_digits (s rest : string) (a n : Z) :
  Names.parse_digits s a = Some n →
  Names.Index (s +:+ ".log" +:+ rest) ".log" = len s.
Proof.
  revert a. induction s as [|c s IH]; intros a Hparse.
  - rewrite append_nil_l.
    change (".log" +:+ rest) with (String "." (String "l" (String "o" (String "g" rest)))).
    by vm_compute.
  - cbn [Names.parse_digits] in Hparse.
    destruct (Names.digit_val c) as [d|] eqn:Hd; [|done].
    destruct (digit_val_sign c d Hd) as (_ & _ & Hdot).
    rewrite append_cons. cbn [Names.Index Names.HasPrefix].
    rewrite Ascii.eqb_sym, Hdot. rewrite (IH _ Hparse).
    pose proof (len_nonneg s). destruct (Z.ltb_spec (len s) 0); [lia|].
    unfold len. simpl String.length. lia.
Qed.

Lemma Index_skip (c : ascii) (s substr : string) :
  Names.HasPrefix (String c s) substr = false → 0 <= Names.Index s substr →
  Names.Index (String c s) substr = Names.Index s substr + 1.
Proof.
  intros Hp Hi. cbn [Names.Index]. rewrite Hp.
  by destruct (Z.ltb_spec (Names.Index s substr) 0); [lia|].
Qed.

Lemma slice_middle (a b c : string) :
  Names.slice (len a) (len a + len b) (a +:+ b +:+ c) = Some b.
Proof.
  unfold Names.slice. rewrite !len_append.
  pose proof (len_nonneg a). pose proof (len_nonneg b). pose proof (len_nonneg c).
  destruct (Z.leb_spec 0 (len a)); [|lia].
  destruct (Z.leb_spec (len a) (len a + len b)); [|lia].
  destruct (Z.leb_spec (len a + len b) (len a + (len b + len c))); [|lia].
  cbn [andb]. replace (len a + len b - len a) with (len b) by lia.
  unfold len. rewrite !Nat2Z.id. rewrite split_at_append. cbn [snd].
  by rewrite split_at_append.
Qed.

Lemma extractID_padded (pad : string) (n : Z) :
  Names.Index (pad +:+ ".log") ".log" = len pad →
  Names.Atoi pad = Some n →
  Names.extractID ("wal_" +:+ pad +:+ ".log") = Some n.
Proof.
  intros Hindex Hatoi. pose proof (len_nonneg pad) as Hlen.
  assert (Names.Index ("wal_" +:+ pad +:+ ".log") "_" = 3) as Hstart by by vm_compute.
  assert (Names.Index ("wal_" +:+ pad +:+ ".log") ".log" = 4 + len pad) as Hend.
  { change ("wal_" +:+ pad +:+ ".log")
      with (String "w" (String "a" (String "l" (String "_" (pad +:+ ".log"))))).
    assert (Names.Index (String "_" (pad +:+ ".log")) ".log" = len pad + 1) as H1.
    { rewrite Index_skip; [by rewrite Hindex|by vm_compute|lia]. }
    assert (Names.Index (String "l" (String "_" (pad +:+ ".log"))) ".log"
            = len pad + 1 + 1) as H2.
    { rewrite Index_skip; [by rewrite H1|by vm_compute|lia]. }
    assert (Names.Index (String "a" (String "l" (String "_" (pad +:+ ".log")))) ".log"
            = len pad + 1 + 1 + 1) as H3.
    { rewrite Index_skip; [by rewrite H2|by vm_compute|lia]. }
    rewrite Index_skip; [rewrite H3; lia|by vm_compute|lia]. }
  unfold Names.extractID. rewrite Hstart, Hend.
  destruct (Z.eqb_spec (4 + len pad) (-1)); [lia|]. cbn [orb Z.eqb].
  change (3 + 1) with (len "wal_").
  by rewrite slice_middle, Hatoi.
Qed.

Lemma Index_Sprintf (n : Z) :
  - 2 ^ 63 <= n < 2 ^ 63 →
  Names.Index (Names.Sprintf_06d n +:+ ".log") ".log" = len (Names.Sprintf_06d n).
Proof.
  intros Hn. unfold Names.Sprintf_06d. destruct (Z.ltb_spec n 0) as [Hneg|Hpos].
  - destruct (parse_padded (5 - String.length (Names.digits (- n))) (- n)) as [Hp _]; [lia|].
    rewrite append_cons.
    pose proof (Index_after_digits _ EmptyString _ _ Hp) as Hi.
    change (".log" +:+ EmptyString)%string with ".log"%string in Hi.
    rewrite Index_skip; [|by vm_compute|rewrite Hi; apply len_nonneg].
    rewrite Hi. unfold len. simpl String.length. lia.
  - destruct (parse_padded (6 - String.length (Names.digits n)) n) as [Hp _]; [lia|].
    exact (Index_after_digits _ EmptyString _ _ Hp).
Qed.

Lemma extractID_name (id : Z) :
  - 2 ^ 63 <= id < 2 ^ 63 → Names.extractID (Names.segment_name id) = Some id.
Proof.
  intros Hid. unfold Names.segment_name.
  apply extractID_padded; [by apply Index_Sprintf|by apply Atoi_Sprintf].
Qed.

(** X22.  [extractID] recovers the number of every segment name that
    [openSegment] makes ([wal_%06d.log]), for every 64-bit number, also
    those of more than six digits and the negative ones; hence two
    segments with different numbers never share a file. *)
Theorem extractID_segment_name (id id' : Z) :
  - 2 ^ 63 <= id < 2 ^ 63 → - 2 ^ 63 <= id' < 2 ^ 63 →
  Names.extractID (Names.segment_name id) = Some id
  ∧ (Names.segment_name id = Names.segment_name id' → id = id').
Proof.
  intros Hid Hid'. split; [by apply extractID_name|].
  intros Heq. apply (f_equal Names.extractID) in Heq.
  rewrite !extractID_name in Heq by done. congruence.
Qed.

Lemma extractID_segment_name_witness :
  - 2 ^ 63 <= 1234567 < 2 ^ 63 ∧ - 2 ^ 63 <= 12 < 2 ^ 63
  ∧ Names.extractID (Names.segment_name 1234567) = Some 1234567
  ∧ (Names.segment_name 1234567 = Names.segment_name 12 → 1234567 = 12).
Proof.
  assert (H1 : - 2 ^ 63 <= 1234567 < 2 ^ 63) by lia.
  assert (H2 : - 2 ^ 63 <= 12 < 2 ^ 63) by lia.
  split; [exact H1|]. split; [exact H2|].
  exact (extractID_segment_name 1234567 12 H1 H2).
Defined.

Lemma HasPrefix_append (substr rest : string) :
  Names.HasPrefix (substr +:+ rest) substr = true.
Proof.
  induction substr as [|c substr IH]; [done|]. rewrite append_cons.
  cbn [Names.HasPrefix]. by rewrite Ascii.eqb_refl.
Qed.

Lemma Index_bounds (s substr : string) :
  Names.Index s substr = -1
  ∨ 0 <= Names.Index s substr ∧ Names.Index s substr + len substr <= len s.
Proof.
  assert (∀ s, Names.HasPrefix s substr = true → len substr <= len s) as Hprefix.
  { induction substr as [|c substr IH]; intros t Ht; [apply len_nonneg|].
    destruct t as [|b t]; [done|]. cbn [Names.HasPrefix] in Ht.
    destruct (Ascii.eqb c b); [|done]. apply IH in Ht. unfold len in *. simpl. lia. }
  induction s as [|c s IH]; cbn [Names.Index].
  - destruct (Names.HasPrefix EmptyString substr) eqn:Hp; [|by left].
    right. apply Hprefix in Hp. lia.
  - destruct (Names.HasPrefix (String c s) substr) eqn:Hp.
    + right. apply Hprefix in Hp. lia.
    + destruct (Z.ltb_spec (Names.Index s substr) 0); [by left|].
      right. destruct IH as [?|[? ?]]; [lia|]. unfold len in *. simpl String.length. lia.
Qed.

Lemma Index_found (a substr rest : string) : 0 <= Names.Index (a +:+ substr +:+ rest) substr.
Proof.
  induction a as [|c a IH].
  - rewrite append_nil_l. pose proof (HasPrefix_append substr rest) as Hp.
    destruct (substr +:+ rest); cbn [Names.Index]; by rewrite Hp.
  - rewrite append_cons. cbn [Names.Index].
    destruct (Names.HasPrefix _ _); [done|].
    destruct (Z.ltb_spec (Names.Index (a +:+ substr +:+ rest) substr) 0); lia.
Qed.

(** X23.  [extractID] does not panic on a name that the pattern
    [wal_*.log] matches: the slice [base[start+1:end]] is always within
    bounds there.  *)
Theorem extractID_defined_on_glob (mid : string) :
  is_Some (Names.extractID ("wal_" +:+ mid +:+ ".log")).
Proof.
  assert (Names.Index ("wal_" +:+ mid +:+ ".log") "_" = 3) as Hstart by by vm_compute.
  pose proof (Index_found mid ".log" EmptyString) as Hmid. rewrite append_nil_r in Hmid.
  pose proof (Index_bounds (mid +:+ ".log") ".log") as Hb.
  assert (Names.Index ("wal_" +:+ mid +:+ ".log") ".log"
          = Names.Index (mid +:+ ".log") ".log" + 4) as Hend.
  { change ("wal_" +:+ mid +:+ ".log")
      with (String "w" (String "a" (String "l" (String "_" (mid +:+ ".log"))))).
    assert (Names.Index (String "_" (mid +:+ ".log")) ".log"
            = Names.Index (mid +:+ ".log") ".log" + 1) as H1.
    { rewrite Index_skip; [done|by vm_compute|lia]. }
    assert (Names.Index (String "l" (String "_" (mid +:+ ".log"))) ".log"
            = Names.Index (mid +:+ ".log") ".log" + 1 + 1) as H2.
    { rewrite Index_skip; [by rewrite H1|by vm_compute|lia]. }
    assert (Names.Index (String "a" (String "l" (String "_" (mid +:+ ".log")))) ".log"
            = Names.Index (mid +:+ ".log") ".log" + 1 + 1 + 1) as H3.
    { rewrite Index_skip; [by rewrite H2|by vm_compute|lia]. }
    rewrite Index_skip; [rewrite H3; lia|by vm_compute|lia]. }
  unfold Names.extractID. rewrite Hstart, Hend.
  destruct (Z.eqb_spec (Names.Index (mid +:+ ".log") ".log" + 4) (-1)); [lia|].
  cbn [orb Z.eqb]. unfold Names.slice.
  change (len ("wal_" +:+ mid +:+ ".log")) with (len (String "w" (String "a" (String "l" (String "_" (mid +:+ ".log")))))).
  assert (len (String "w" (String "a" (String "l" (String "_" (mid +:+ ".log")))))
          = len (mid +:+ ".log") + 4) as -> by (unfold len; simpl String.length; lia).
  change (len ".log") with 4 in Hb.
  destruct (Z.leb_spec 0 (3 + 1)); [|lia].
  destruct (Z.leb_spec (3 + 1) (Names.Index (mid +:+ ".log") ".log" + 4)); [|lia].
  destruct (Z.leb_spec (Names.Index (mid +:+ ".log") ".log" + 4) (len (mid +:+ ".log") + 4)); [|lia].
  cbn [andb]. by destruct (Names.Atoi _).
Qed.

Lemma getEnvAsInt_decimal (env : Environment.t) (key : string) (defaultVal n : Z) :
  0 <= n < 2 ^ 63 → env !! key = Some (Names.digits n) →
  Environment.getEnvAsInt env key defaultVal = n.
Proof.
  intros Hn Hkey. unfold Environment.getEnvAsInt. rewrite Hkey.
  destruct (parse_padded 0 n) as [Hp Hne]; [lia|].
  cbn [Names.zeros] in Hp, Hne. rewrite append_nil_l in Hp, Hne.
  by rewrite (Atoi_digits _ n).
Qed.

Lemma Atoi_trailing (n : Z) (c : ascii) (rest : string) :
  0 <= n <= 2 ^ 63 → Names.digit_val c = None →
  Names.Atoi (Names.digits n +:+ String c rest) = None.
Proof.
  intros Hn Hc. destruct (digits_spec n Hn) as [Hlen Hparse].
  assert (Names.parse_digits (Names.digits n +:+ String c rest) 0 = None) as Hnone.
  { rewrite parse_digits_app, Hparse. cbn [Names.parse_digits]. by rewrite Hc. }
  destruct (Names.digits n) as [|d ds] eqn:Hd; [simpl in Hlen; lia|].
  rewrite append_cons in *. specialize (Hparse 0). cbn [Names.parse_digits] in Hparse.
  destruct (Names.digit_val d) as [v|] eqn:Hv; [|done].
  destruct (digit_val_sign d v Hv) as (Hm & Hp & _).
  unfold Names.Atoi. by rewrite Hm, Hp, Hnone.
Qed.

(** X24.  [Load] takes the two numeric settings from the environment
    when they are written in decimal: the flush size and the table count
    of the configuration are the numbers the variables spell.  *)
Theorem Load_reads_decimal_settings (env : Environment.t) (flush count : Z) :
  0 <= flush < 2 ^ 63 → 0 <= count < 2 ^ 63 →
  env !! "LOGBASE_MEMTABLE_FLUSH_BYTES"%string = Some (Names.digits flush) →
  env !! "LOGBASE_MAX_SSTABLES"%string = Some (Names.digits count) →
  Config.MemTableFlushSize (Environment.Load env) = flush
  ∧ Config.MaxSSTablesBeforeComp (Environment.Load env) = count.
Proof.
  intros Hf Hc Hflush Hcount. split; by apply getEnvAsInt_decimal.
Qed.

Lemma Load_reads_decimal_settings_witness :
  0 <= 4096 < 2 ^ 63 ∧ 0 <= 0 < 2 ^ 63
  ∧ ({[ "LOGBASE_MEMTABLE_FLUSH_BYTES"%string := "4096"%string;
        "LOGBASE_MAX_SSTABLES"%string := "0"%string ]} : Environment.t)
      !! "LOGBASE_MEMTABLE_FLUSH_BYTES"%string = Some (Names.digits 4096)
  ∧ ({[ "LOGBASE_MEMTABLE_FLUSH_BYTES"%string := "4096"%string;
        "LOGBASE_MAX_SSTABLES"%string := "0"%string ]} : Environment.t)
      !! "LOGBASE_MAX_SSTABLES"%string = Some (Names.digits 0)
  ∧ Config.MemTableFlushSize
      (Environment.Load {[ "LOGBASE_MEMTABLE_FLUSH_BYTES"%string := "4096"%string;
                           "LOGBASE_MAX_SSTABLES"%string := "0"%string ]}) = 4096
  ∧ Config.MaxSSTablesBeforeComp
      (Environment.Load {[ "LOGBASE_MEMTABLE_FLUSH_BYTES"%string := "4096"%string;
                           "LOGBASE_MAX_SSTABLES"%string := "0"%string ]}) = 0.
Proof.
  assert (H1 : 0 <= 4096 < 2 ^ 63) by lia.
  assert (H2 : 0 <= 0 < 2 ^ 63) by lia.
  assert (H3 : ({[ "LOGBASE_MEMTABLE_FLUSH_BYTES"%string := "4096"%string;
                   "LOGBASE_MAX_SSTABLES"%string := "0"%string ]} : Environment.t)
                 !! "LOGBASE_MEMTABLE_FLUSH_BYTES"%string = Some (Names.digits 4096))
    by (vm_compute; reflexivity).
  assert (H4 : ({[ "LOGBASE_MEMTABLE_FLUSH_BYTES"%string := "4096"%string;
                   "LOGBASE_MAX_SSTABLES"%string := "0"%string ]} : Environment.t)
                 !! "LOGBASE_MAX_SSTABLES"%string = Some (Names.digits 0))
    by (vm_compute; reflexivity).
  split; [exact H1|]. split; [exact H2|]. split; [exact H3|]. split; [exact H4|].
  exact (Load_reads_decimal_settings _ 4096 0 H1 H2 H3 H4).
Defined.

(** X25.  [Load] never fails: a numeric variable that is unset gives the
    default, and so does one whose digits are followed by anything that
    is not a digit (a unit such as [64MB]); nothing reports that the
    setting was ignored. *)
Theorem Load_falls_back_on_malformed_number
    (env : Environment.t) (n : Z) (c : ascii) (rest : string) :
  0 <= n <= 2 ^ 63 → Names.digit_val c = None →
  env !! "LOGBASE_MEMTABLE_FLUSH_BYTES"%string = Some (Names.digits n +:+ String c rest) →
  env !! "LOGBASE_MAX_SSTABLES"%string = None →
  Config.MemTableFlushSize (Environment.Load env) = 1024 * 1024
  ∧ Config.MaxSSTablesBeforeComp (Environment.Load env) = 4.
Proof.
  intros Hn Hc Hflush Hcount. unfold Environment.Load, Environment.getEnvAsInt.
  cbn [Config.MemTableFlushSize Config.MaxSSTablesBeforeComp].
  by rewrite Hflush, Hcount, Atoi_trailing.
Qed.

Lemma Load_falls_back_on_malformed_number_witness :
  0 <= 64 <= 2 ^ 63 ∧ Names.digit_val "M" = None
  ∧ ({[ "LOGBASE_MEMTABLE_FLUSH_BYTES"%string := "64MB"%string ]} : Environment.t)
      !! "LOGBASE_MEMTABLE_FLUSH_BYTES"%string = Some (Names.digits 64 +:+ String "M" "B")
  ∧ ({[ "LOGBASE_MEMTABLE_FLUSH_BYTES"%string := "64MB"%string ]} : Environment.t)
      !! "LOGBASE_MAX_SSTABLES"%string = None
  ∧ Config.MemTableFlushSize
      (Environment.Load {[ "LOGBASE_MEMTABLE_FLUSH_BYTES"%string := "64MB"%string ]})
    = 1024 * 1024
  ∧ Config.MaxSSTablesBeforeComp
      (Environment.Load {[ "LOGBASE_MEMTABLE_FLUSH_BYTES"%string := "64MB"%string ]}) = 4.
Proof.
  assert (H1 : 0 <= 64 <= 2 ^ 63) by lia.
  assert (H2 : Names.digit_val "M" = None) by reflexivity.
  assert (H3 : ({[ "LOGBASE_MEMTABLE_FLUSH_BYTES"%string := "64MB"%string ]} : Environment.t)
                 !! "LOGBASE_MEMTABLE_FLUSH_BYTES"%string
               = Some (Names.digits 64 +:+ String "M" "B")) by (vm_compute; reflexivity).
  assert (H4 : ({[ "LOGBASE_MEMTABLE_FLUSH_BYTES"%string := "64MB"%string ]} : Environment.t)
                 !! "LOGBASE_MAX_SSTABLES"%string = None) by (vm_compute; reflexivity).
  split; [exact H1|]. split; [exact H2|]. split; [exact H3|]. split; [exact H4|].
  exact (Load_falls_back_on_malformed_number _ 64 "M" "B" H1 H2 H3 H4).
Defined.

(** ** Start, flush and compaction *)

(** X26.  [NewEngine] never reads a segment an earlier process wrote:
    whatever the directory holds, it opens a new empty segment, replays
    that one, and returns an engine whose memory table is empty, while
    every older segment stays on disk as it was. *)
Theorem NewEngine_starts_with_empty_memtable (d : Disk.t) :
  (∀ id, is_Some (Disk.wal d !! id) → id < 2 ^ 63 - 1) →
  ∃ d1 e, Engine.NewEngine d = (d1, inl e)
          ∧ Engine.memtable e = MemTable.NewMemTable
          ∧ Disk.wal d !! WAL.segment (Engine.wal e) = None
          ∧ Disk.wal d1 !! WAL.segment (Engine.wal e) = Some EmptyString
          ∧ ∀ id c, Disk.wal d !! id = Some c → Disk.wal d1 !! id = Some c.
Proof.
  intros Hsmall.
  destruct (NewEngine_ignores_old_segments d Hsmall) as (d1 & e & Hnew & Hmem & Hopen & Hold).
  exists d1, e. split; [done|]. split; [done|]. split; [|by split].
  clear Hmem Hopen Hold.
  pose proof (nextSegmentID_fresh _ Hsmall) as Hfresh.
  unfold Engine.NewEngine, WAL.OpenWAL, WAL.openSegment in Hnew. rewrite Hfresh in Hnew.
  unfold WAL.Replay, WAL.content in Hnew. simpl in Hnew.
  rewrite lookup_insert_eq in Hnew. simpl in Hnew. injection Hnew as _ <-.
  assert (∀ d' e', Engine.wal (Engine.loadSSTables d' e') = Engine.wal e') as Hw.
  { intros d' e'. unfold Engine.loadSSTables.
    revert e'. induction (Engine.glob_sorted _) as [|f fs IH]; intros e'; simpl; [done|].
    by rewrite IH. }
  simpl. by rewrite Hw.
Qed.

Lemma NewEngine_starts_with_empty_memtable_witness :
  (∀ id, is_Some (Disk.wal (Disk.set_wal {[ 0 := WAL.encode WAL.PutRecord "a" "1" ]} Disk.empty)
                    !! id) → id < 2 ^ 63 - 1)
  ∧ ∃ d1 e,
      Engine.NewEngine (Disk.set_wal {[ 0 := WAL.encode WAL.PutRecord "a" "1" ]} Disk.empty)
      = (d1, inl e)
      ∧ Engine.memtable e = MemTable.NewMemTable
      ∧ Disk.wal (Disk.set_wal {[ 0 := WAL.encode WAL.PutRecord "a" "1" ]} Disk.empty)
          !! WAL.segment (Engine.wal e) = None
      ∧ Disk.wal d1 !! WAL.segment (Engine.wal e) = Some EmptyString
      ∧ ∀ id c,
          Disk.wal (Disk.set_wal {[ 0 := WAL.encode WAL.PutRecord "a" "1" ]} Disk.empty) !! id
          = Some c →
          Disk.wal d1 !! id = Some c.
Proof.
  assert (H1 : ∀ id,
             is_Some (Disk.wal (Disk.set_wal {[ 0 := WAL.encode WAL.PutRecord "a" "1" ]}
                                  Disk.empty) !! id) → id < 2 ^ 63 - 1).
  { intros id [c Hc]. simpl in Hc. apply lookup_singleton_Some in Hc as [<- _]. lia. }
  split; [exact H1|].
  exact (NewEngine_starts_with_empty_memtable
           (Disk.set_wal {[ 0 := WAL.encode WAL.PutRecord "a" "1" ]} Disk.empty) H1).
Defined.

Lemma load_tables_fold (d : Disk.t) (fs : list SstPath) (e : Engine.t) :
  0 <= Engine.nextTable e → Engine.nextTable e + Z.of_nat (length fs) < 2 ^ 63 →
  List.map SSTable.Path (Engine.sstables (fold_left (Engine.load_table d) fs e))
  = List.map SSTable.Path (Engine.sstables e) ++ fs
  ∧ Engine.nextTable (fold_left (Engine.load_table d) fs e)
    = Engine.nextTable e + Z.of_nat (length fs)
  ∧ ∀ t, t ∈ Engine.sstables (fold_left (Engine.load_table d) fs e) →
         t ∈ Engine.sstables e
         ∨ SSTable.Bloom t = fst (BloomFilter.LoadBloomFilter (SSTable.Path t) (Disk.bloom d)).
Proof.
  revert e. induction fs as [|f fs IH]; intros e H0 Hlt.
  - simpl. rewrite app_nil_r. split; [done|]. split; [lia|]. by left.
  - cbn [fold_left]. cbn [length] in Hlt.
    assert (Engine.nextTable (Engine.load_table d e f) = Engine.nextTable e + 1) as Hnext.
    { cbn [Engine.load_table Engine.nextTable]. apply int64_small. lia. }
    destruct (IH (Engine.load_table d e f)) as (Hpaths & Hcount & Hbloom); [lia|lia|].
    rewrite Hpaths, Hcount, Hnext. split; [|split; [cbn [length]; lia|]].
    + cbn [Engine.load_table Engine.sstables]. rewrite map_app, <- app_assoc. done.
    + intros t Ht. destruct (Hbloom t Ht) as [Hin|Hb]; [|by right].
      cbn [Engine.load_table Engine.sstables] in Hin.
      apply elem_of_app in Hin as [Hin|Hin]; [by left|].
      apply list_elem_of_singleton in Hin as ->. by right.
Qed.

(** X27.  [loadSSTables] on a new engine makes exactly one table for
    every file that matches [sst_*.dat], and leaves [nextTable] at the
    number of those files, whatever numbers their names carry; each
    table keeps the pointer [LoadBloomFilter] returned, its error
    dropped. *)
Theorem loadSSTables_counts_files (d : Disk.t) (e : Engine.t) :
  Engine.sstables e = [] → Engine.nextTable e = 0 →
  Z.of_nat (size (Disk.sst d)) < 2 ^ 63 →
  List.map SSTable.Path (Engine.sstables (Engine.loadSSTables d e))
    ≡ₚ List.map fst (map_to_list (Disk.sst d))
  ∧ Engine.nextTable (Engine.loadSSTables d e) = Z.of_nat (size (Disk.sst d))
  ∧ ∀ t, t ∈ Engine.sstables (Engine.loadSSTables d e) →
         SSTable.Bloom t = fst (BloomFilter.LoadBloomFilter (SSTable.Path t) (Disk.bloom d)).
Proof.
  intros Hnil Hzero Hsize. unfold Engine.loadSSTables.
  assert (length (Engine.glob_sorted d) = size (Disk.sst d)) as Hlen.
  { unfold Engine.glob_sorted. rewrite merge_sort_Permutation, length_map.
    by rewrite length_map_to_list. }
  destruct (load_tables_fold d (Engine.glob_sorted d) e) as (Hpaths & Hcount & Hbloom);
    [lia|lia|].
  rewrite Hpaths, Hcount, Hnil, Hzero, Hlen. split; [|split; [lia|]].
  - simpl. unfold Engine.glob_sorted. apply merge_sort_Permutation.
  - intros t Ht. destruct (Hbloom t Ht) as [Hin|Hb]; [|done].
    rewrite Hnil in Hin. by apply elem_of_nil in Hin.
Qed.

Lemma loadSSTables_counts_files_witness :
  Engine.sstables (Engine.eng (History.fresh Config.defaults)) = []
  ∧ Engine.nextTable (Engine.eng (History.fresh Config.defaults)) = 0
  ∧ Z.of_nat (size (Disk.sst Scenario.torn_disk)) < 2 ^ 63
  ∧ List.map SSTable.Path
      (Engine.sstables
         (Engine.loadSSTables Scenario.torn_disk (Engine.eng (History.fresh Config.defaults))))
      ≡ₚ List.map fst (map_to_list (Disk.sst Scenario.torn_disk))
  ∧ Engine.nextTable
      (Engine.loadSSTables Scenario.torn_disk (Engine.eng (History.fresh Config.defaults)))
    = Z.of_nat (size (Disk.sst Scenario.torn_disk))
  ∧ ∀ t, t ∈ Engine.sstables
               (Engine.loadSSTables Scenario.torn_disk
                  (Engine.eng (History.fresh Config.defaults))) →
         SSTable.Bloom t
         = fst (BloomFilter.LoadBloomFilter (SSTable.Path t) (Disk.bloom Scenario.torn_disk)).
Proof.
  assert (H1 : Engine.sstables (Engine.eng (History.fresh Config.defaults)) = [])
    by reflexivity.
  assert (H2 : Engine.nextTable (Engine.eng (History.fresh Config.defaults)) = 0)
    by reflexivity.
  assert (H3 : Z.of_nat (size (Disk.sst Scenario.torn_disk)) < 2 ^ 63)
    by (vm_compute; reflexivity).
  split; [exact H1|]. split; [exact H2|]. split; [exact H3|].
  exact (loadSSTables_counts_files Scenario.torn_disk
           (Engine.eng (History.fresh Config.defaults)) H1 H2 H3).
Defined.

(** X28.  A flush of a memory table that holds at least one key always
    stops at the filter: it writes the data file with the entries of the
    snapshot in key order, returns the encoder's error, and leaves the
    engine as it was: the memory table is not reset, no table is added
    and the log is neither rotated nor truncated. *)
Theorem flushMemTable_writes_file_then_fails (w : Engine.world) :
  MemTable.Snapshot (Engine.memtable (Engine.eng w)) ≠ ∅ →
  snd (Engine.flushMemTable w) = Some ErrGobNoExportedFields
  ∧ Engine.eng (fst (Engine.flushMemTable w)) = Engine.eng w
  ∧ Disk.wal (Engine.disk (fst (Engine.flushMemTable w))) = Disk.wal (Engine.disk w)
  ∧ Disk.sst (Engine.disk (fst (Engine.flushMemTable w)))
      !! SstFlushed (Engine.nextTable (Engine.eng w))
    = Some (Layout.sst_bytes
              (Layout.entries (MemTable.Snapshot (Engine.memtable (Engine.eng w)))))
  ∧ ∀ p, p ≠ SstFlushed (Engine.nextTable (Engine.eng w)) →
         Disk.sst (Engine.disk (fst (Engine.flushMemTable w))) !! p
         = Disk.sst (Engine.disk w) !! p.
Proof.
  intros Hne. unfold Engine.flushMemTable.
  destruct (decide (size (MemTable.Snapshot (Engine.memtable (Engine.eng w))) = 0%nat))
    as [Hsize|_].
  { by apply map_size_empty_inv in Hsize. }
  pose proof (WriteSSTable_file (SstFlushed (Engine.nextTable (Engine.eng w)))
                (MemTable.Snapshot (Engine.memtable (Engine.eng w))) (Engine.disk w)) as Hfile.
  rewrite WriteSSTable_fails in Hfile |- *. cbn [fst snd] in Hfile |- *.
  split; [done|]. split; [done|]. split; [done|]. split; [exact Hfile|].
  intros p Hp. simpl. by rewrite lookup_insert_ne.
Qed.

Lemma flushMemTable_writes_file_then_fails_witness :
  MemTable.Snapshot (Engine.memtable (Engine.eng Tiers.world)) ≠ ∅
  ∧ snd (Engine.flushMemTable Tiers.world) = Some ErrGobNoExportedFields
  ∧ Engine.eng (fst (Engine.flushMemTable Tiers.world)) = Engine.eng Tiers.world
  ∧ Disk.wal (Engine.disk (fst (Engine.flushMemTable Tiers.world)))
    = Disk.wal (Engine.disk Tiers.world)
  ∧ Disk.sst (Engine.disk (fst (Engine.flushMemTable Tiers.world)))
      !! SstFlushed (Engine.nextTable (Engine.eng Tiers.world))
    = Some (Layout.sst_bytes
              (Layout.entries (MemTable.Snapshot (Engine.memtable (Engine.eng Tiers.world)))))
  ∧ ∀ p, p ≠ SstFlushed (Engine.nextTable (Engine.eng Tiers.world)) →
         Disk.sst (Engine.disk (fst (Engine.flushMemTable Tiers.world))) !! p
         = Disk.sst (Engine.disk Tiers.world) !! p.
Proof.
  assert (H1 : MemTable.Snapshot (Engine.memtable (Engine.eng Tiers.world)) ≠ ∅).
  { intros Hnil. apply (f_equal (fun m => m !! "b"%string)) in Hnil.
    vm_compute in Hnil. discriminate. }
  split; [exact H1|].
  exact (flushMemTable_writes_file_then_fails Tiers.world H1).
Defined.

(** X29.  [compactAll] never installs a compacted table: on every state
    it returns an error and leaves the engine's table list, memory table
    and log as they were.  It removes no file; the only files it may
    create or overwrite are the compacted data file it was about to make
    and the filter sidecar of that file: every other data file and every
    other sidecar is as before. *)
Theorem compactAll_never_installs (w : Engine.world) :
  (∃ err, snd (Engine.compactAll w) = Some err)
  ∧ Engine.eng (fst (Engine.compactAll w)) = Engine.eng w
  ∧ Engine.vars (fst (Engine.compactAll w)) = Engine.vars w
  ∧ Disk.wal (Engine.disk (fst (Engine.compactAll w))) = Disk.wal (Engine.disk w)
  ∧ (∀ p, p ≠ SstCompacted (Engine.nextTable (Engine.eng w)) →
          Disk.sst (Engine.disk (fst (Engine.compactAll w))) !! p
          = Disk.sst (Engine.disk w) !! p)
  ∧ (∀ p, p ≠ SstCompacted (Engine.nextTable (Engine.eng w)) →
          Disk.bloom (Engine.disk (fst (Engine.compactAll w))) !! p
          = Disk.bloom (Engine.disk w) !! p)
  ∧ (is_Some (Disk.sst (Engine.disk w) !! SstCompacted (Engine.nextTable (Engine.eng w))) →
     is_Some (Disk.sst (Engine.disk (fst (Engine.compactAll w)))
                !! SstCompacted (Engine.nextTable (Engine.eng w))))
  ∧ (is_Some (Disk.bloom (Engine.disk w) !! SstCompacted (Engine.nextTable (Engine.eng w))) →
     is_Some (Disk.bloom (Engine.disk (fst (Engine.compactAll w)))
                !! SstCompacted (Engine.nextTable (Engine.eng w)))).
Proof.
  unfold Engine.compactAll.
  destruct (Engine.merge_tables _ _ _) as [merged [err|]].
  - cbn [fst snd]. split; [by exists err|]. done.
  - rewrite WriteSSTable_fails. cbn [fst snd].
    split; [by eexists|]. split; [done|]. split; [done|]. split; [done|].
    split; [|split; [|split]].
    + intros p Hp. simpl. by rewrite lookup_insert_ne.
    + intros p Hp. simpl. by rewrite lookup_insert_ne.
    + intros _. simpl. by rewrite lookup_insert_eq.
    + intros _. simpl. by rewrite lookup_insert_eq.
Qed.
